(** * wetsuit: the main loop, the work and error channels, and the
      lifecycle operations of [Application] (main.go)

    The development has four layers.
    - [World]: the process-wide state that the sequential methods of
      [Application] read and write (fields of the struct, the part of the
      toolkit they touch, and a chronological trace of their effects).
    - The sequential methods [Fatal], [NonFatal], [SetStatus], [Quit],
      [Callbacks] and the start-up prefix of [main], as functions into
      [Outcome].
    - The threaded system: the main loop of [main] and the background
      goroutines (callers of [Do], senders on [Errors], the start-up
      goroutine) as an interleaving of atomic steps.
    - The statements of [SetStatus] interleaved between several callers
      and readers that take the lock, for what the lock guarantees. *)

From Stdlib Require Import ZArith List String Ascii Lia Bool.
From stdpp Require Import base list strings gmap.
Import ListNotations.
Open Scope string_scope.
Open Scope list_scope.

(** ** Data *)

(** A Go [error] is represented by the text [err.Error()] returns. *)
Definition error := string.

(** Modelled from the spec: the declaration of [MopidyStatus] is not in
    main.go; the data model gives the enumeration as
    NotStarted, Connecting, Connected, Failed.  main.go names the last
    three as [MopidyConnecting], [MopidyConnected], [MopidyFailed]. *)
Inductive MopidyStatus :=
| MopidyNotStarted
| MopidyConnecting
| MopidyConnected
| MopidyFailed.

(** [os.Process], [exec.Cmd] and the [MopidyProc] record, as far as
    main.go reads them: [app.Mopidy.Cmd.Process] walks two pointers
    ([app.Mopidy] and its [Cmd], an [*exec.Cmd]) and compares the third
    with nil. *)
Record OsProcess := { pid : nat }.
Record ExecCmd := { Process : option OsProcess }.
Record MopidyProc := { Cmd : option ExecCmd; Status : MopidyStatus }.

(** The two closures main.go connects to a dialog's "response" signal. *)
Inductive Handler :=
| OnFatal      (* lines 112-115: gtk.MainQuit(); os.Exit(1) *)
| OnNonFatal.  (* lines 126-129: dialog.Destroy(); app.ShowingError = false *)

Record Dialog := { did : nat; message : string; handler : Handler }.

(** The methods [Callbacks] hands to [gui.Init]. *)
Inductive Callback :=
| QuitCallback
| OutputWindowCallback
| StartMopidyCallback
| StopMopidyCallback
| RestartMopidyCallback
| SourcesCallback
| OutputWindowDeleteCallback.

(** What the user (through the toolkit) can make happen while events are
    being processed: the "response" signal of dialog [d], or a signal of
    a widget of the window.  [upd] is what the callback of that signal,
    when it is a method of another file, does to the record behind
    [app.Mopidy]. *)
Inductive UiEvent :=
| Respond (d : nat)
| Signal (widget signal : string)
         (upd : option MopidyProc -> option MopidyProc).

(** The state that work items touch on the main thread. *)
Definition Store := gmap string Z.

(** Who performs an effect: the thread running [main], or goroutine [t]. *)
Inductive Who := MainThread | Goroutine (t : nat).

(** Effects, in the order they happen. *)
Inductive Event :=
| EvDialogShow (d : nat) (msg : string) (h : Handler)
| EvDialogDestroy (d : nat)
| EvGtkMain                       (* gtk.Main() entered *)
| EvMainQuit                      (* gtk.MainQuit() *)
| EvExit (code : Z)               (* os.Exit(code) *)
| EvKill (p : OsProcess)          (* Process.Kill() *)
| EvRunning (b : bool)            (* app.Running = b *)
| EvShowing (b : bool)            (* app.ShowingError = b *)
| EvLock | EvUnlock               (* app.StatusLock *)
| EvStatus (s : MopidyStatus)     (* app.Mopidy.Status = s *)
| EvGuiStatus (icon text : string) (* app.Gui.SetStatus(icon, text) *)
| EvCall (who : Who) (name : string)      (* a call into another file *)
| EvLoopTest (b : bool)           (* line 83 read app.Running = b *)
| EvIteration (batch : list UiEvent)      (* line 84 *)
| EvWorkNone                      (* line 90: default *)
| EvWorkRecv (c : nat)            (* line 88: wrapper of call [c] received *)
| EvRunF (who : Who) (c : nat) (f : Store -> Store)
                                  (* line 137: f() of call [c] *)
| EvSignal (c : nat)              (* line 138: done <- true *)
| EvShowingTest (b : bool)        (* line 96 read app.ShowingError = b *)
| EvErrNone                       (* line 102: default *)
| EvErrRecv (e : error)           (* line 98 *)
| EvDisable                       (* line 101 *)
| EvWorkSend (t c : nat) (f : Store -> Store)
                                  (* line 136: goroutine [t], in Do(f) with
                                     done channel [c], parks on Work *)
| EvDoReturn (t c : nat)          (* line 140-141: <-done, Do returns *)
| EvErrSend (t : nat) (e : error) (* app.Errors <- e: [t] parks on Errors *)
| EvObserved (s : MopidyStatus) (icon text : string).
                                  (* a reader holding app.StatusLock saw
                                     this status with this display *)

(** The state the sequential methods work on. *)
Record World := mkWorld {
  Mopidy : option MopidyProc;            (* app.Mopidy, nil until created *)
  ShowingError : bool;                   (* app.ShowingError *)
  Running : bool;                        (* app.Running *)
  StatusLock : bool;                     (* app.StatusLock is held *)
  connected : bool;                      (* gui.Init connected app.Callbacks() *)
  level : nat;                           (* gtk.MainLevel() *)
  dialogs : list Dialog;                 (* dialogs on screen, oldest first *)
  next_dialog : nat;                     (* identity of the next dialog *)
  label : string * string;               (* icon and text of the status display *)
  trace : list Event                     (* effects so far, oldest first *)
}.

Definition set_Mopidy m w :=
  mkWorld m (ShowingError w) (Running w) (StatusLock w) (connected w)
          (level w) (dialogs w) (next_dialog w) (label w) (trace w).
Definition set_ShowingError b w :=
  mkWorld (Mopidy w) b (Running w) (StatusLock w) (connected w) (level w)
          (dialogs w) (next_dialog w) (label w) (trace w).
Definition set_Running b w :=
  mkWorld (Mopidy w) (ShowingError w) b (StatusLock w) (connected w) (level w)
          (dialogs w) (next_dialog w) (label w) (trace w).
Definition set_StatusLock b w :=
  mkWorld (Mopidy w) (ShowingError w) (Running w) b (connected w) (level w)
          (dialogs w) (next_dialog w) (label w) (trace w).
Definition set_connected b w :=
  mkWorld (Mopidy w) (ShowingError w) (Running w) (StatusLock w) b (level w)
          (dialogs w) (next_dialog w) (label w) (trace w).
Definition set_level n w :=
  mkWorld (Mopidy w) (ShowingError w) (Running w) (StatusLock w) (connected w)
          n (dialogs w) (next_dialog w) (label w) (trace w).
Definition set_dialogs ds n w :=
  mkWorld (Mopidy w) (ShowingError w) (Running w) (StatusLock w) (connected w)
          (level w) ds n (label w) (trace w).
Definition set_label l w :=
  mkWorld (Mopidy w) (ShowingError w) (Running w) (StatusLock w) (connected w)
          (level w) (dialogs w) (next_dialog w) l (trace w).
Definition emit (e : Event) w :=
  mkWorld (Mopidy w) (ShowingError w) (Running w) (StatusLock w) (connected w)
          (level w) (dialogs w) (next_dialog w) (label w) (trace w ++ [e]).

(** [app := new(Application)]; [app.Running = true]; [gtk.Init(nil)]. *)
Definition new_world : World :=
  mkWorld None false true false false 0 [] 0 (EmptyString, EmptyString) [].

(** ** Outcomes of sequential code *)

Inductive Outcome (A : Type) :=
| Ret (a : A) (w : World)      (* returned *)
| Exited (code : Z) (w : World) (* os.Exit *)
| Panicked (w : World)         (* nil pointer dereference *)
| Waiting (w : World).         (* blocked: in gtk.Main with no event left,
                                  or on a mutex *)
Arguments Ret {A} a w.
Arguments Exited {A} code w.
Arguments Panicked {A} w.
Arguments Waiting {A} w.

Definition M (A : Type) := World -> Outcome A.

Definition bind {A B} (m : M A) (k : A -> M B) : M B :=
  fun w => match m w with
           | Ret a w' => k a w'
           | Exited c w' => Exited c w'
           | Panicked w' => Panicked w'
           | Waiting w' => Waiting w'
           end.
Definition ret {A} (a : A) : M A := fun w => Ret a w.
Definition act (f : World -> World) : M unit := fun w => Ret tt (f w).

Notation "x <- m ;; k" := (bind m (fun x => k))
  (at level 100, m at next level, right associativity).
Notation "m ;;; k" := (bind m (fun _ => k))
  (at level 100, right associativity).

Definition final {A} (o : Outcome A) : World :=
  match o with Ret _ w | Exited _ w | Panicked w | Waiting w => w end.

(** ** The toolkit, as far as main.go drives it *)

Definition find_dialog (d : nat) (ds : list Dialog) : option Dialog :=
  List.find (fun x => Nat.eqb (did x) d) ds.
Definition remove_dialog (d : nat) (ds : list Dialog) : list Dialog :=
  List.filter (fun x => negb (Nat.eqb (did x) d)) ds.

(** [gtk.MessageDialogNew(..., msg)], [dialog.Connect("response", h)],
    [dialog.Show()]. *)
Definition show_dialog (msg : string) (h : Handler) : M nat :=
  fun w =>
    let d := next_dialog w in
    Ret d (emit (EvDialogShow d msg h)
             (set_dialogs (dialogs w ++ [Build_Dialog d msg h]) (S d) w)).

Definition destroy_dialog (d : nat) : M unit :=
  act (fun w => emit (EvDialogDestroy d)
                  (set_dialogs (remove_dialog d (dialogs w)) (next_dialog w) w)).

(** ** Quit (lines 160-165) *)
Definition Quit : M unit :=
  fun w =>
    match Mopidy w with
    | None => Panicked w                       (* app.Mopidy is nil *)
    | Some m =>
      match Cmd m with
      | None => Panicked w                     (* app.Mopidy.Cmd is nil *)
      | Some c =>
        let w1 := match Process c with
                  | Some p => emit (EvKill p) w
                  | None => w
                  end in
        Ret tt (emit (EvRunning false) (set_Running false w1))
      end
    end.

(** ** Callbacks (lines 169-180) *)
Definition Callbacks : gmap string (gmap string Callback) :=
  let cb : gmap string (gmap string Callback) := ∅ in
  let cb := <["main-window" := {["destroy" := QuitCallback]}]> cb in
  let cb := <["menu-quit" := {["activate" := QuitCallback]}]> cb in
  let cb := <["menu-server-output" := {["activate" := OutputWindowCallback]}]> cb in
  let cb := <["menu-server-start" := {["activate" := StartMopidyCallback]}]> cb in
  let cb := <["menu-server-stop" := {["activate" := StopMopidyCallback]}]> cb in
  let cb := <["menu-server-restart" := {["activate" := RestartMopidyCallback]}]> cb in
  let cb := <["menu-sources" := {["activate" := SourcesCallback]}]> cb in
  let cb := <["output-window" := {["delete-event" := OutputWindowDeleteCallback]}]> cb in
  cb.

Definition callback_of (widget signal : string) : option Callback :=
  match Callbacks !! widget with
  | Some m => m !! signal
  | None => None
  end.
Arguments callback_of : simpl never.

(** The "response" closures. *)
Definition respond (dlg : Dialog) : M unit :=
  match handler dlg with
  | OnFatal =>
      act (emit EvMainQuit) ;;; (fun w => Exited 1 (emit (EvExit 1) w))
  | OnNonFatal =>
      destroy_dialog (did dlg) ;;;
      act (fun w => emit (EvShowing false) (set_ShowingError false w))
  end.

(** One toolkit event.  A signal has a callback once [gui.Init] has
    connected the map of [Callbacks].  Modelled from the spec: the body
    of [QuitCallback] is not in main.go; window-close and menu-quit are
    registered to Quit. *)
Definition dispatch (e : UiEvent) : M unit :=
  match e with
  | Respond d =>
      fun w => match find_dialog d (dialogs w) with
               | Some dlg => respond dlg w
               | None => Ret tt w
               end
  | Signal widget signal upd =>
      fun w =>
        if connected w then
          match callback_of widget signal with
          | Some QuitCallback => Quit w
          | Some _ => Ret tt (set_Mopidy (upd (Mopidy w)) w)
          | None => Ret tt w
          end
        else Ret tt w
  end.

(** [gtk.MainIteration()] processing the batch of events at hand. *)
Fixpoint MainIteration (batch : list UiEvent) : M unit :=
  match batch with
  | [] => ret tt
  | e :: rest => dispatch e ;;; MainIteration rest
  end.

(** [gtk.Main()]: processes events until [gtk.MainQuit()]; [evs] is what
    the user does while it runs.  No handler of main.go returns after
    [gtk.MainQuit()], so the loop only ends by leaving the process. *)
Fixpoint main_events (evs : list UiEvent) : M unit :=
  match evs with
  | [] => fun w => Waiting w
  | e :: rest => dispatch e ;;; main_events rest
  end.
Definition gtk_Main (evs : list UiEvent) : M unit :=
  act (fun w => emit EvGtkMain (set_level (S (level w)) w)) ;;;
  main_events evs.

(** ** Fatal (lines 110-120) *)
Definition Fatal (err : error) (evs : list UiEvent) : M unit :=
  _ <- show_dialog err OnFatal ;;
  fun w => if Nat.eqb (level w) 0 then gtk_Main evs w else Ret tt w.

(** ** NonFatal (lines 124-131) *)
Definition NonFatal (err : error) : M unit :=
  _ <- show_dialog err OnNonFatal ;; ret tt.

(** ** SetStatus (lines 144-157) *)
Definition status_lock : M unit :=
  fun w => if StatusLock w then Waiting w
           else Ret tt (emit EvLock (set_StatusLock true w)).
Definition status_unlock : M unit :=
  act (fun w => emit EvUnlock (set_StatusLock false w)).
Definition write_status (status : MopidyStatus) : M unit :=
  fun w => match Mopidy w with
           | None => Panicked w
           | Some m =>
               Ret tt (emit (EvStatus status)
                         (set_Mopidy (Some {| Cmd := Cmd m; Status := status |}) w))
           end.
Definition Gui_SetStatus (icon text : string) : M unit :=
  act (fun w => emit (EvGuiStatus icon text) (set_label (icon, text) w)).
(** [gtk.STOCK_CONNECT], a constant of the toolkit. *)
Definition STOCK_CONNECT : string := "gtk-connect".
Definition status_switch (status : MopidyStatus) : M unit :=
  match status with
  | MopidyConnecting => Gui_SetStatus EmptyString "Connecting..."
  | MopidyConnected => Gui_SetStatus STOCK_CONNECT "Connected to Mopidy."
  | MopidyFailed => Gui_SetStatus EmptyString "Not connected."
  | _ => ret tt
  end.
(** [defer app.StatusLock.Unlock()] runs when the body returns and also
    when it panics. *)
Definition deferred {A} (body : M A) (d : M unit) : M A :=
  fun w => match body w with
           | Ret a w' => match d w' with
                         | Ret _ w'' => Ret a w''
                         | Exited c w'' => Exited c w''
                         | Panicked w'' => Panicked w''
                         | Waiting w'' => Waiting w''
                         end
           | Panicked w' => Panicked (final (d w'))
           | o => o
           end.
Definition SetStatus (status : MopidyStatus) : M unit :=
  status_lock ;;;
  deferred (write_status status ;;; status_switch status) status_unlock.

(** ** The start-up prefix of main (lines 31-71) *)

Inductive Result (A : Type) := Ok (a : A) | Err (e : error).
Arguments Ok {A} a.
Arguments Err {A} e.

(** What the calls into the operating system and into the other packages
    answer during start-up. *)
Record Env := {
  LookPath : Result string;            (* exec.LookPath("mopidy") *)
  Current : Result string;             (* user.Current(), its HomeDir *)
  Load : string -> Result unit;        (* config.Load(path) *)
  Init : Result unit                   (* gui.Init(app.Config, app.Callbacks()) *)
}.

(** [path/filepath] of the Go library on Unix, as far as line 52 uses
    it.  The elements of a path, between its separators. *)
Fixpoint elements (path : string) : list string :=
  match path with
  | EmptyString => [EmptyString]
  | String c rest =>
      if Ascii.eqb c "/"%char
      then EmptyString :: elements rest
      else match elements rest with
           | e :: es => String c e :: es
           | [] => [String c EmptyString]
           end
  end.

(** One element in [filepath.Clean]; [out] is the cleaned path so far,
    its last element first.  An empty element (a repeated or trailing
    separator) and [.] are dropped; [..] takes back the element before
    it if there is one that is not itself [..], is dropped at the root,
    and is kept otherwise. *)
Definition clean_element (rooted : bool) (out : list string) (e : string)
  : list string :=
  if String.eqb e EmptyString then out
  else if String.eqb e "." then out
  else if String.eqb e ".." then
    match out with
    | last :: before => if String.eqb last ".." then e :: out else before
    | [] => if rooted then out else [e]
    end
  else e :: out.

(** [filepath.Clean(path)]: the shortest path equivalent to [path] by
    lexical processing; [.] for the empty path, and a trailing separator
    only for the root. *)
Definition Clean (path : string) : string :=
  match path with
  | EmptyString => "."
  | String c _ =>
      let rooted := Ascii.eqb c "/"%char in
      let out :=
        String.concat "/"
          (rev (fold_left (clean_element rooted) (elements path) [])) in
      if rooted then String "/"%char out
      else if String.eqb out EmptyString then "." else out
  end.

(** [filepath.Join(elem...)]: the elements from the first non-empty one
    on, joined with separators, and the result cleaned; the empty string
    when there is no non-empty element. *)
Fixpoint Join (elem : list string) : string :=
  match elem with
  | [] => EmptyString
  | e :: rest =>
      if String.eqb e EmptyString then Join rest
      else Clean (String.concat "/" elem)
  end.

(** Line 52: [filepath.Join(usr.HomeDir, ".config", "wetsuit",
    "mopidy.conf")]. *)
Definition userConfigPath (home : string) : string :=
  Join [home; ".config"; "wetsuit"; "mopidy.conf"].
Arguments userConfigPath : simpl never.

(** Lines 44-71.  [evs] is what the user does while a Fatal dialog drives
    the toolkit; the result is [mopidyCmdPath], handed to the goroutine
    of line 73. *)
Definition startup (env : Env) (evs : list UiEvent) : M string :=
  act (emit (EvCall MainThread "exec.LookPath")) ;;;
  mopidyCmdPath <-
    match LookPath env with
    | Ok path => ret path
    | Err _ => Fatal "Mopidy is not installed." evs ;;; ret EmptyString
    end ;;
  act (emit (EvCall MainThread "user.Current")) ;;;
  path <-
    match Current env with
    | Ok home => ret (userConfigPath home)
    | Err err => Fatal err evs ;;; ret EmptyString
    end ;;
  act (emit (EvCall MainThread "config.Load")) ;;;
  match Load env path with
  | Ok _ => ret tt
  | Err err => Fatal err evs
  end ;;;
  act (emit (EvCall MainThread "gui.Init")) ;;;
  match Init env with
  | Ok _ => act (set_connected true)
  | Err err => Fatal err evs
  end ;;;
  act (emit (EvCall MainThread "MainWindow.ShowAll")) ;;;
  ret mopidyCmdPath.

(** ** The threaded system *)

(** The closure [Do] sends on [app.Work] (lines 136-139): it captures
    [f] and the channel [done]. *)
Record Closure := { body : Store -> Store; done : nat }.
Definition wrapper (f : Store -> Store) (c : nat) : Closure :=
  {| body := f; done := c |}.

(** What a goroutine does, statement by statement. *)
Inductive Stmt :=
| SDo (f : Store -> Store)   (* app.Do(f) *)
| SSendErr (e : error)       (* app.Errors <- e *)
| SCall (name : string) (upd : option MopidyProc -> option MopidyProc).
                             (* a method of another file; it may replace or
                                update the record behind app.Mopidy *)

Inductive BgPc :=
| TReady                (* at the next statement of its program *)
| TDoParked (c : nat)   (* line 136: parked in the send on app.Work *)
| TDoRecv (c : nat)     (* line 140: at <-done *)
| TErrParked.           (* parked in the send on app.Errors *)

Record Thread := { tpc : BgPc; prog : list Stmt }.

(** Where the main thread is in the loop of lines 83-106. *)
Inductive MainPc :=
| PLoop                     (* line 83: for app.Running *)
| PIter                     (* line 84: gtk.MainIteration() *)
| PWork                     (* lines 87-92: select on app.Work *)
| PWrapF (w : Closure)      (* line 89 f(), entering line 137 *)
| PWrapDone (c : nat)       (* line 138: done <- true *)
| PShowing                  (* line 96: if !app.ShowingError *)
| PErrors                   (* lines 97-104: select on app.Errors *)
| PSetShowing (e : error)   (* line 99 *)
| PNonFatal (e : error)     (* line 100 *)
| PDisable                  (* line 101 *)
| PExit.                    (* the loop is left and main returns *)

Inductive Halt := HExit (code : Z) | HPanic.

(** [Work] and [Errors] are unbuffered ([make(chan ...)] without a size):
    a send parks the sender until a receive takes its value, and the
    runtime resumes parked senders oldest first.  Each [done] channel has
    room for one value (line 135). *)
Record State := mkState {
  world : World;
  Work : list (nat * Closure);   (* senders parked on app.Work *)
  Errors : list (nat * error);   (* senders parked on app.Errors *)
  chans : list (list bool);      (* the buffers of the done channels *)
  store : Store;
  mainpc : MainPc;
  threads : list Thread;
  halt : option Halt
}.

Definition set_world w s :=
  mkState w (Work s) (Errors s) (chans s) (store s) (mainpc s) (threads s) (halt s).
Definition set_Work q s :=
  mkState (world s) q (Errors s) (chans s) (store s) (mainpc s) (threads s) (halt s).
Definition set_Errors q s :=
  mkState (world s) (Work s) q (chans s) (store s) (mainpc s) (threads s) (halt s).
Definition set_chans cs s :=
  mkState (world s) (Work s) (Errors s) cs (store s) (mainpc s) (threads s) (halt s).
Definition set_store st s :=
  mkState (world s) (Work s) (Errors s) (chans s) st (mainpc s) (threads s) (halt s).
Definition set_mainpc pc s :=
  mkState (world s) (Work s) (Errors s) (chans s) (store s) pc (threads s) (halt s).
Definition set_threads ts s :=
  mkState (world s) (Work s) (Errors s) (chans s) (store s) (mainpc s) ts (halt s).
Definition set_halt h s :=
  mkState (world s) (Work s) (Errors s) (chans s) (store s) (mainpc s) (threads s) h.
Definition log (e : Event) s := set_world (emit e (world s)) s.

(** A receive resumes the sender it took the value from. *)
Definition resumed (th : Thread) : Thread :=
  match tpc th with
  | TDoParked c => {| tpc := TDoRecv c; prog := prog th |}
  | TErrParked => {| tpc := TReady; prog := prog th |}
  | _ => th
  end.
Definition resume (t : nat) (s : State) : State :=
  match threads s !! t with
  | Some th => set_threads (<[t := resumed th]> (threads s)) s
  | None => s
  end.

(** The result of toolkit callbacks run on the main thread. *)
Definition lift (o : Outcome unit) (pc : MainPc) (s : State) : option State :=
  match o with
  | Ret _ w => Some (set_mainpc pc (set_world w s))
  | Exited c w => Some (set_halt (Some (HExit c)) (set_world w s))
  | Panicked w => Some (set_halt (Some HPanic) (set_world w s))
  | Waiting _ => None
  end.

(** ** Do (lines 134-141)

    [Do] runs on the calling goroutine up to the send on [app.Work] and
    again from the receive on [done]; the wrapper it sends runs on the
    main thread.  [f] is code of the caller; it is taken to act on the
    store and on nothing else of this state (the comment on NonFatal
    rules out calling that from anywhere but [main]). *)

(** Lines 135-136, on goroutine [t]: [done := make(chan bool, 1)], then
    the send of the wrapper, which parks [t] on [app.Work]. *)
Definition Do_send (t : nat) (f : Store -> Store) (rest : list Stmt)
    (s : State) : State :=
  let c := length (chans s) in
  log (EvWorkSend t c f)
    (set_threads (<[t := {| tpc := TDoParked c; prog := rest |}]> (threads s))
       (set_Work (Work s ++ [(t, wrapper f c)])
          (set_chans (chans s ++ [[]]) s))).

(** Line 137, on the main thread: the wrapper calls [f]. *)
Definition Do_wrapper_f (w : Closure) (s : State) : State :=
  log (EvRunF MainThread (done w) (body w))
    (set_store (body w (store s)) (set_mainpc (PWrapDone (done w)) s)).

(** Line 138, on the main thread: [done <- true]; it would wait if the
    buffer of [done] were full. *)
Definition Do_wrapper_done (c : nat) (s : State) : option State :=
  match chans s !! c with
  | Some buf =>
      if Nat.ltb (length buf) 1
      then Some (log (EvSignal c)
                   (set_chans (<[c := buf ++ [true]]> (chans s))
                      (set_mainpc PShowing s)))
      else None
  | None => None
  end.

(** Line 140, on goroutine [t]: [<-done], after which [Do] returns;
    [None] while the buffer is empty. *)
Definition Do_receive (t c : nat) (th : Thread) (s : State) : option State :=
  match chans s !! c with
  | Some (_ :: buf) =>
      Some (log (EvDoReturn t c)
              (set_threads (<[t := {| tpc := TReady; prog := prog th |}]> (threads s))
                 (set_chans (<[c := buf]> (chans s)) s)))
  | _ => None
  end.

(** ** The loop of main (lines 83-106) *)

(** One atomic step of the main thread; [None] when it cannot move.
    [batch] is what the toolkit handles in the call of line 84; when
    that call returns is the toolkit's matter. *)
Definition main_step (batch : list UiEvent) (s : State) : option State :=
  match halt s with
  | Some _ => None
  | None =>
    match mainpc s with
    | PLoop =>
        if Running (world s)
        then Some (log (EvLoopTest true) (set_mainpc PIter s))
        else Some (set_halt (Some (HExit 0))
                     (log (EvLoopTest false) (set_mainpc PExit s)))
    | PIter =>
        lift (MainIteration batch (emit (EvIteration batch) (world s))) PWork s
    | PWork =>
        match Work s with
        | (t, w) :: q =>
            Some (log (EvWorkRecv (done w))
                    (resume t (set_Work q (set_mainpc (PWrapF w) s))))
        | [] => Some (log EvWorkNone (set_mainpc PShowing s))
        end
    | PWrapF w => Some (Do_wrapper_f w s)
    | PWrapDone c => Do_wrapper_done c s
    | PShowing =>
        if ShowingError (world s)
        then Some (log (EvShowingTest true) (set_mainpc PLoop s))
        else Some (log (EvShowingTest false) (set_mainpc PErrors s))
    | PErrors =>
        match Errors s with
        | (t, e) :: q =>
            Some (log (EvErrRecv e)
                    (resume t (set_Errors q (set_mainpc (PSetShowing e) s))))
        | [] => Some (log EvErrNone (set_mainpc PLoop s))
        end
    | PSetShowing e =>
        Some (set_mainpc (PNonFatal e)
                (set_world (emit (EvShowing true)
                              (set_ShowingError true (world s))) s))
    | PNonFatal e => lift (NonFatal e (world s)) PDisable s
    | PDisable => Some (log EvDisable (set_mainpc PLoop s))
    | PExit => None
    end
  end.

(** One atomic step of goroutine [t]; [None] when it is parked, waits on
    an empty [done], or has finished. *)
Definition bg_step (t : nat) (s : State) : option State :=
  match halt s with
  | Some _ => None
  | None =>
    match threads s !! t with
    | None => None
    | Some th =>
      match tpc th, prog th with
      | TReady, SDo f :: rest => Some (Do_send t f rest s)
      | TReady, SSendErr e :: rest =>
          Some (log (EvErrSend t e)
                  (set_threads
                     (<[t := {| tpc := TErrParked; prog := rest |}]> (threads s))
                     (set_Errors (Errors s ++ [(t, e)]) s)))
      | TReady, SCall name upd :: rest =>
          Some (log (EvCall (Goroutine t) name)
                  (set_threads
                     (<[t := {| tpc := TReady; prog := rest |}]> (threads s))
                     (set_world (set_Mopidy (upd (Mopidy (world s))) (world s))
                        s)))
      | TReady, [] => None
      | TDoRecv c, _ => Do_receive t c th s
      | TDoParked _, _ => None
      | TErrParked, _ => None
      end
    end
  end.

(** The goroutine of lines 73-80; [init_err] is what [InitMopidy]
    returns, [init] and [start] what the two methods do to the record. *)
Definition goroutine (init_err : option error)
    (init start : option MopidyProc -> option MopidyProc) : list Stmt :=
  SCall "InitMopidy" init ::
  match init_err with
  | Some err => [SSendErr err]
  | None => []
  end ++
  [SCall "StartMopidy" start].

(** The state when the loop of line 83 is first reached, after a
    start-up that got there: no dialog, nothing parked, the goroutines
    at the start of their programs. *)
Definition loop_world : World :=
  mkWorld None false true false true 0 [] 0 (EmptyString, EmptyString) [].
Definition init (progs : list (list Stmt)) (st : Store) : State :=
  mkState loop_world [] [] [] st PLoop
          (map (fun p => {| tpc := TReady; prog := p |}) progs) None.

Inductive step : State -> State -> Prop :=
| step_main batch s s' : main_step batch s = Some s' -> step s s'
| step_bg t s s' : bg_step t s = Some s' -> step s s'.

Inductive reachable (s0 : State) : State -> Prop :=
| reach_init : reachable s0 s0
| reach_step s s' : reachable s0 s -> step s s' -> reachable s0 s'.

(** Running a schedule: [inl batch] lets the main thread step with that
    batch of toolkit events at hand, [inr t] lets goroutine [t] step. *)
Fixpoint run (sched : list (list UiEvent + nat)) (s : State) : option State :=
  match sched with
  | [] => Some s
  | inl batch :: rest =>
      match main_step batch s with Some s' => run rest s' | None => None end
  | inr t :: rest =>
      match bg_step t s with Some s' => run rest s' | None => None end
  end.

(** ** SetStatus called from several goroutines *)

(** What a goroutine asks of the status: a call of SetStatus, or a look
    at the stored status and the display while holding the lock. *)
Inductive Request :=
| SetTo (status : MopidyStatus)
| Observe.

(** Where a caller is. *)
Inductive StatusPc :=
| QIdle                            (* outside; the lock not held *)
| QLocked (status : MopidyStatus)  (* line 145 done; line 148 next *)
| QWritten (status : MopidyStatus) (* line 148 done; the switch next *)
| QWatching                        (* a reader that has taken the lock *)
| QSwitched.                       (* only the Unlock left *)

Record Caller := { cpc : StatusPc; todo : list Request }.

Record StatusState := mkStatus {
  sworld : World;
  callers : list Caller;
  crashed : bool                  (* a caller panicked *)
}.

(** A reader's look: the stored status and the display, as they are. *)
Definition observe : M unit :=
  fun w => match Mopidy w with
           | Some m =>
               Ret tt (emit (EvObserved (Status m) (fst (label w)) (snd (label w))) w)
           | None => Ret tt w
           end.

Definition move (t : nat) (c : Caller) (o : Outcome unit) (s : StatusState)
  : option StatusState :=
  match o with
  | Ret _ w => Some (mkStatus w (<[t := c]> (callers s)) false)
  | Panicked w => Some (mkStatus (final (status_unlock w)) (callers s) true)
  | _ => None
  end.

(** One statement by caller [t]; [None] when it waits for the lock or
    has nothing left to do. *)
Definition status_step (t : nat) (s : StatusState) : option StatusState :=
  if crashed s then None else
  match callers s !! t with
  | None => None
  | Some c =>
    match cpc c, todo c with
    | QIdle, r :: rest =>
        move t {| cpc := match r with
                         | SetTo status => QLocked status
                         | Observe => QWatching
                         end;
                  todo := rest |}
             (status_lock (sworld s)) s
    | QIdle, [] => None
    | QLocked status, _ =>
        move t {| cpc := QWritten status; todo := todo c |}
             (write_status status (sworld s)) s
    | QWritten status, _ =>
        move t {| cpc := QSwitched; todo := todo c |}
             (status_switch status (sworld s)) s
    | QWatching, _ =>
        move t {| cpc := QSwitched; todo := todo c |} (observe (sworld s)) s
    | QSwitched, _ =>
        move t {| cpc := QIdle; todo := todo c |} (status_unlock (sworld s)) s
    end
  end.

Definition status_init (w : World) (todos : list (list Request))
  : StatusState :=
  mkStatus w (map (fun l => {| cpc := QIdle; todo := l |}) todos) false.

Inductive status_reachable (s0 : StatusState) : StatusState -> Prop :=
| sreach_init : status_reachable s0 s0
| sreach_step t s s' :
    status_reachable s0 s -> status_step t s = Some s' ->
    status_reachable s0 s'.

Fixpoint status_run (sched : list nat) (s : StatusState) : option StatusState :=
  match sched with
  | [] => Some s
  | t :: rest =>
      match status_step t s with
      | Some s' => status_run rest s'
      | None => None
      end
  end.

(** ** Predicates used in the statements *)

(** The three start-up failures of lines 44-63, each with the message
    its dialog carries. *)
Inductive StartupFailure (env : Env) : error -> Prop :=
| NoExecutable e :
    LookPath env = Err e -> StartupFailure env "Mopidy is not installed."
| NoUser p e :
    LookPath env = Ok p -> Current env = Err e -> StartupFailure env e
| NoConfig p h e :
    LookPath env = Ok p -> Current env = Ok h ->
    Load env (userConfigPath h) = Err e -> StartupFailure env e.

(** Effects that belong to the error channel and to NonFatal. *)
Definition error_path (e : Event) : bool :=
  match e with
  | EvErrSend _ _ | EvErrRecv _ | EvDialogShow _ _ OnNonFatal
  | EvShowing _ | EvDisable => true
  | _ => false
  end.

(** The events of one call of [Do], identified by its [done] channel. *)
Definition about (c : nat) (e : Event) : bool :=
  match e with
  | EvWorkSend _ c' _ | EvWorkRecv c' | EvRunF _ c' _ | EvSignal c'
  | EvDoReturn _ c' => Nat.eqb c' c
  | _ => false
  end.
Definition proj (c : nat) (tr : list Event) : list Event :=
  List.filter (about c) tr.

(** What a call [Do(f)] by goroutine [t] with channel [c] consists of. *)
Definition canon (t c : nat) (f : Store -> Store) : list Event :=
  [EvWorkSend t c f; EvWorkRecv c; EvRunF MainThread c f; EvSignal c;
   EvDoReturn t c].

Definition pc_of (s : State) (t : nat) : option BgPc :=
  option_map tpc (threads s !! t).

(** The call the main thread is inside, if any, and how far it got. *)
Definition main_call (pc : MainPc) : option nat :=
  match pc with
  | PWrapF w => Some (done w)
  | PWrapDone c => Some c
  | _ => None
  end.
Definition main_phase (pc : MainPc) (c : nat) : nat :=
  match pc with
  | PWrapF w => if Nat.eqb (done w) c then 1 else 0
  | PWrapDone c' => if Nat.eqb c' c then 2 else 0
  | _ => 0
  end.

(** The invariant behind [Do]: where each call stands, read off the
    goroutines, the two wait queues, the [done] buffers and the main
    thread, agrees with the events recorded for it. *)
Record DoInv (s : State) : Prop := {
  inv_parked : forall t c, pc_of s t = Some (TDoParked c) ->
    exists f,
      chans s !! c = Some [] /\
      proj c (trace (world s)) = take 1 (canon t c f) /\
      In (t, wrapper f c) (Work s);
  inv_recv : forall t c, pc_of s t = Some (TDoRecv c) ->
    exists f,
      match main_phase (mainpc s) c with
      | 1 => chans s !! c = Some [] /\
             proj c (trace (world s)) = take 2 (canon t c f) /\
             mainpc s = PWrapF (wrapper f c)
      | 2 => chans s !! c = Some [] /\
             proj c (trace (world s)) = take 3 (canon t c f)
      | _ => chans s !! c = Some [true] /\
             proj c (trace (world s)) = take 4 (canon t c f)
      end;
  inv_work : forall t w, In (t, w) (Work s) ->
    pc_of s t = Some (TDoParked (done w));
  inv_work_nodup : NoDup (map fst (Work s));
  inv_errors : forall t e, In (t, e) (Errors s) -> pc_of s t = Some TErrParked;
  inv_errors_nodup : NoDup (map fst (Errors s));
  inv_main : forall c, main_call (mainpc s) = Some c ->
    exists t, pc_of s t = Some (TDoRecv c);
  inv_done : forall c, c < length (chans s) ->
    (exists t, pc_of s t = Some (TDoParked c) \/ pc_of s t = Some (TDoRecv c)) \/
    (exists t f, proj c (trace (world s)) = canon t c f /\
                 chans s !! c = Some []);
  inv_fresh : forall c, length (chans s) <= c -> proj c (trace (world s)) = []
}.

(** The functions the main thread has run, oldest first, and their
    combined effect on the store. *)
Definition ran (tr : list Event) : list (Store -> Store) :=
  flat_map (fun e => match e with EvRunF _ _ f => [f] | _ => [] end) tr.
Definition apply_all (fs : list (Store -> Store)) (st : Store) : Store :=
  fold_left (fun st f => f st) fs st.

(** Errors in the order their senders parked on [app.Errors], errors in
    the order NonFatal put them on screen, and the dismissals. *)
Definition arrivals (tr : list Event) : list error :=
  flat_map (fun e => match e with EvErrSend _ x => [x] | _ => [] end) tr.
Definition displayed (tr : list Event) : list error :=
  flat_map (fun e => match e with
                     | EvDialogShow _ x OnNonFatal => [x]
                     | _ => []
                     end) tr.
Definition dismissals (tr : list Event) : list nat :=
  flat_map (fun e => match e with EvDialogDestroy d => [d] | _ => [] end) tr.

(** The error the main thread has taken off the channel and not yet put
    on screen. *)
Definition in_flight (pc : MainPc) : list error :=
  match pc with
  | PSetShowing e | PNonFatal e => [e]
  | _ => []
  end.


(** What holds of the dialogs whatever the toolkit's callbacks do. *)
Definition dialogs_ok (w : World) : Prop :=
  (dialogs w = [] \/
   exists d e, dialogs w = [Build_Dialog d e OnNonFatal] /\
               ShowingError w = true) /\
  length (displayed (trace w)) =
    length (dismissals (trace w)) + length (dialogs w).

(** The invariant behind the error dialogs. *)
Record ErrInv (s : State) : Prop := {
  err_dialogs : dialogs_ok (world s);
  err_guard : forall e, mainpc s = PErrors \/ mainpc s = PSetShowing e ->
    ShowingError (world s) = false;
  err_before_show : forall e, mainpc s = PNonFatal e ->
    dialogs (world s) = [] /\ ShowingError (world s) = true;
  err_fifo :
    arrivals (trace (world s)) =
      displayed (trace (world s)) ++ in_flight (mainpc s) ++
      map snd (Errors s)
}.

(** The events of the loop of lines 83-106 itself, as opposed to those
    of the toolkit's callbacks and of the goroutines. *)
Definition loop_event (e : Event) : bool :=
  match e with
  | EvLoopTest _ | EvIteration _ | EvWorkNone | EvWorkRecv _ | EvRunF _ _ _
  | EvSignal _ | EvShowingTest _ | EvErrNone | EvErrRecv _ | EvShowing true
  | EvDialogShow _ _ OnNonFatal | EvDisable => true
  | _ => false
  end.
Definition loop_trace (tr : list Event) : list Event :=
  List.filter loop_event tr.

(** Lines 87-92: no work item, or one, run on the spot by the main
    thread and signalled. *)
Inductive work_part : list Event -> Prop :=
| work_none : work_part [EvWorkNone]
| work_one c f : work_part [EvWorkRecv c; EvRunF MainThread c f; EvSignal c].

(** Lines 96-105: skipped while an error is showing; otherwise no error,
    or one: [ShowingError] set, NonFatal, Disable. *)
Inductive error_part : list Event -> Prop :=
| error_skipped : error_part [EvShowingTest true]
| error_none : error_part [EvShowingTest false; EvErrNone]
| error_one e d :
    error_part [EvShowingTest false; EvErrRecv e; EvShowing true;
                EvDialogShow d e OnNonFatal; EvDisable].

(** One pass through the loop body, entered with [Running] true. *)
Inductive iteration : list Event -> Prop :=
| iteration_intro batch wp ep :
    work_part wp -> error_part ep ->
    iteration (EvLoopTest true :: EvIteration batch :: wp ++ ep).

Inductive iterations : list Event -> Prop :=
| iterations_nil : iterations []
| iterations_snoc l it : iterations l -> iteration it -> iterations (l ++ it).

(** How far the pass in progress has got, by the place of the main
    thread. *)
Inductive upto : option Halt -> MainPc -> list Event -> Prop :=
| at_loop : upto None PLoop []
| at_exit : upto (Some (HExit 0)) PExit [EvLoopTest false]
| at_iter : upto None PIter [EvLoopTest true]
| at_iter_halted h b : upto (Some h) PIter [EvLoopTest true; EvIteration b]
| at_work b : upto None PWork [EvLoopTest true; EvIteration b]
| at_wrap_f b w :
    upto None (PWrapF w)
         [EvLoopTest true; EvIteration b; EvWorkRecv (done w)]
| at_wrap_done b c f :
    upto None (PWrapDone c)
         [EvLoopTest true; EvIteration b; EvWorkRecv c; EvRunF MainThread c f]
| at_showing b wp :
    work_part wp ->
    upto None PShowing (EvLoopTest true :: EvIteration b :: wp)
| at_errors b wp :
    work_part wp ->
    upto None PErrors
         (EvLoopTest true :: EvIteration b :: wp ++ [EvShowingTest false])
| at_set_showing b wp e :
    work_part wp ->
    upto None (PSetShowing e)
         (EvLoopTest true :: EvIteration b :: wp ++
          [EvShowingTest false; EvErrRecv e])
| at_nonfatal b wp e :
    work_part wp ->
    upto None (PNonFatal e)
         (EvLoopTest true :: EvIteration b :: wp ++
          [EvShowingTest false; EvErrRecv e; EvShowing true])
| at_disable b wp e d :
    work_part wp ->
    upto None PDisable
         (EvLoopTest true :: EvIteration b :: wp ++
          [EvShowingTest false; EvErrRecv e; EvShowing true;
           EvDialogShow d e OnNonFatal]).

Definition shaped (s : State) : Prop :=
  exists past cur,
    loop_trace (trace (world s)) = past ++ cur /\
    iterations past /\ upto (halt s) (mainpc s) cur.

(** How many steps of the main thread are left, at most, until the
    loop test of line 83. *)
Definition rank (pc : MainPc) : nat :=
  match pc with
  | PExit => 0
  | PDisable => 1
  | PNonFatal _ => 2
  | PSetShowing _ => 3
  | PErrors => 4
  | PShowing => 5
  | PWrapDone _ => 6
  | PWrapF _ => 7
  | PWork => 8
  | PIter => 9
  | PLoop => 10
  end.




(** The icon and text that go with a status, for the statuses the
    switch of lines 149-156 has a case for. *)
Definition presentation (status : MopidyStatus) : option (string * string) :=
  match status with
  | MopidyConnecting => Some (EmptyString, "Connecting...")
  | MopidyConnected => Some (STOCK_CONNECT, "Connected to Mopidy.")
  | MopidyFailed => Some (EmptyString, "Not connected.")
  | MopidyNotStarted => None
  end.

(** The display shows what goes with the stored status. *)
Definition paired (w : World) : Prop :=
  forall m l, Mopidy w = Some m -> presentation (Status m) = Some l ->
              label w = l.

Definition idle (c : Caller) : Prop := cpc c = QIdle.

(** What a reader saw goes together. *)
Definition observed_ok (e : Event) : Prop :=
  match e with
  | EvObserved status icon text =>
      forall l, presentation status = Some l -> (icon, text) = l
  | _ => True
  end.

(** The invariant of the lock: free, everybody outside and the display
    paired; or held by exactly one caller, who is between the statements
    of SetStatus or looking. *)
Definition StatusInv (s : StatusState) : Prop :=
  Forall observed_ok (trace (sworld s)) /\
  (crashed s = true \/
   (StatusLock (sworld s) = false /\ Forall idle (callers s) /\
    paired (sworld s)) \/
   (StatusLock (sworld s) = true /\
    exists t c,
      callers s !! t = Some c /\
      (forall t' c', t' <> t -> callers s !! t' = Some c' -> idle c') /\
      match cpc c with
      | QIdle => False
      | QWritten status =>
          exists m, Mopidy (sworld s) = Some m /\ Status m = status
      | _ => paired (sworld s)
      end)).

(** ** Dialogs and toolkit events *)

(** Identities handed out so far are below [next_dialog]. *)
Definition wf_world (w : World) : Prop :=
  Forall (fun x => did x < next_dialog w) (dialogs w).

(** A Fatal dialog is on screen under identity [d]. *)
Definition fatal_at (d : nat) (w : World) : Prop :=
  exists dlg, find_dialog d (dialogs w) = Some dlg /\ handler dlg = OnFatal.

(** Events whose callback is [QuitCallback]. *)
Definition quits (e : UiEvent) : Prop :=
  match e with
  | Signal widget signal _ => callback_of widget signal = Some QuitCallback
  | Respond _ => False
  end.

(** The dismissal of dialog [d]. *)
Definition is_response (d : nat) (e : UiEvent) : bool :=
  match e with Respond d' => Nat.eqb d' d | _ => false end.

(** The world right after Fatal or NonFatal has put its dialog up. *)
Definition shown (err : error) (h : Handler) (w : World) : World :=
  emit (EvDialogShow (next_dialog w) err h)
    (set_dialogs (dialogs w ++ [Build_Dialog (next_dialog w) err h])
       (S (next_dialog w)) w).

(** Events of the toolkit's callbacks: none belongs to a call of [Do]. *)
Definition toolkit_event (e : Event) : bool :=
  match e with
  | EvDialogDestroy _ | EvMainQuit | EvExit _ | EvKill _ | EvRunning _
  | EvShowing false => true
  | _ => false
  end.

(** The store is what the functions run so far make of the first one. *)
Definition store_ok (st : Store) (s : State) : Prop :=
  store s = apply_all (ran (trace (world s))) st.

(** ** Start-up that reaches the loop *)

(** The calls of lines 44-71, in order. *)
Definition startup_calls : list Event :=
  [EvCall MainThread "exec.LookPath"; EvCall MainThread "user.Current";
   EvCall MainThread "config.Load"; EvCall MainThread "gui.Init";
   EvCall MainThread "MainWindow.ShowAll"].

(** All four answers of start-up are good; [p] is the path of the
    executable. *)
Inductive StartupOk (env : Env) (p : string) : Prop :=
| startup_ok h :
    LookPath env = Ok p -> Current env = Ok h ->
    Load env (userConfigPath h) = Ok tt -> Init env = Ok tt ->
    StartupOk env p.

(** The world in which start-up calls Fatal after [n] of its calls. *)
Definition failed_after (n : nat) (msg : error) : World :=
  emit EvGtkMain
    (set_level 1
       (shown msg OnFatal
          (mkWorld None false true false false 0 [] 0
                   (EmptyString, EmptyString) (take n startup_calls)))).

(** The pairs of widget and signal that [Callbacks] registers. *)
Definition registered : list (string * string * Callback) :=
  [("main-window", "destroy", QuitCallback);
   ("menu-quit", "activate", QuitCallback);
   ("menu-server-output", "activate", OutputWindowCallback);
   ("menu-server-start", "activate", StartMopidyCallback);
   ("menu-server-stop", "activate", StopMopidyCallback);
   ("menu-server-restart", "activate", RestartMopidyCallback);
   ("menu-sources", "activate", SourcesCallback);
   ("output-window", "delete-event", OutputWindowDeleteCallback)].

(** ** The order in which work is served *)

(** The wrappers in the order their senders parked on [app.Work], and
    in the order the main thread ran them. *)
Definition sent (tr : list Event) : list Closure :=
  flat_map (fun e => match e with
                     | EvWorkSend _ c f => [wrapper f c]
                     | _ => []
                     end) tr.
Definition served (tr : list Event) : list Closure :=
  flat_map (fun e => match e with
                     | EvRunF _ c f => [wrapper f c]
                     | _ => []
                     end) tr.

(** The wrapper the main thread has received and not yet run. *)
Definition in_hand (pc : MainPc) : list Closure :=
  match pc with
  | PWrapF w => [w]
  | _ => []
  end.

(** The invariant of the work queue. *)
Definition WorkInv (s : State) : Prop :=
  sent (trace (world s)) =
    served (trace (world s)) ++ in_hand (mainpc s) ++ map snd (Work s) /\
  map done (sent (trace (world s))) = seq 0 (length (chans s)).

(** ** Progress of the loop *)

(** What a step of the main thread leaves alone when it only moves on. *)
Definition same_dialogs (s s' : State) : Prop :=
  ShowingError (world s') = ShowingError (world s) /\
  dialogs (world s') = dialogs (world s) /\
  next_dialog (world s') = next_dialog (world s).
Definition unchanged (s s' : State) : Prop :=
  Work s' = Work s /\ Errors s' = Errors s /\ threads s' = threads s /\
  same_dialogs s s'.

(** How many steps of the main thread are left, at most, until the
    select on [app.Work] (line 87), and until the test of line 96. *)
Definition to_work (pc : MainPc) : nat :=
  match pc with
  | PWork => 0
  | PIter => 1
  | PLoop => 2
  | PDisable => 3
  | PNonFatal _ => 4
  | PSetShowing _ => 5
  | PErrors => 6
  | PShowing => 7
  | PWrapDone _ => 8
  | PWrapF _ => 9
  | PExit => 10
  end.

(** ** How the loop ends *)


(** ** The start-up goroutine and the error it reports *)

(** The call of line 79 by goroutine [t]. *)
Definition start_call (t : nat) : Event := EvCall (Goroutine t) "StartMopidy".

(** Where the goroutine of lines 73-80 stands when [InitMopidy] failed
    with [err]: before the send of line 76, parked in it, or past it,
    the main thread having taken the error. *)
Inductive Reported (t : nat) (err : error)
    (sm : option MopidyProc -> option MopidyProc) (s : State) : Prop :=
| rep_before th :
    threads s !! t = Some th -> tpc th = TReady ->
    (exists i, prog th = goroutine (Some err) i sm) \/
    prog th = [SSendErr err; SCall "StartMopidy" sm] ->
    ~ In (start_call t) (trace (world s)) ->
    Reported t err sm s
| rep_parked th :
    threads s !! t = Some th -> tpc th = TErrParked ->
    In (t, err) (Errors s) ->
    ~ In (start_call t) (trace (world s)) ->
    Reported t err sm s
| rep_taken l1 l2 :
    trace (world s) = l1 ++ EvErrRecv err :: l2 ->
    ~ In (start_call t) l1 ->
    Reported t err sm s.

(** * Properties *)

(** ** Dialogs *)

Lemma find_dialog_app_fresh d ds dlg :
  Forall (fun x => did x < d) ds -> did dlg = d ->
  find_dialog d (ds ++ [dlg]) = Some dlg.
Proof.
  intros Hlt Hd. unfold find_dialog.
  induction ds as [|x ds IH]; simpl.
  - rewrite Hd, Nat.eqb_refl. reflexivity.
  - inversion Hlt as [|? ? Hx Hrest]; subst.
    destruct (Nat.eqb_spec (did x) (did dlg)) as [E|_]; [lia|].
    apply IH; assumption.
Qed.

Lemma find_dialog_id d ds dlg : find_dialog d ds = Some dlg -> did dlg = d.
Proof.
  unfold find_dialog. intros H. apply find_some in H as [_ H].
  apply Nat.eqb_eq in H. exact H.
Qed.

Lemma find_dialog_remove_ne d d' ds :
  d <> d' -> find_dialog d (remove_dialog d' ds) = find_dialog d ds.
Proof.
  intros Hne. unfold find_dialog, remove_dialog.
  induction ds as [|x ds IH]; simpl; [reflexivity|].
  destruct (Nat.eqb_spec (did x) d') as [E|E]; simpl.
  - destruct (Nat.eqb_spec (did x) d) as [E'|_]; [congruence|apply IH].
  - destruct (Nat.eqb (did x) d); [reflexivity|apply IH].
Qed.

(** The dismissal closure of Fatal: leaves the process with status 1. *)
Lemma respond_fatal dlg w :
  handler dlg = OnFatal ->
  respond dlg w = Exited 1 (emit (EvExit 1) (emit EvMainQuit w)).
Proof. intros H. unfold respond. rewrite H. reflexivity. Qed.

Lemma dispatch_fatal d dlg w :
  find_dialog d (dialogs w) = Some dlg -> handler dlg = OnFatal ->
  dispatch (Respond d) w = Exited 1 (emit (EvExit 1) (emit EvMainQuit w)).
Proof. intros Hf Hh. simpl. rewrite Hf. apply respond_fatal, Hh. Qed.

Lemma Quit_dialogs w w' : Quit w = Ret tt w' -> dialogs w' = dialogs w.
Proof.
  unfold Quit. destruct (Mopidy w) as [m|]; [|discriminate].
  destruct (Cmd m) as [c|]; [|discriminate].
  intros H. injection H as <-. destruct (Process c); reflexivity.
Qed.

Lemma dispatch_keeps_fatal e d w w' :
  dispatch e w = Ret tt w' -> fatal_at d w -> fatal_at d w'.
Proof.
  intros Hd (dlg & Hf & Hh). destruct e as [d'|widget signal upd]; simpl in Hd.
  - destruct (find_dialog d' (dialogs w)) as [dlg'|] eqn:Hf'.
    + unfold respond in Hd. destruct (handler dlg') eqn:Hh'; [discriminate|].
      injection Hd as <-. exists dlg. split; [|exact Hh]. simpl.
      rewrite find_dialog_remove_ne; [exact Hf|].
      intros ->. apply find_dialog_id in Hf' as Hid. rewrite Hid in Hf.
      congruence.
    + injection Hd as <-. exists dlg. auto.
  - destruct (connected w); [|injection Hd as <-; exists dlg; auto].
    destruct (callback_of widget signal) as [[]|];
      try (injection Hd as <-; exists dlg; auto).
    apply Quit_dialogs in Hd. exists dlg. rewrite Hd. auto.
Qed.

Lemma dispatch_cases e w :
  (exists w', dispatch e w = Ret tt w') \/
  (exists w', dispatch e w = Exited 1 w') \/
  (exists w', dispatch e w = Panicked w' /\ quits e).
Proof.
  destruct e as [d|widget signal upd]; simpl.
  - destruct (find_dialog d (dialogs w)) as [dlg|]; [|eauto].
    unfold respond.
    destruct (handler dlg); [right; left|left]; eexists; reflexivity.
  - destruct (connected w); [|eauto].
    destruct (callback_of widget signal) as [[]|]; eauto.
    unfold Quit.
    destruct (Mopidy w) as [m|]; [|right; right; eauto].
    destruct (Cmd m) as [c|]; [|right; right; eauto]. eauto.
Qed.

(** Inside [gtk.Main]: with the Fatal dialog [d] on screen, an event
    sequence that contains its dismissal ends the process. *)
Lemma main_events_dismissed d evs : forall w,
  fatal_at d w -> In (Respond d) evs ->
  (exists w', main_events evs w = Exited 1 w') \/
  (exists w', main_events evs w = Panicked w' /\ Exists quits evs).
Proof.
  induction evs as [|e evs IH]; intros w Hfat Hin; [destruct Hin|].
  simpl. unfold bind.
  destruct Hin as [->|Hin].
  - destruct Hfat as (dlg & Hf & Hh).
    rewrite (dispatch_fatal _ _ _ Hf Hh). eauto.
  - destruct (dispatch_cases e w) as [(w' & Hd)|[(w' & Hd)|(w' & Hd & Hq)]];
      rewrite Hd; [|eauto|right; eexists; split; [reflexivity|left; exact Hq]].
    destruct (IH w' (dispatch_keeps_fatal _ _ _ _ Hd Hfat) Hin)
      as [(w'' & H)|(w'' & H & Hq)]; [eauto|].
    right. exists w''. split; [exact H|right; exact Hq].
Qed.

(** Inside [gtk.Main], whatever the events: the loop does not return, and
    while it waits the Fatal dialog is still on screen. *)
Lemma main_events_never_returns d evs : forall w,
  fatal_at d w ->
  match main_events evs w with
  | Ret _ _ => False
  | Waiting w' => fatal_at d w'
  | Exited c _ => c = 1%Z
  | Panicked _ => Exists quits evs
  end.
Proof.
  induction evs as [|e evs IH]; intros w Hfat; [exact Hfat|].
  simpl. unfold bind.
  destruct (dispatch_cases e w) as [(w' & Hd)|[(w' & Hd)|(w' & Hd & Hq)]];
    rewrite Hd; [|reflexivity|left; exact Hq].
  specialize (IH w' (dispatch_keeps_fatal _ _ _ _ Hd Hfat)).
  destruct (main_events evs w'); simpl; auto.
Qed.

Lemma shown_fatal_at err w :
  wf_world w -> fatal_at (next_dialog w) (shown err OnFatal w).
Proof.
  intros Hwf. eexists. split.
  - simpl. apply find_dialog_app_fresh; [exact Hwf|reflexivity].
  - reflexivity.
Qed.

(** What one toolkit event records. *)
Lemma dispatch_trace e w :
  exists tl, trace (final (dispatch e w)) = trace w ++ tl /\
             Forall (fun x => toolkit_event x = true) tl.
Proof.
  assert (Hnil : exists tl, trace w = trace w ++ tl /\
                   Forall (fun x => toolkit_event x = true) tl).
  { exists []. rewrite app_nil_r. auto. }
  destruct e as [d|widget signal upd]; simpl.
  - destruct (find_dialog d (dialogs w)) as [dlg|]; [|exact Hnil].
    unfold respond. destruct (handler dlg); simpl; rewrite <- !app_assoc;
      eexists; (split; [reflexivity|repeat constructor]).
  - destruct (connected w); [|exact Hnil].
    destruct (callback_of widget signal) as [[]|]; try exact Hnil.
    unfold Quit. destruct (Mopidy w) as [m|]; [|exact Hnil].
    destruct (Cmd m) as [c|]; [|exact Hnil].
    destruct (Process c); simpl; rewrite <- ?app_assoc;
      eexists; (split; [reflexivity|repeat constructor]).
Qed.

Lemma main_events_trace evs : forall w,
  exists tl, trace (final (main_events evs w)) = trace w ++ tl.
Proof.
  induction evs as [|e evs IH]; intros w; simpl.
  - exists []. rewrite app_nil_r. reflexivity.
  - unfold bind. destruct (dispatch_trace e w) as (tl1 & He & _).
    destruct (dispatch e w) as [[] w'|c w'|w'|w'] eqn:Hd; simpl in *;
      try (exists tl1; exact He).
    destruct (IH w') as [tl2 H2]. exists (tl1 ++ tl2).
    rewrite H2, He, app_assoc. reflexivity.
Qed.

(** With only the Fatal dialog [dlg] on screen and no callback connected
    yet, [gtk.Main] waits for the dismissal and nothing else matters. *)
Lemma main_events_single dlg evs w :
  dialogs w = [dlg] -> handler dlg = OnFatal -> connected w = false ->
  main_events evs w =
    if existsb (is_response (did dlg)) evs
    then Exited 1 (emit (EvExit 1) (emit EvMainQuit w))
    else Waiting w.
Proof.
  intros Hd Hh Hc. induction evs as [|e evs IH]; [reflexivity|].
  simpl. unfold bind. destruct e as [d|widget signal upd]; simpl.
  - rewrite Hd. unfold find_dialog. simpl. rewrite (Nat.eqb_sym d).
    destruct (Nat.eqb (did dlg) d); simpl;
      [rewrite (respond_fatal _ _ Hh); reflexivity|exact IH].
  - rewrite Hc. exact IH.
Qed.

Lemma existsb_is_response d evs :
  existsb (is_response d) evs = true <-> In (Respond d) evs.
Proof.
  rewrite existsb_exists. split.
  - intros (e & Hin & He). destruct e as [d'|widget signal upd];
      [|discriminate].
    apply Nat.eqb_eq in He. subst. exact Hin.
  - intros Hin. exists (Respond d). split; [exact Hin|]. simpl.
    apply Nat.eqb_refl.
Qed.

Lemma resume_fields t s :
  world (resume t s) = world s /\ Work (resume t s) = Work s /\
  Errors (resume t s) = Errors s /\ chans (resume t s) = chans s /\
  store (resume t s) = store s /\ mainpc (resume t s) = mainpc s /\
  halt (resume t s) = halt s.
Proof. unfold resume. destruct (threads s !! t); repeat split; reflexivity. Qed.

Lemma lift_fields o pc s s' :
  lift o pc s = Some s' ->
  world s' = final o /\ Work s' = Work s /\ Errors s' = Errors s /\
  chans s' = chans s /\ store s' = store s /\ threads s' = threads s /\
  ((mainpc s' = pc /\ halt s' = halt s /\ exists w, o = Ret tt w) \/
   (mainpc s' = mainpc s /\ halt s' <> None)).
Proof.
  destruct o as [[] w|c w|w|w]; simpl; intros [= <-]; simpl.
  - repeat (split; [reflexivity|]). left. eauto.
  - repeat (split; [reflexivity|]). right. split; [reflexivity|discriminate].
  - repeat (split; [reflexivity|]). right. split; [reflexivity|discriminate].
Qed.

(** The loop of [main] never calls [gtk.Main], so the main level stays 0
    while it runs, and the dialog identities stay fresh. *)
Lemma wf_world_shown err h w : wf_world w -> wf_world (shown err h w).
Proof.
  unfold wf_world. simpl. intros H. apply Forall_app. split.
  - eapply Forall_impl; [exact H|]. simpl. intros x Hx. lia.
  - repeat constructor.
Qed.

Lemma dispatch_level_wf e w :
  level w = 0 /\ wf_world w ->
  level (final (dispatch e w)) = 0 /\ wf_world (final (dispatch e w)).
Proof.
  intros [Hl Hwf]. destruct e as [d|widget signal upd]; simpl.
  - destruct (find_dialog d (dialogs w)) as [dlg|]; [|auto].
    unfold respond. destruct (handler dlg); simpl; [auto|].
    split; [exact Hl|]. unfold wf_world, remove_dialog. simpl.
    apply Forall_forall. intros x Hx. apply list_elem_of_In, filter_In in Hx.
    destruct Hx as [Hx _]. unfold wf_world in Hwf.
    rewrite Forall_forall in Hwf. apply Hwf, list_elem_of_In, Hx.
  - destruct (connected w); [|auto].
    destruct (callback_of widget signal) as [[]|]; auto.
    unfold Quit. destruct (Mopidy w) as [m|]; [|auto].
    destruct (Cmd m) as [c|]; [|auto]. destruct (Process c); auto.
Qed.

Lemma MainIteration_level_wf batch : forall w,
  level w = 0 /\ wf_world w ->
  level (final (MainIteration batch w)) = 0 /\
  wf_world (final (MainIteration batch w)).
Proof.
  induction batch as [|e batch IH]; intros w H; simpl; [exact H|].
  unfold bind. pose proof (dispatch_level_wf e w H) as He.
  destruct (dispatch e w) as [[] w'|c w'|w'|w']; simpl in *; auto.
Qed.

Lemma step_level_wf s s' :
  step s s' ->
  level (world s) = 0 /\ wf_world (world s) ->
  level (world s') = 0 /\ wf_world (world s').
Proof.
  intros [batch s0 s1 Hstep|t s0 s1 Hstep] H.
  - unfold main_step, Do_wrapper_f, Do_wrapper_done in Hstep.
    destruct (halt s0); [discriminate|].
    destruct (mainpc s0) as [| | |w|c| | |e|e| |].
    + destruct (Running (world s0)); injection Hstep as <-; exact H.
    + destruct (lift_fields _ _ _ _ Hstep) as (Hw & _). rewrite Hw.
      apply MainIteration_level_wf. exact H.
    + destruct (Work s0) as [|[t w] q]; injection Hstep as <-; [exact H|].
      destruct (resume_fields t (set_Work q (set_mainpc (PWrapF w) s0)))
        as (Rw & _).
      simpl. rewrite Rw. exact H.
    + injection Hstep as <-. exact H.
    + destruct (chans s0 !! c) as [buf|]; [|discriminate].
      destruct (Nat.ltb (length buf) 1); [|discriminate].
      injection Hstep as <-. exact H.
    + destruct (ShowingError (world s0)); injection Hstep as <-; exact H.
    + destruct (Errors s0) as [|[t e] q]; injection Hstep as <-; [exact H|].
      destruct (resume_fields t (set_Errors q (set_mainpc (PSetShowing e) s0)))
        as (Rw & _).
      simpl. rewrite Rw. exact H.
    + injection Hstep as <-. exact H.
    + simpl in Hstep. injection Hstep as <-. destruct H as [Hl Hwf].
      split; [exact Hl|]. apply (wf_world_shown e OnNonFatal), Hwf.
    + injection Hstep as <-. exact H.
    + discriminate.
  - unfold bg_step, Do_send, Do_receive in Hstep.
    destruct (halt s0); [discriminate|].
    destruct (threads s0 !! t) as [th|]; [|discriminate].
    destruct (tpc th) as [|c|c|]; try discriminate.
    + destruct (prog th) as [|[f|e|name upd] rest]; [discriminate|..];
        injection Hstep as <-; exact H.
    + destruct (chans s0 !! c) as [[|b buf]|]; try discriminate.
      injection Hstep as <-. exact H.
Qed.

Lemma loop_level_wf progs st s :
  reachable (init progs st) s -> level (world s) = 0 /\ wf_world (world s).
Proof.
  induction 1 as [|s s' _ IH Hstep].
  - split; [reflexivity|constructor].
  - apply (step_level_wf _ _ Hstep IH).
Qed.

(** ** Fatal *)

(** C4. For every error, Fatal puts up a dialog whose dismissal leaves
    the process with status 1 in whatever state it is delivered; when no
    toolkit loop is active (main level 0) Fatal runs [gtk.Main] itself,
    does not return, and keeps the dialog on screen until it is
    dismissed; when a loop is active Fatal returns and leaves the dialog
    to it.  Nothing in this depends on where [main] is: the main level
    is 0 before the loop of [main] and in every state it reaches, since
    that loop only calls [gtk.MainIteration]. *)
Theorem Fatal_terminates (err : error) (evs : list UiEvent) (w : World) :
  wf_world w ->
  let d := next_dialog w in
  let w1 := shown err OnFatal w in
  find_dialog d (dialogs w1) = Some (Build_Dialog d err OnFatal) /\
  (exists tl, trace (final (Fatal err evs w)) =
              trace w ++ EvDialogShow d err OnFatal :: tl) /\
  (forall w', find_dialog d (dialogs w') = Some (Build_Dialog d err OnFatal) ->
     dispatch (Respond d) w' = Exited 1 (emit (EvExit 1) (emit EvMainQuit w'))) /\
  (level w = 0 ->
     Fatal err evs w = gtk_Main evs w1 /\
     match Fatal err evs w with
     | Ret _ _ => False
     | Waiting w' => fatal_at d w'
     | Exited c _ => c = 1%Z
     | Panicked _ => Exists quits evs
     end /\
     (In (Respond d) evs -> ~ Exists quits evs ->
      exists w', Fatal err evs w = Exited 1 w')) /\
  (level w <> 0 -> Fatal err evs w = Ret tt w1) /\
  (forall progs st s, reachable (init progs st) s ->
     level (world s) = 0 /\ wf_world (world s)).
Proof.
  intros Hwf d w1.
  assert (Hfind : find_dialog d (dialogs w1) = Some (Build_Dialog d err OnFatal)).
  { simpl. apply find_dialog_app_fresh; [exact Hwf|reflexivity]. }
  assert (Hfat : forall w2, fatal_at d (emit EvGtkMain (set_level w2 w1))).
  { intros w2. eexists. split; [exact Hfind|reflexivity]. }
  assert (Hcase : Fatal err evs w =
            if Nat.eqb (level w) 0 then gtk_Main evs w1 else Ret tt w1).
  { reflexivity. }
  split; [exact Hfind|]. split; [|split; [|split; [|split]]];
    [| | | |apply loop_level_wf].
  - rewrite Hcase. destruct (Nat.eqb (level w) 0).
    + unfold gtk_Main, bind, act.
      destruct (main_events_trace evs (emit EvGtkMain (set_level (S (level w1)) w1)))
        as [tl Htl].
      rewrite Htl. simpl. rewrite <- !app_assoc. eexists. reflexivity.
    + simpl. eexists. reflexivity.
  - intros w' Hf. apply (dispatch_fatal _ _ _ Hf). reflexivity.
  - intros Hl. rewrite Hcase, Hl. simpl. split; [reflexivity|].
    unfold gtk_Main, bind, act. split.
    + apply main_events_never_returns, Hfat.
    + intros Hin Hnq.
      destruct (main_events_dismissed d evs _ (Hfat (S (level w1))) Hin)
        as [H|(w' & _ & Hq)]; [exact H|contradiction].
  - intros Hl. rewrite Hcase. destruct (Nat.eqb_spec (level w) 0); [lia|reflexivity].
Qed.

Lemma Fatal_terminates_witness :
  wf_world new_world /\
  Fatal "x" [Signal "menu-sources" "activate" id; Respond 0] new_world =
    gtk_Main [Signal "menu-sources" "activate" id; Respond 0] (shown "x" OnFatal new_world).
Proof.
  split; [constructor|].
  apply (Fatal_terminates "x" [Signal "menu-sources" "activate" id; Respond 0] new_world);
    [constructor|reflexivity].
Defined.

(** ** Quit *)

(** C9. Quit reads [app.Mopidy.Cmd.Process] before it tests anything: it
    returns exactly when [app.Mopidy] and its [Cmd] are both non-nil, and
    panics, having done nothing, otherwise; so it panics on the
    application as [main] creates it. *)
Theorem Quit_needs_record (w : World) :
  ((exists w', Quit w = Ret tt w') <->
   (exists m c, Mopidy w = Some m /\ Cmd m = Some c)) /\
  ((Mopidy w = None \/ exists m, Mopidy w = Some m /\ Cmd m = None) <->
   Quit w = Panicked w) /\
  Quit new_world = Panicked new_world /\
  Quit loop_world = Panicked loop_world.
Proof.
  unfold Quit. split; [|split; [|split; reflexivity]].
  - destruct (Mopidy w) as [m|].
    + destruct (Cmd m) as [c|] eqn:Hc.
      * split; [intros _; eauto|intros _; eauto].
      * split; [intros [w' H]; discriminate|intros (m' & c' & Hm & Hc'); congruence].
    + split; [intros [w' H]; discriminate|intros (m' & c' & Hm & _); discriminate].
  - destruct (Mopidy w) as [m|].
    + destruct (Cmd m) as [c|] eqn:Hc.
      * split; [intros [H|(m' & Hm & Hc')]; congruence|discriminate].
      * split; [reflexivity|intros _; right; eauto].
    + split; [reflexivity|intros _; left; reflexivity].
Qed.

(** ** Start-up *)

(** The outcome of a start-up that meets one of the three failures, in
    closed form: the process sits in the [gtk.Main] of Fatal with the
    failure's dialog until that dialog is dismissed, then exits with 1. *)
Lemma startup_failure_outcome env msg evs :
  StartupFailure env msg ->
  exists pre,
    let w := emit EvGtkMain (set_level 1
               (shown msg OnFatal
                  (mkWorld None false true false false 0 [] 0
                           (EmptyString, EmptyString) pre))) in
    Forall (fun e => exists n, e = EvCall MainThread n) pre /\
    startup env evs new_world =
      if existsb (is_response 0) evs
      then Exited 1 (emit (EvExit 1) (emit EvMainQuit w))
      else Waiting w.
Proof.
  intros [e He|p e Hp He|p h e Hp Hh He].
  - exists [EvCall MainThread "exec.LookPath"]. split.
    { repeat constructor. eexists; reflexivity. }
    unfold startup, bind, act, Fatal, show_dialog, gtk_Main, bind, act.
    rewrite He. simpl.
    rewrite (main_events_single (Build_Dialog 0 "Mopidy is not installed." OnFatal) evs)
      by reflexivity.
    simpl. destruct (existsb (is_response 0) evs); reflexivity.
  - exists [EvCall MainThread "exec.LookPath"; EvCall MainThread "user.Current"].
    split. { repeat constructor; eexists; reflexivity. }
    unfold startup, bind, act, Fatal, show_dialog, gtk_Main, bind, act, ret.
    rewrite Hp, He. simpl.
    rewrite (main_events_single (Build_Dialog 0 e OnFatal) evs) by reflexivity.
    simpl. destruct (existsb (is_response 0) evs); reflexivity.
  - exists [EvCall MainThread "exec.LookPath"; EvCall MainThread "user.Current";
            EvCall MainThread "config.Load"].
    split. { repeat constructor; eexists; reflexivity. }
    unfold startup, bind, act, Fatal, show_dialog, gtk_Main, bind, act, ret.
    rewrite Hp, Hh. simpl. rewrite He. simpl.
    rewrite (main_events_single (Build_Dialog 0 e OnFatal) evs) by reflexivity.
    simpl. destruct (existsb (is_response 0) evs); reflexivity.
Qed.

(** C7. Each start-up failure (executable not found, user lookup failed,
    configuration not loaded) goes straight to Fatal: the Fatal dialog
    with the failure's message is shown and [gtk.Main] entered, the
    process exits with status 1 when the dialog is dismissed and waits
    in that loop until then, start-up never returns to the loop of
    [main], and nothing happens on the error channel or in NonFatal. *)
Theorem startup_failure_is_fatal (env : Env) (msg : error) (evs : list UiEvent) :
  StartupFailure env msg ->
  let o := startup env evs new_world in
  (exists pre tl,
     trace (final o) = pre ++ EvDialogShow 0 msg OnFatal :: EvGtkMain :: tl /\
     Forall (fun e => exists n, e = EvCall MainThread n) pre) /\
  (In (Respond 0) evs -> exists w, o = Exited 1 w) /\
  (~ In (Respond 0) evs -> exists w, o = Waiting w) /\
  (forall p w, o <> Ret p w) /\
  Forall (fun e => error_path e = false) (trace (final o)).
Proof.
  intros Hf o. destruct (startup_failure_outcome env msg evs Hf) as (pre & Hpre & Ho).
  fold o in Ho. cbv zeta in Ho.
  assert (Hpath : Forall (fun e => error_path e = false) pre).
  { eapply Forall_impl; [exact Hpre|]. intros e [n ->]. reflexivity. }
  destruct (existsb (is_response 0) evs) eqn:Hex.
  - rewrite Ho. simpl. split; [|split; [|split; [|split]]].
    + exists pre. eexists. split; [|exact Hpre].
      rewrite <- !app_assoc. reflexivity.
    + eauto.
    + intros Hn. apply existsb_is_response in Hex. contradiction.
    + discriminate.
    + rewrite !Forall_app. repeat split; try exact Hpath; repeat constructor.
  - rewrite Ho. simpl. split; [|split; [|split; [|split]]].
    + exists pre, []. split; [|exact Hpre].
      rewrite <- !app_assoc. reflexivity.
    + intros Hin. apply existsb_is_response in Hin. congruence.
    + eauto.
    + discriminate.
    + rewrite !Forall_app. repeat split; try exact Hpath; repeat constructor.
Qed.

Lemma startup_failure_is_fatal_witness :
  (exists w,
     startup {| LookPath := Err "not found"; Current := Ok "/home/u";
                Load := fun _ => Ok tt; Init := Ok tt |}
             [Signal "menu-sources" "activate" id; Respond 0] new_world
       = Exited 1 w) /\
  (exists w,
     startup {| LookPath := Ok "/usr/bin/mopidy"; Current := Ok "/home/u/";
                Load := fun p =>
                  if String.eqb p "/home/u/.config/wetsuit/mopidy.conf"
                  then Err "unreadable" else Ok tt;
                Init := Ok tt |}
             [Respond 0] new_world = Exited 1 w /\
     In (EvDialogShow 0 "unreadable" OnFatal) (trace w)).
Proof.
  split.
  - apply (startup_failure_is_fatal
             {| LookPath := Err "not found"; Current := Ok "/home/u";
                Load := fun _ => Ok tt; Init := Ok tt |}
             "Mopidy is not installed."
             [Signal "menu-sources" "activate" id; Respond 0]).
    + apply (NoExecutable _ "not found"). reflexivity.
    + right. left. reflexivity.
  - destruct (startup_failure_is_fatal
                {| LookPath := Ok "/usr/bin/mopidy"; Current := Ok "/home/u/";
                   Load := fun p =>
                     if String.eqb p "/home/u/.config/wetsuit/mopidy.conf"
                     then Err "unreadable" else Ok tt;
                   Init := Ok tt |}
                "unreadable" [Respond 0])
      as ((pre & tl & Htr & _) & Hex & _).
    + apply (NoConfig _ "/usr/bin/mopidy" "/home/u/" "unreadable");
        reflexivity.
    + destruct Hex as [w Hw]; [left; reflexivity|].
      exists w. split; [exact Hw|].
      rewrite Hw in Htr. simpl in Htr. rewrite Htr.
      apply in_or_app. right. left. reflexivity.
Defined.

(** ** The threaded system: bookkeeping *)

Lemma proj_snoc c tr e :
  proj c (tr ++ [e]) = proj c tr ++ (if about c e then [e] else []).
Proof.
  unfold proj. rewrite List.filter_app. simpl.
  destruct (about c e); reflexivity.
Qed.

Lemma proj_app c tr tl : proj c (tr ++ tl) = proj c tr ++ proj c tl.
Proof. apply List.filter_app. Qed.

Lemma pc_of_insert_eq s t th ts :
  t < length ts -> pc_of (set_threads (<[t := th]> ts) s) t = Some (tpc th).
Proof.
  intros Hlt. unfold pc_of. simpl. rewrite list_lookup_insert_eq by exact Hlt.
  reflexivity.
Qed.

Lemma pc_of_insert_ne s t t' th ts :
  t <> t' -> pc_of (set_threads (<[t := th]> ts) s) t' = option_map tpc (ts !! t').
Proof.
  intros Hne. unfold pc_of. simpl. rewrite list_lookup_insert_ne by exact Hne.
  reflexivity.
Qed.

Lemma pc_of_Some s t pc :
  pc_of s t = Some pc -> exists th, threads s !! t = Some th /\ tpc th = pc.
Proof.
  unfold pc_of. destruct (threads s !! t) as [th|]; [|discriminate].
  simpl. intros [= <-]. eauto.
Qed.

Lemma MainIteration_trace batch : forall w,
  exists tl, trace (final (MainIteration batch w)) = trace w ++ tl /\
             Forall (fun x => toolkit_event x = true) tl.
Proof.
  induction batch as [|e batch IH]; intros w; simpl.
  - exists []. rewrite app_nil_r. auto.
  - unfold bind. destruct (dispatch_trace e w) as (tl1 & H1 & F1).
    destruct (dispatch e w) as [[] w'|c w'|w'|w'] eqn:Hd; simpl in *;
      try (exists tl1; split; [exact H1|exact F1]).
    destruct (IH w') as (tl2 & H2 & F2). exists (tl1 ++ tl2).
    rewrite H2, H1, app_assoc. split; [reflexivity|].
    apply Forall_app; auto.
Qed.

Lemma proj_toolkit c tl :
  Forall (fun x => toolkit_event x = true) tl -> proj c tl = [].
Proof.
  induction 1 as [|e tl He _ IH]; [reflexivity|].
  unfold proj in *. simpl. rewrite IH.
  destruct e; try discriminate; reflexivity.
Qed.

Lemma pc_of_resume_eq s t th :
  threads s !! t = Some th -> pc_of (resume t s) t = Some (tpc (resumed th)).
Proof.
  intros H. unfold resume. rewrite H. apply pc_of_insert_eq.
  apply lookup_lt_Some in H. exact H.
Qed.

Lemma pc_of_resume_ne s t t' : t <> t' -> pc_of (resume t s) t' = pc_of s t'.
Proof.
  intros Hne. unfold resume. destruct (threads s !! t) as [th|]; [|reflexivity].
  apply pc_of_insert_ne. exact Hne.
Qed.

Lemma canon_take_send t t' c f f' k k' :
  take (S k) (canon t c f) = take (S k') (canon t' c f') -> t = t' /\ f = f'.
Proof.
  intros H. apply (f_equal head) in H. simpl in H. injection H. auto.
Qed.

Lemma nodup_fst_functional {A} (l : list (nat * A)) t a b :
  NoDup (map fst l) -> In (t, a) l -> In (t, b) l -> a = b.
Proof.
  induction l as [|[t0 x] l IH]; simpl; [intros _ []|].
  intros Hnd Ha Hb. apply NoDup_cons in Hnd as [Hnotin Hnd].
  assert (Hno : forall y, In (t0, y) l -> False).
  { intros y Hy. apply Hnotin, list_elem_of_In, in_map_iff.
    exists (t0, y). auto. }
  destruct Ha as [Ha|Ha], Hb as [Hb|Hb].
  - congruence.
  - injection Ha as -> ->. destruct (Hno _ Hb).
  - injection Hb as -> ->. destruct (Hno _ Ha).
  - apply IH; assumption.
Qed.

(** A step that leaves the goroutines' places in [Do], the work queue,
    the [done] buffers and the main thread alone, and records nothing
    about a call, keeps the invariant. *)
Lemma DoInv_frame s s' :
  (forall t c, pc_of s' t = Some (TDoParked c) <-> pc_of s t = Some (TDoParked c)) ->
  (forall t c, pc_of s' t = Some (TDoRecv c) <-> pc_of s t = Some (TDoRecv c)) ->
  Work s' = Work s -> chans s' = chans s ->
  (forall c, main_phase (mainpc s') c = main_phase (mainpc s) c) ->
  (forall c, main_phase (mainpc s) c = 1 -> mainpc s' = mainpc s) ->
  main_call (mainpc s') = main_call (mainpc s) ->
  (forall c, proj c (trace (world s')) = proj c (trace (world s))) ->
  (forall t e, In (t, e) (Errors s') -> pc_of s' t = Some TErrParked) ->
  NoDup (map fst (Errors s')) ->
  DoInv s -> DoInv s'.
Proof.
  intros Hp Hr HW Hc Hph Hpc Hmc Htr He Hnd [I1 I2 I3 I4 I5 I6 I7 I8 I9].
  constructor.
  - intros t c H. apply Hp in H. rewrite Hc, Htr, HW. apply I1, H.
  - intros t c H. apply Hr in H. rewrite Hph, Hc, Htr.
    destruct (I2 t c H) as [f Hf]. exists f.
    destruct (main_phase (mainpc s) c) as [|[|[|n]]] eqn:E; try exact Hf.
    rewrite (Hpc c E). exact Hf.
  - intros t w H. rewrite HW in H. apply Hp, I3, H.
  - rewrite HW. exact I4.
  - exact He.
  - exact Hnd.
  - intros c H. rewrite Hmc in H. destruct (I7 c H) as [t Ht].
    exists t. apply Hr, Ht.
  - intros c H. rewrite Hc in H. rewrite Hc, Htr.
    destruct (I8 c H) as [[t [Ht|Ht]]|Hd]; [left; exists t..|right; exact Hd].
    + left. apply Hp, Ht.
    + right. apply Hr, Ht.
  - intros c H. rewrite Hc in H. rewrite Htr. apply I9, H.
Qed.

Lemma DoInv_init progs st : DoInv (init progs st).
Proof.
  assert (Hready : forall t pc, pc_of (init progs st) t = Some pc -> pc = TReady).
  { intros t pc H. apply pc_of_Some in H as (th & Hth & Hpc). simpl in Hth.
    rewrite list_lookup_fmap in Hth.
    destruct (progs !! t); simpl in Hth; [|discriminate].
    injection Hth as <-. symmetry. exact Hpc. }
  constructor.
  - intros t c H. apply Hready in H. discriminate.
  - intros t c H. apply Hready in H. discriminate.
  - intros t w [].
  - constructor.
  - intros t e [].
  - constructor.
  - intros c H. discriminate.
  - intros c H. simpl in H. lia.
  - reflexivity.
Qed.

Ltac frame_tac s Hpc Hinv :=
  apply (DoInv_frame s);
  [ intros; reflexivity | intros; reflexivity | reflexivity | reflexivity
  | intros; simpl; rewrite Hpc; reflexivity
  | intros ?; simpl; rewrite Hpc; discriminate
  | simpl; rewrite Hpc; reflexivity
  | intros; simpl; rewrite ?proj_snoc; simpl; rewrite ?app_nil_r; reflexivity
  | simpl; apply (inv_errors _ Hinv)
  | simpl; apply (inv_errors_nodup _ Hinv)
  | exact Hinv ].

Lemma DoInv_lift o pc s s' :
  lift o pc s = Some s' ->
  main_call (mainpc s) = None -> main_call pc = None ->
  (forall c, main_phase (mainpc s) c = 0) -> (forall c, main_phase pc c = 0) ->
  (forall c, proj c (trace (final o)) = proj c (trace (world s))) ->
  DoInv s -> DoInv s'.
Proof.
  intros Hl Hc1 Hc2 Hp1 Hp2 Htr Hinv.
  destruct (lift_fields _ _ _ _ Hl) as (Hw & HW & HE & HC & _ & HT & Hpc).
  apply (DoInv_frame s).
  - intros t c. unfold pc_of. rewrite HT. reflexivity.
  - intros t c. unfold pc_of. rewrite HT. reflexivity.
  - exact HW.
  - exact HC.
  - intros c. destruct Hpc as [(-> & _)|(-> & _)]; rewrite ?Hp1, ?Hp2; reflexivity.
  - intros c. rewrite Hp1. discriminate.
  - destruct Hpc as [(-> & _)|(-> & _)]; congruence.
  - intros c. rewrite Hw. apply Htr.
  - intros t e. rewrite HE. unfold pc_of. rewrite HT. apply (inv_errors _ Hinv).
  - rewrite HE. apply (inv_errors_nodup _ Hinv).
  - exact Hinv.
Qed.

Lemma about_ne c c' e : about c e = true -> c' <> c -> about c' e = false.
Proof.
  destruct e; simpl; try discriminate; intros H Hne;
    apply Nat.eqb_eq in H; subst; apply Nat.eqb_neq; congruence.
Qed.

Lemma proj_ne c c' tr e :
  about c e = true -> c' <> c -> proj c' (tr ++ [e]) = proj c' tr.
Proof. intros H Hne. rewrite proj_snoc, (about_ne _ _ _ H Hne). apply app_nil_r. Qed.

(** Line 88: the main thread takes the oldest wrapper off [app.Work]. *)
Lemma DoInv_work_recv s s' t w q :
  DoInv s -> mainpc s = PWork -> Work s = (t, w) :: q ->
  pc_of s' t = Some (TDoRecv (done w)) ->
  (forall t', t' <> t -> pc_of s' t' = pc_of s t') ->
  trace (world s') = trace (world s) ++ [EvWorkRecv (done w)] ->
  Work s' = q -> Errors s' = Errors s -> chans s' = chans s ->
  mainpc s' = PWrapF w ->
  DoInv s'.
Proof.
  intros Hinv Hpc HW Ht Hne Htr HW' HE' HC' HM'.
  pose proof (inv_work _ Hinv t w) as Hpt. rewrite HW in Hpt.
  specialize (Hpt (or_introl eq_refl)).
  destruct (inv_parked _ Hinv _ _ Hpt) as (f & Hch & Hproj & Hin0).
  pose proof (inv_work_nodup _ Hinv) as Hnd.
  assert (Hw : w = wrapper f (done w)).
  { apply (nodup_fst_functional (Work s) t); [exact Hnd| |exact Hin0].
    rewrite HW. left. reflexivity. }
  rewrite HW in Hnd. simpl in Hnd. apply NoDup_cons in Hnd as [Hnotin Hnd].
  assert (Hother : forall c', c' <> done w ->
            proj c' (trace (world s')) = proj c' (trace (world s))).
  { intros c' Hc'. rewrite Htr. apply (proj_ne (done w)); [|exact Hc'].
    simpl. apply Nat.eqb_refl. }
  assert (Hself : proj (done w) (trace (world s')) = take 2 (canon t (done w) f)).
  { rewrite Htr, proj_snoc, Hproj. simpl. rewrite Nat.eqb_refl. reflexivity. }
  constructor.
  - intros t' c' H.
    destruct (decide (t' = t)) as [->|Hn]; [rewrite Ht in H; discriminate|].
    rewrite Hne in H by exact Hn.
    destruct (inv_parked _ Hinv _ _ H) as (f' & Hch' & Hproj' & Hin).
    assert (c' <> done w).
    { intros ->. rewrite Hproj in Hproj'.
      apply (canon_take_send _ _ _ _ _ 0 0) in Hproj' as [? _]. congruence. }
    exists f'. rewrite HC', Hother, HW' by assumption. split; [exact Hch'|].
    split; [exact Hproj'|].
    rewrite HW in Hin. destruct Hin as [Heq|Hin]; [congruence|exact Hin].
  - intros t' c' H. rewrite HM', HC'. simpl.
    destruct (decide (t' = t)) as [->|Hn].
    + rewrite Ht in H. injection H as <-. exists f. rewrite Nat.eqb_refl.
      split; [exact Hch|]. split; [exact Hself|]. rewrite <- Hw. reflexivity.
    + rewrite Hne in H by exact Hn.
      destruct (inv_recv _ Hinv _ _ H) as (f' & Hr).
      rewrite Hpc in Hr. simpl in Hr. destruct Hr as [Hb Hp].
      destruct (Nat.eqb_spec (done w) c') as [E|E]; [subst c'; congruence|].
      exists f'. rewrite Hother by congruence. auto.
  - intros t' w' Hin. rewrite HW' in Hin.
    assert (t' <> t).
    { intros ->. apply Hnotin, list_elem_of_In, in_map_iff.
      exists (t, w'). auto. }
    rewrite Hne by assumption. apply (inv_work _ Hinv). rewrite HW.
    right. exact Hin.
  - rewrite HW'. exact Hnd.
  - intros t' e Hin. rewrite HE' in Hin.
    pose proof (inv_errors _ Hinv _ _ Hin) as H.
    destruct (decide (t' = t)) as [->|Hn]; [congruence|].
    rewrite Hne by exact Hn. exact H.
  - rewrite HE'. apply (inv_errors_nodup _ Hinv).
  - intros c' H. rewrite HM' in H. injection H as <-. exists t. exact Ht.
  - intros c' H. rewrite HC' in H. rewrite HC'.
    destruct (inv_done _ Hinv c' H) as [[t' Hm]|(t' & f' & Hp & Hb)].
    + left. exists t'. destruct (decide (t' = t)) as [->|Hn].
      * rewrite Hpt in Hm.
        destruct Hm as [Hm|Hm]; [injection Hm as <-|discriminate].
        right. exact Ht.
      * rewrite Hne by exact Hn. exact Hm.
    + right. exists t', f'.
      assert (c' <> done w). { intros ->. rewrite Hproj in Hp. discriminate. }
      rewrite Hother by assumption. auto.
  - intros c' H. rewrite HC' in H.
    assert (c' <> done w). { intros ->. apply lookup_lt_Some in Hch. lia. }
    rewrite Hother by assumption. apply (inv_fresh _ Hinv), H.
Qed.

Lemma main_call_phase pc c :
  main_call pc = Some c -> main_phase pc c = 1 \/ main_phase pc c = 2.
Proof.
  destruct pc; simpl; try discriminate; intros [= ->];
    rewrite Nat.eqb_refl; auto.
Qed.

(** Line 137: the wrapper runs [f]. *)
Lemma DoInv_wrap_f s s' w :
  DoInv s -> mainpc s = PWrapF w ->
  (forall t, pc_of s' t = pc_of s t) ->
  trace (world s') = trace (world s) ++ [EvRunF MainThread (done w) (body w)] ->
  Work s' = Work s -> Errors s' = Errors s -> chans s' = chans s ->
  mainpc s' = PWrapDone (done w) ->
  DoInv s'.
Proof.
  intros Hinv Hpc Hsame Htr HW' HE' HC' HM'.
  destruct (inv_main _ Hinv (done w)) as [t Ht]; [rewrite Hpc; reflexivity|].
  destruct (inv_recv _ Hinv _ _ Ht) as (f & Hr). rewrite Hpc in Hr. simpl in Hr.
  rewrite Nat.eqb_refl in Hr. destruct Hr as (Hch & Hproj & Hw).
  injection Hw as Hw.
  assert (Hother : forall c', c' <> done w ->
            proj c' (trace (world s')) = proj c' (trace (world s))).
  { intros c' Hc'. rewrite Htr. apply (proj_ne (done w)); [|exact Hc'].
    simpl. apply Nat.eqb_refl. }
  constructor.
  - intros t' c' H. rewrite Hsame in H.
    destruct (inv_parked _ Hinv _ _ H) as (f' & Hch' & Hproj' & Hin).
    assert (c' <> done w). { intros ->. rewrite Hproj in Hproj'. discriminate. }
    exists f'. rewrite HC', Hother, HW' by assumption. auto.
  - intros t' c' H. rewrite Hsame in H. rewrite HM', HC'. simpl.
    destruct (inv_recv _ Hinv _ _ H) as (f' & Hr). rewrite Hpc in Hr.
    simpl in Hr. exists f'.
    destruct (Nat.eqb_spec (done w) c') as [E|E].
    + subst c'. destruct Hr as (Hb & Hp & Hw'). split; [exact Hb|].
      injection Hw' as Hw'. apply (f_equal body) in Hw'. simpl in Hw'.
      rewrite Htr, proj_snoc, Hp. simpl. rewrite Nat.eqb_refl, Hw'.
      reflexivity.
    + rewrite Hother by congruence. exact Hr.
  - intros t' w' Hin. rewrite HW' in Hin. rewrite Hsame.
    apply (inv_work _ Hinv), Hin.
  - rewrite HW'. apply (inv_work_nodup _ Hinv).
  - intros t' e Hin. rewrite HE' in Hin. rewrite Hsame.
    apply (inv_errors _ Hinv _ _ Hin).
  - rewrite HE'. apply (inv_errors_nodup _ Hinv).
  - intros c' H. rewrite HM' in H. injection H as <-. exists t.
    rewrite Hsame. exact Ht.
  - intros c' H. rewrite HC' in H. rewrite HC'.
    destruct (inv_done _ Hinv c' H) as [[t' Hm]|(t' & f' & Hp & Hb)].
    + left. exists t'. rewrite Hsame. exact Hm.
    + right. exists t', f'.
      assert (c' <> done w). { intros ->. rewrite Hproj in Hp. discriminate. }
      rewrite Hother by assumption. auto.
  - intros c' H. rewrite HC' in H.
    assert (c' <> done w). { intros ->. apply lookup_lt_Some in Hch. lia. }
    rewrite Hother by assumption. apply (inv_fresh _ Hinv), H.
Qed.

(** Line 138: the wrapper signals [done]. *)
Lemma DoInv_wrap_done s s' c buf :
  DoInv s -> mainpc s = PWrapDone c -> chans s !! c = Some buf ->
  (forall t, pc_of s' t = pc_of s t) ->
  trace (world s') = trace (world s) ++ [EvSignal c] ->
  Work s' = Work s -> Errors s' = Errors s ->
  chans s' = <[c := buf ++ [true]]> (chans s) ->
  mainpc s' = PShowing ->
  DoInv s'.
Proof.
  intros Hinv Hpc Hbuf Hsame Htr HW' HE' HC' HM'.
  destruct (inv_main _ Hinv c) as [t Ht]; [rewrite Hpc; reflexivity|].
  destruct (inv_recv _ Hinv _ _ Ht) as (f & Hr). rewrite Hpc in Hr. simpl in Hr.
  rewrite Nat.eqb_refl in Hr. destruct Hr as [Hch Hproj].
  assert (buf = []) by congruence. subst buf. simpl in HC'.
  assert (Hlt : c < length (chans s)) by (apply lookup_lt_Some in Hch; exact Hch).
  assert (Hother : forall c', c' <> c ->
            proj c' (trace (world s')) = proj c' (trace (world s))).
  { intros c' Hc'. rewrite Htr. apply (proj_ne c); [|exact Hc'].
    simpl. apply Nat.eqb_refl. }
  assert (Hlook : forall c', c' <> c -> chans s' !! c' = chans s !! c').
  { intros c' Hc'. rewrite HC'. apply list_lookup_insert_ne. congruence. }
  constructor.
  - intros t' c' H. rewrite Hsame in H.
    destruct (inv_parked _ Hinv _ _ H) as (f' & Hch' & Hproj' & Hin).
    assert (c' <> c). { intros ->. rewrite Hproj in Hproj'. discriminate. }
    exists f'. rewrite Hlook, Hother, HW' by assumption. auto.
  - intros t' c' H. rewrite Hsame in H. rewrite HM'. simpl.
    destruct (inv_recv _ Hinv _ _ H) as (f' & Hr). rewrite Hpc in Hr.
    simpl in Hr. exists f'.
    destruct (Nat.eqb_spec c c') as [E|E].
    + subst c'. destruct Hr as [Hb Hp]. split.
      * rewrite HC'. apply list_lookup_insert_eq, Hlt.
      * rewrite Htr, proj_snoc, Hp. simpl. rewrite Nat.eqb_refl. reflexivity.
    + rewrite Hlook, Hother by congruence. exact Hr.
  - intros t' w' Hin. rewrite HW' in Hin. rewrite Hsame.
    apply (inv_work _ Hinv), Hin.
  - rewrite HW'. apply (inv_work_nodup _ Hinv).
  - intros t' e Hin. rewrite HE' in Hin. rewrite Hsame.
    apply (inv_errors _ Hinv _ _ Hin).
  - rewrite HE'. apply (inv_errors_nodup _ Hinv).
  - intros c' H. rewrite HM' in H. discriminate.
  - intros c' H. rewrite HC', length_insert in H.
    destruct (inv_done _ Hinv c' H) as [[t' Hm]|(t' & f' & Hp & Hb)].
    + left. exists t'. rewrite Hsame. exact Hm.
    + right. exists t', f'.
      assert (c' <> c). { intros ->. rewrite Hproj in Hp. discriminate. }
      rewrite Hlook, Hother by assumption. auto.
  - intros c' H. rewrite HC', length_insert in H.
    assert (c' <> c) by lia.
    rewrite Hother by assumption. apply (inv_fresh _ Hinv), H.
Qed.

(** Line 140: the caller of [Do] takes the value off [done]. *)
Lemma DoInv_return s s' t c b buf :
  DoInv s -> pc_of s t = Some (TDoRecv c) -> chans s !! c = Some (b :: buf) ->
  pc_of s' t = Some TReady ->
  (forall t', t' <> t -> pc_of s' t' = pc_of s t') ->
  trace (world s') = trace (world s) ++ [EvDoReturn t c] ->
  Work s' = Work s -> Errors s' = Errors s ->
  chans s' = <[c := buf]> (chans s) ->
  mainpc s' = mainpc s ->
  DoInv s'.
Proof.
  intros Hinv Ht Hbuf Ht' Hne Htr HW' HE' HC' HM'.
  destruct (inv_recv _ Hinv _ _ Ht) as (f & Hr).
  assert (Hph : main_phase (mainpc s) c <> 1 /\ main_phase (mainpc s) c <> 2).
  { split; intros E; rewrite E in Hr; destruct Hr as [Hr _]; congruence. }
  assert (Hfull : chans s !! c = Some [true] /\
                  proj c (trace (world s)) = take 4 (canon t c f)).
  { destruct (main_phase (mainpc s) c) as [|[|[|n]]]; try exact Hr; lia. }
  clear Hr. destruct Hfull as [Hch Hproj].
  assert (buf = []) by congruence. subst buf.
  assert (Hlt : c < length (chans s)) by (apply lookup_lt_Some in Hch; exact Hch).
  assert (Hother : forall c', c' <> c ->
            proj c' (trace (world s')) = proj c' (trace (world s))).
  { intros c' Hc'. rewrite Htr. apply (proj_ne c); [|exact Hc'].
    simpl. apply Nat.eqb_refl. }
  assert (Hlook : forall c', c' <> c -> chans s' !! c' = chans s !! c').
  { intros c' Hc'. rewrite HC'. apply list_lookup_insert_ne. congruence. }
  assert (Huniq : forall t' c', t' <> t -> pc_of s t' = Some (TDoRecv c') -> c' <> c).
  { intros t' c' Hn H ->. destruct (inv_recv _ Hinv _ _ H) as (f' & Hr).
    destruct (main_phase (mainpc s) c) as [|[|[|n]]]; try lia;
      destruct Hr as [_ Hr]; rewrite Hproj in Hr;
      apply (canon_take_send _ _ _ _ _ 3 3) in Hr as [? _]; congruence. }
  constructor.
  - intros t' c' H.
    destruct (decide (t' = t)) as [->|Hn]; [congruence|].
    rewrite Hne in H by exact Hn.
    destruct (inv_parked _ Hinv _ _ H) as (f' & Hch' & Hproj' & Hin).
    assert (c' <> c). { intros ->. rewrite Hproj in Hproj'. discriminate. }
    exists f'. rewrite Hlook, Hother, HW' by assumption. auto.
  - intros t' c' H.
    destruct (decide (t' = t)) as [->|Hn]; [congruence|].
    rewrite Hne in H by exact Hn.
    assert (c' <> c) by (eapply Huniq; eauto).
    rewrite HM', Hlook, Hother by assumption. apply (inv_recv _ Hinv), H.
  - intros t' w' Hin. rewrite HW' in Hin.
    pose proof (inv_work _ Hinv _ _ Hin) as H.
    destruct (decide (t' = t)) as [->|Hn]; [congruence|].
    rewrite Hne by exact Hn. exact H.
  - rewrite HW'. apply (inv_work_nodup _ Hinv).
  - intros t' e Hin. rewrite HE' in Hin.
    pose proof (inv_errors _ Hinv _ _ Hin) as H.
    destruct (decide (t' = t)) as [->|Hn]; [congruence|].
    rewrite Hne by exact Hn. exact H.
  - rewrite HE'. apply (inv_errors_nodup _ Hinv).
  - intros c' H. rewrite HM' in H.
    destruct (inv_main _ Hinv c' H) as [t' Hm]. exists t'.
    destruct (decide (t' = t)) as [->|Hn]; [|rewrite Hne by exact Hn; exact Hm].
    assert (c' = c) by congruence. subst c'.
    apply main_call_phase in H. lia.
  - intros c' H. rewrite HC', length_insert in H.
    destruct (decide (c' = c)) as [->|Hc].
    + right. exists t, f. split.
      * rewrite Htr, proj_snoc, Hproj. simpl. rewrite Nat.eqb_refl. reflexivity.
      * rewrite HC'. apply list_lookup_insert_eq, Hlt.
    + destruct (inv_done _ Hinv c' H) as [[t' Hm]|(t' & f' & Hp & Hb)].
      * left. exists t'.
        destruct (decide (t' = t)) as [->|Hn];
          [destruct Hm; congruence|rewrite Hne by exact Hn; exact Hm].
      * right. exists t', f'. rewrite Hlook, Hother by assumption. auto.
  - intros c' H. rewrite HC', length_insert in H.
    assert (c' <> c) by lia.
    rewrite Hother by assumption. apply (inv_fresh _ Hinv), H.
Qed.

(** Lines 135-136: a goroutine makes [done] and parks on [app.Work]. *)
Lemma DoInv_do_send s s' t f :
  DoInv s -> pc_of s t = Some TReady ->
  let c := length (chans s) in
  pc_of s' t = Some (TDoParked c) ->
  (forall t', t' <> t -> pc_of s' t' = pc_of s t') ->
  trace (world s') = trace (world s) ++ [EvWorkSend t c f] ->
  Work s' = Work s ++ [(t, wrapper f c)] -> Errors s' = Errors s ->
  chans s' = chans s ++ [[]] ->
  mainpc s' = mainpc s ->
  DoInv s'.
Proof.
  intros Hinv Ht c Ht' Hne Htr HW' HE' HC' HM'.
  assert (Hother : forall c', c' <> c ->
            proj c' (trace (world s')) = proj c' (trace (world s))).
  { intros c' Hc'. rewrite Htr. apply (proj_ne c); [|exact Hc'].
    simpl. apply Nat.eqb_refl. }
  assert (Hlook : forall c' x, chans s !! c' = Some x ->
            chans s' !! c' = Some x /\ c' <> c).
  { intros c' x H. split.
    - rewrite HC'. apply lookup_app_l_Some, H.
    - apply lookup_lt_Some in H. unfold c. lia. }
  constructor.
  - intros t' c' H. destruct (decide (t' = t)) as [->|Hn].
    + rewrite Ht' in H. injection H as <-. exists f. split; [|split].
      * rewrite HC'. apply list_lookup_middle. reflexivity.
      * rewrite Htr, proj_snoc, (inv_fresh _ Hinv c) by (unfold c; lia).
        simpl. rewrite Nat.eqb_refl. reflexivity.
      * rewrite HW'. apply in_or_app. right. left. reflexivity.
    + rewrite Hne in H by exact Hn.
      destruct (inv_parked _ Hinv _ _ H) as (f' & Hch' & Hproj' & Hin).
      destruct (Hlook _ _ Hch') as [Hl Hc]. exists f'.
      rewrite Hother by exact Hc.
      split; [exact Hl|]. split; [exact Hproj'|].
      rewrite HW'. apply in_or_app. left. exact Hin.
  - intros t' c' H. destruct (decide (t' = t)) as [->|Hn]; [congruence|].
    rewrite Hne in H by exact Hn. rewrite HM'.
    destruct (inv_recv _ Hinv _ _ H) as (f' & Hr). exists f'.
    destruct (main_phase (mainpc s) c') as [|[|[|n]]]; destruct Hr as [Hb Hp];
      destruct (Hlook _ _ Hb) as [Hl Hc]; rewrite Hother by exact Hc; auto.
  - intros t' w' Hin. rewrite HW' in Hin. apply in_app_or in Hin as [Hin|Hin].
    + pose proof (inv_work _ Hinv _ _ Hin) as H.
      destruct (decide (t' = t)) as [->|Hn]; [congruence|].
      rewrite Hne by exact Hn. exact H.
    + destruct Hin as [[= <- <-]|[]]. exact Ht'.
  - rewrite HW', map_app. simpl. apply NoDup_app. split; [|split].
    + apply (inv_work_nodup _ Hinv).
    + intros x Hx Hx'. apply list_elem_of_In in Hx, Hx'.
      destruct Hx' as [<-|[]]. apply in_map_iff in Hx as ([t0 w0] & E & Hin).
      simpl in E. subst t0. pose proof (inv_work _ Hinv _ _ Hin). congruence.
    + apply NoDup_singleton.
  - intros t' e Hin. rewrite HE' in Hin.
    pose proof (inv_errors _ Hinv _ _ Hin) as H.
    destruct (decide (t' = t)) as [->|Hn]; [congruence|].
    rewrite Hne by exact Hn. exact H.
  - rewrite HE'. apply (inv_errors_nodup _ Hinv).
  - intros c' H. rewrite HM' in H.
    destruct (inv_main _ Hinv c' H) as [t' Hm]. exists t'.
    destruct (decide (t' = t)) as [->|Hn]; [congruence|].
    rewrite Hne by exact Hn. exact Hm.
  - intros c' H. rewrite HC', length_app in H. simpl in H.
    destruct (decide (c' = c)) as [->|Hc]; [left; exists t; left; exact Ht'|].
    assert (Hlt : c' < length (chans s)) by (unfold c in Hc; lia).
    destruct (inv_done _ Hinv c' Hlt) as [[t' Hm]|(t' & f' & Hp & Hb)].
    + left. exists t'.
      destruct (decide (t' = t)) as [->|Hn];
        [destruct Hm; congruence|rewrite Hne by exact Hn; exact Hm].
    + right. exists t', f'. destruct (Hlook _ _ Hb) as [Hl _].
      rewrite Hother by exact Hc. auto.
  - intros c' H. rewrite HC', length_app in H. simpl in H.
    assert (c' <> c) by (unfold c; lia).
    rewrite Hother by assumption. apply (inv_fresh _ Hinv). lia.
Qed.

Lemma DoInv_main_step batch s s' :
  main_step batch s = Some s' -> DoInv s -> DoInv s'.
Proof.
  unfold main_step, Do_wrapper_f, Do_wrapper_done. intros Hstep Hinv.
  destruct (halt s); [discriminate|].
  destruct (mainpc s) as [| | |w|c| | |e|e| |] eqn:Hpc.
  - destruct (Running (world s)); injection Hstep as <-; frame_tac s Hpc Hinv.
  - apply (DoInv_lift _ _ _ _ Hstep); try (rewrite Hpc; reflexivity);
      try reflexivity; [|exact Hinv].
    intros c.
    destruct (MainIteration_trace batch (emit (EvIteration batch) (world s)))
      as (tl & Htl & Ftl).
    rewrite Htl, proj_app, (proj_toolkit _ _ Ftl), app_nil_r. simpl.
    rewrite proj_snoc. simpl. apply app_nil_r.
  - destruct (Work s) as [|[t w] q] eqn:HW; injection Hstep as <-.
    + frame_tac s Hpc Hinv.
    + pose proof (inv_work _ Hinv t w) as Hpt. rewrite HW in Hpt.
      specialize (Hpt (or_introl eq_refl)).
      destruct (pc_of_Some _ _ _ Hpt) as (th & Hth & Htpc).
      set (s1 := set_Work q (set_mainpc (PWrapF w) s)).
      destruct (resume_fields t s1) as (Rw & RW & RE & RC & _ & RM & _).
      eapply (DoInv_work_recv s _ t w q Hinv Hpc HW); simpl;
        rewrite ?Rw, ?RW, ?RE, ?RC, ?RM; try reflexivity.
      * change (pc_of (resume t s1) t = Some (TDoRecv (done w))).
        rewrite (pc_of_resume_eq s1 t th Hth). unfold resumed. rewrite Htpc.
        reflexivity.
      * intros t' Hn. change (pc_of (resume t s1) t' = pc_of s1 t').
        apply pc_of_resume_ne. congruence.
  - injection Hstep as <-.
    eapply (DoInv_wrap_f s _ w Hinv Hpc); simpl; reflexivity.
  - destruct (chans s !! c) as [buf|] eqn:Hbuf; [|discriminate].
    destruct (Nat.ltb (length buf) 1); [|discriminate]. injection Hstep as <-.
    eapply (DoInv_wrap_done s _ c buf Hinv Hpc Hbuf); simpl; reflexivity.
  - destruct (ShowingError (world s)); injection Hstep as <-;
      frame_tac s Hpc Hinv.
  - destruct (Errors s) as [|[t e] q] eqn:HE; injection Hstep as <-.
    + frame_tac s Hpc Hinv.
    + pose proof (inv_errors _ Hinv t e) as Hpt. rewrite HE in Hpt.
      specialize (Hpt (or_introl eq_refl)).
      destruct (pc_of_Some _ _ _ Hpt) as (th & Hth & Htpc).
      set (s1 := set_Errors q (set_mainpc (PSetShowing e) s)).
      destruct (resume_fields t s1) as (Rw & RW & RE & RC & _ & RM & _).
      pose proof (inv_errors_nodup _ Hinv) as Hnd. rewrite HE in Hnd.
      simpl in Hnd. apply NoDup_cons in Hnd as [Hnotin Hnd].
      assert (Hself : pc_of (resume t s1) t = Some TReady).
      { rewrite (pc_of_resume_eq s1 t th Hth). unfold resumed.
        rewrite Htpc. reflexivity. }
      assert (Hoth : forall t', t' <> t -> pc_of (resume t s1) t' = pc_of s t').
      { intros t' Hn. change (pc_of (resume t s1) t' = pc_of s1 t').
        apply pc_of_resume_ne. congruence. }
      assert (Hiff : forall t' pc, pc <> TReady -> pc <> TErrParked ->
                pc_of (resume t s1) t' = Some pc <-> pc_of s t' = Some pc).
      { intros t' pc H1 H2. destruct (decide (t' = t)) as [->|Hn].
        - rewrite Hself, Hpt. split; congruence.
        - rewrite Hoth by exact Hn. reflexivity. }
      apply (DoInv_frame s); simpl; rewrite ?Rw, ?RW, ?RE, ?RC, ?RM;
        try reflexivity; try exact Hinv.
      * intros t' c. apply Hiff; discriminate.
      * intros t' c. apply Hiff; discriminate.
      * intros c. simpl. rewrite Hpc. reflexivity.
      * intros c. rewrite Hpc. discriminate.
      * simpl. rewrite Hpc. reflexivity.
      * intros c. rewrite proj_snoc. simpl. apply app_nil_r.
      * intros t' e' Hin.
        assert (t' <> t).
        { intros ->. apply Hnotin, list_elem_of_In, in_map_iff.
          exists (t, e'). auto. }
        change (pc_of (resume t s1) t' = Some TErrParked).
        rewrite Hoth by assumption. apply (inv_errors _ Hinv _ e').
        rewrite HE. right. exact Hin.
      * exact Hnd.
  - injection Hstep as <-. frame_tac s Hpc Hinv.
  - apply (DoInv_lift _ _ _ _ Hstep); try (rewrite Hpc; reflexivity);
      try reflexivity; [|exact Hinv].
    intros c. simpl. rewrite proj_snoc. simpl. apply app_nil_r.
  - injection Hstep as <-. frame_tac s Hpc Hinv.
  - discriminate.
Qed.

Lemma DoInv_bg_step t s s' : bg_step t s = Some s' -> DoInv s -> DoInv s'.
Proof.
  unfold bg_step, Do_send, Do_receive. intros Hstep Hinv.
  destruct (halt s); [discriminate|].
  destruct (threads s !! t) as [th|] eqn:Hth; [|discriminate].
  assert (Hlt : t < length (threads s)) by (apply lookup_lt_Some in Hth; exact Hth).
  assert (Hpt : pc_of s t = Some (tpc th)) by (unfold pc_of; rewrite Hth; reflexivity).
  assert (Hself : forall th' (s0 : State) pc,
            threads s0 = <[t := th']> (threads s) -> tpc th' = pc ->
            pc_of s0 t = Some pc).
  { intros th' s0 pc E <-. unfold pc_of. rewrite E.
    rewrite list_lookup_insert_eq by exact Hlt. reflexivity. }
  assert (Hoth : forall th' (s0 : State),
            threads s0 = <[t := th']> (threads s) ->
            forall t', t' <> t -> pc_of s0 t' = pc_of s t').
  { intros th' s0 E t' Hn. unfold pc_of. rewrite E.
    rewrite list_lookup_insert_ne by congruence. reflexivity. }
  assert (Hiff : forall th' (s0 : State),
            threads s0 = <[t := th']> (threads s) ->
            forall t' pc, pc <> tpc th -> pc <> tpc th' ->
            pc_of s0 t' = Some pc <-> pc_of s t' = Some pc).
  { intros th' s0 E t' pc H1 H2. destruct (decide (t' = t)) as [->|Hn].
    - rewrite (Hself _ _ _ E eq_refl), Hpt. split; congruence.
    - rewrite (Hoth _ _ E) by exact Hn. reflexivity. }
  destruct (tpc th) as [|c|c|] eqn:Hpc; try discriminate.
  - destruct (prog th) as [|[f|e|name upd] rest] eqn:Hprog; [discriminate|..];
      injection Hstep as <-.
    + eapply (DoInv_do_send s _ t f Hinv Hpt); simpl; try reflexivity.
      * eapply Hself; reflexivity.
      * eapply Hoth. reflexivity.
    + apply (DoInv_frame s); simpl; try reflexivity; try exact Hinv;
        try (intros; reflexivity).
      * intros t' c. eapply Hiff; [reflexivity|simpl; discriminate..].
      * intros t' c. eapply Hiff; [reflexivity|simpl; discriminate..].
      * intros c. rewrite proj_snoc. simpl. apply app_nil_r.
      * intros t' e' Hin. apply in_app_or in Hin as [Hin|[[= <- <-]|[]]].
        -- pose proof (inv_errors _ Hinv _ _ Hin) as H.
           destruct (decide (t' = t)) as [->|Hn]; [congruence|].
           erewrite Hoth; [exact H|reflexivity|exact Hn].
        -- eapply Hself; reflexivity.
      * rewrite map_app. simpl. apply NoDup_app. split; [|split].
        -- apply (inv_errors_nodup _ Hinv).
        -- intros x Hx Hx'. apply list_elem_of_In in Hx, Hx'.
           destruct Hx' as [<-|[]]. apply in_map_iff in Hx as ([t0 e0] & E & Hin).
           simpl in E. subst t0. pose proof (inv_errors _ Hinv _ _ Hin).
           congruence.
        -- apply NoDup_singleton.
    + apply (DoInv_frame s); simpl; try reflexivity; try exact Hinv;
        try (intros; reflexivity).
      * intros t' c. eapply Hiff; [reflexivity|simpl; discriminate..].
      * intros t' c. eapply Hiff; [reflexivity|simpl; discriminate..].
      * intros c. rewrite proj_snoc. simpl. apply app_nil_r.
      * intros t' e' Hin. pose proof (inv_errors _ Hinv _ _ Hin) as H.
        destruct (decide (t' = t)) as [->|Hn]; [congruence|].
        erewrite Hoth; [exact H|reflexivity|exact Hn].
      * apply (inv_errors_nodup _ Hinv).
  - destruct (chans s !! c) as [[|b buf]|] eqn:Hbuf; try discriminate.
    injection Hstep as <-.
    eapply (DoInv_return s _ t c b buf Hinv Hpt Hbuf); simpl; try reflexivity.
    + eapply Hself; reflexivity.
    + eapply Hoth. reflexivity.
Qed.

Lemma DoInv_reachable progs st s : reachable (init progs st) s -> DoInv s.
Proof.
  induction 1 as [|s s' _ IH Hstep]; [apply DoInv_init|].
  destruct Hstep as [batch s s' H|t s s' H].
  - apply (DoInv_main_step _ _ _ H IH).
  - apply (DoInv_bg_step _ _ _ H IH).
Qed.

(** ** Do *)

Lemma ran_app tr tl : ran (tr ++ tl) = ran tr ++ ran tl.
Proof. unfold ran. apply flat_map_app. Qed.

Lemma ran_toolkit tl :
  Forall (fun x => toolkit_event x = true) tl -> ran tl = [].
Proof.
  induction 1 as [|e tl He _ IH]; [reflexivity|].
  unfold ran in *. simpl. rewrite IH. destruct e; try discriminate; reflexivity.
Qed.

Lemma apply_all_snoc fs f st : apply_all (fs ++ [f]) st = f (apply_all fs st).
Proof. unfold apply_all. rewrite fold_left_app. reflexivity. Qed.

Lemma store_ok_step st s s' : step s s' -> store_ok st s -> store_ok st s'.
Proof.
  unfold store_ok. intros [batch s0 s1 Hstep|t s0 s1 Hstep] Hok.
  - unfold main_step, Do_wrapper_f, Do_wrapper_done in Hstep.
    destruct (halt s0); [discriminate|].
    destruct (mainpc s0) as [| | |w|c| | |e|e| |] eqn:Hpc.
    + destruct (Running (world s0)); injection Hstep as <-; simpl;
        rewrite ran_app; simpl; rewrite app_nil_r; exact Hok.
    + destruct (lift_fields _ _ _ _ Hstep) as (Hw & _ & _ & _ & Hst & _).
      rewrite Hst, Hw.
      destruct (MainIteration_trace batch (emit (EvIteration batch) (world s0)))
        as (tl & Htl & Ftl).
      rewrite Htl, ran_app, (ran_toolkit _ Ftl), app_nil_r. simpl.
      rewrite ran_app. simpl. rewrite app_nil_r. exact Hok.
    + destruct (Work s0) as [|[t w] q]; injection Hstep as <-.
      * simpl. rewrite ran_app. simpl. rewrite app_nil_r. exact Hok.
      * destruct (resume_fields t (set_Work q (set_mainpc (PWrapF w) s0)))
          as (Rw & _ & _ & _ & Rs & _).
        simpl. rewrite Rw, Rs. simpl. rewrite ran_app. simpl.
        rewrite app_nil_r. exact Hok.
    + injection Hstep as <-. simpl. rewrite ran_app. simpl.
      rewrite apply_all_snoc, <- Hok. reflexivity.
    + destruct (chans s0 !! c) as [buf|]; [|discriminate].
      destruct (Nat.ltb (length buf) 1); [|discriminate].
      injection Hstep as <-. simpl. rewrite ran_app. simpl.
      rewrite app_nil_r. exact Hok.
    + destruct (ShowingError (world s0)); injection Hstep as <-; simpl;
        rewrite ran_app; simpl; rewrite app_nil_r; exact Hok.
    + destruct (Errors s0) as [|[t e] q]; injection Hstep as <-.
      * simpl. rewrite ran_app. simpl. rewrite app_nil_r. exact Hok.
      * destruct (resume_fields t (set_Errors q (set_mainpc (PSetShowing e) s0)))
          as (Rw & _ & _ & _ & Rs & _).
        simpl. rewrite Rw, Rs. simpl. rewrite ran_app. simpl.
        rewrite app_nil_r. exact Hok.
    + injection Hstep as <-. simpl. rewrite ran_app. simpl.
      rewrite app_nil_r. exact Hok.
    + injection Hstep as <-. simpl. rewrite ran_app. simpl.
      rewrite app_nil_r. exact Hok.
    + injection Hstep as <-. simpl. rewrite ran_app. simpl.
      rewrite app_nil_r. exact Hok.
    + discriminate.
  - unfold bg_step, Do_send, Do_receive in Hstep.
    destruct (halt s0); [discriminate|].
    destruct (threads s0 !! t) as [th|]; [|discriminate].
    destruct (tpc th) as [|c|c|]; try discriminate.
    + destruct (prog th) as [|[f|e|name upd] rest]; [discriminate|..];
        injection Hstep as <-; simpl; rewrite ran_app; simpl;
        rewrite app_nil_r; exact Hok.
    + destruct (chans s0 !! c) as [[|b buf]|]; try discriminate.
      injection Hstep as <-. simpl. rewrite ran_app. simpl.
      rewrite app_nil_r. exact Hok.
Qed.

Lemma store_ok_reachable progs st s :
  reachable (init progs st) s -> store_ok st s.
Proof.
  induction 1 as [|s s' _ IH Hstep]; [reflexivity|].
  apply (store_ok_step _ _ _ Hstep IH).
Qed.

Lemma run_reachable sched : forall s s', run sched s = Some s' -> reachable s s'.
Proof.
  assert (Htrans : forall s0 s1 s2, step s0 s1 -> reachable s1 s2 -> reachable s0 s2).
  { intros s0 s1 s2 H01 H12. induction H12 as [|s2 s3 _ IH H23].
    - apply (reach_step _ s0); [apply reach_init|exact H01].
    - apply (reach_step _ s2); [exact IH|exact H23]. }
  induction sched as [|[batch|t] sched IH]; intros s s' H; simpl in H.
  - injection H as <-. apply reach_init.
  - destruct (main_step batch s) as [s1|] eqn:E; [|discriminate].
    apply (Htrans s s1); [apply (step_main batch), E|apply IH, H].
  - destruct (bg_step t s) as [s1|] eqn:E; [|discriminate].
    apply (Htrans s s1); [apply (step_bg t), E|apply IH, H].
Qed.

Lemma filter_app_inv {A} (p : A -> bool) (l r1 r2 : list A) :
  List.filter p l = r1 ++ r2 ->
  exists l1 l2, l = l1 ++ l2 /\ List.filter p l1 = r1 /\ List.filter p l2 = r2.
Proof.
  revert r1. induction l as [|x l IH]; intros r1 H; simpl in H.
  - symmetry in H. apply app_eq_nil in H as [-> ->]. exists [], []. auto.
  - destruct (p x) eqn:Hp.
    + destruct r1 as [|y r1]; simpl in H.
      * exists [], (x :: l). simpl. rewrite Hp. auto.
      * injection H as <- H. destruct (IH _ H) as (l1 & l2 & -> & H1 & H2).
        exists (x :: l1), l2. simpl. rewrite Hp, H1. auto.
    + destruct (IH _ H) as (l1 & l2 & -> & H1 & H2).
      exists (x :: l1), l2. simpl. rewrite Hp. auto.
Qed.

Lemma filter_cons_inv {A} (p : A -> bool) (l r : list A) x :
  List.filter p l = x :: r ->
  exists l1 l2, l = l1 ++ x :: l2 /\ List.filter p l2 = r.
Proof.
  induction l as [|y l IH]; simpl; [discriminate|].
  destruct (p y) eqn:Hp.
  - intros [= -> H]. exists [], l. auto.
  - intros H. destruct (IH H) as (l1 & l2 & -> & H2).
    exists (y :: l1), l2. auto.
Qed.

Lemma proj_prefix progs st s c :
  reachable (init progs st) s ->
  exists t f k, proj c (trace (world s)) = take k (canon t c f).
Proof.
  intros Hr. pose proof (DoInv_reachable _ _ _ Hr) as Hinv.
  destruct (le_lt_dec (length (chans s)) c) as [Hge|Hlt].
  - exists 0, id, 0. apply (inv_fresh _ Hinv), Hge.
  - destruct (inv_done _ Hinv c Hlt) as [[t [Ht|Ht]]|(t & f & Hp & _)].
    + destruct (inv_parked _ Hinv _ _ Ht) as (f & _ & Hp & _). eauto.
    + destruct (inv_recv _ Hinv _ _ Ht) as (f & H).
      destruct (main_phase (mainpc s) c) as [|[|[|n]]];
        destruct H as (_ & Hp & _) || destruct H as (_ & Hp); eauto.
    + exists t, f, 5. exact Hp.
Qed.

Lemma proj_returned progs st s t c :
  reachable (init progs st) s ->
  In (EvDoReturn t c) (trace (world s)) ->
  exists f, proj c (trace (world s)) = canon t c f /\ chans s !! c = Some [].
Proof.
  intros Hr Hin. pose proof (DoInv_reachable _ _ _ Hr) as Hinv.
  assert (Hp : In (EvDoReturn t c) (proj c (trace (world s)))).
  { unfold proj. apply filter_In. split; [exact Hin|]. simpl. apply Nat.eqb_refl. }
  destruct (le_lt_dec (length (chans s)) c) as [Hge|Hlt].
  - rewrite (inv_fresh _ Hinv c Hge) in Hp. destruct Hp.
  - destruct (inv_done _ Hinv c Hlt) as [[t' [Ht|Ht]]|(t' & f & Hq & Hb)].
    + destruct (inv_parked _ Hinv _ _ Ht) as (f & _ & Hq & _).
      rewrite Hq in Hp. simpl in Hp. destruct Hp as [Hp|[]]. discriminate.
    + destruct (inv_recv _ Hinv _ _ Ht) as (f & H).
      destruct (main_phase (mainpc s) c) as [|[|[|n]]];
        (destruct H as (_ & Hq & _) || destruct H as (_ & Hq));
        rewrite Hq in Hp; simpl in Hp; intuition discriminate.
    + rewrite Hq in Hp. simpl in Hp.
      destruct Hp as [Hp|[Hp|[Hp|[Hp|[Hp|[]]]]]]; try discriminate.
      injection Hp as ->. eauto.
Qed.

(** C1. In every reachable state and for every call [Do(f)], identified
    by its [done] channel [c]: the events of the call are a prefix of
    "the goroutine parks the wrapper on [Work]; the main thread receives
    it; the main thread runs [f]; the main thread signals [done]; the
    goroutine receives from [done] and [Do] returns".  Once [Do] has
    returned the whole sequence has happened, each part once: [f], the
    function given to [Do], ran exactly once, on the main thread, before
    the return, and the signal has been consumed.  The store is the
    result of the functions run so far, in order, so it contains the
    effect of [f] from that point on. *)
Theorem Do_runs_f_once_before_return
    (progs : list (list Stmt)) (st : Store) (s : State) :
  reachable (init progs st) s ->
  (forall c, exists t f k, proj c (trace (world s)) = take k (canon t c f)) /\
  (forall t c, In (EvDoReturn t c) (trace (world s)) ->
     exists f,
       proj c (trace (world s)) = canon t c f /\
       chans s !! c = Some [] /\
       exists l1 l2 l3,
         trace (world s) =
           l1 ++ EvRunF MainThread c f :: l2 ++ EvDoReturn t c :: l3 /\
         In f (ran (trace (world s)))) /\
  store s = apply_all (ran (trace (world s))) st.
Proof.
  intros Hr. split; [|split].
  - intros c. apply (proj_prefix _ _ _ _ Hr).
  - intros t c Hin. destruct (proj_returned _ _ _ _ _ Hr Hin) as (f & Hp & Hb).
    exists f. split; [exact Hp|]. split; [exact Hb|].
    unfold proj in Hp.
    destruct (filter_app_inv _ _ (take 2 (canon t c f)) (drop 2 (canon t c f)) Hp)
      as (l1 & m & Htr & _ & Hm).
    simpl in Hm. apply filter_cons_inv in Hm as (m1 & m2 & -> & Hm2).
    apply filter_cons_inv in Hm2 as (n1 & n2 & -> & Hn2).
    apply filter_cons_inv in Hn2 as (o1 & o2 & -> & _).
    exists (l1 ++ m1), (n1 ++ EvSignal c :: o1), o2. split.
    + rewrite Htr, <- !app_assoc. simpl. rewrite <- ?app_assoc. reflexivity.
    + rewrite Htr, !ran_app. apply in_or_app. right. apply in_or_app. right.
      simpl. left. reflexivity.
  - apply (store_ok_reachable _ _ _ Hr).
Qed.

Lemma Do_runs_f_once_before_return_witness :
  exists s,
    run [inr 0; inl []; inl []; inl []; inl []; inl []; inr 0]
        (init [[SDo (fun st => <["x" := 5%Z]> st)]] ∅) = Some s /\
    store s = apply_all (ran (trace (world s))) ∅ /\
    store s !! "x" = Some 5%Z.
Proof.
  eexists. split; [vm_compute; reflexivity|]. split.
  - apply (Do_runs_f_once_before_return
             [[SDo (fun st => <["x" := 5%Z]> st)]] ∅).
    apply (run_reachable
             [inr 0; inl []; inl []; inl []; inl []; inl []; inr 0]).
    vm_compute. reflexivity.
  - vm_compute. reflexivity.
Defined.

(** ** The error dialogs *)

Lemma arrivals_app tr tl : arrivals (tr ++ tl) = arrivals tr ++ arrivals tl.
Proof. apply flat_map_app. Qed.
Lemma displayed_app tr tl : displayed (tr ++ tl) = displayed tr ++ displayed tl.
Proof. apply flat_map_app. Qed.
Lemma dismissals_app tr tl : dismissals (tr ++ tl) = dismissals tr ++ dismissals tl.
Proof. apply flat_map_app. Qed.

Lemma arrivals_toolkit tl :
  Forall (fun x => toolkit_event x = true) tl -> arrivals tl = [].
Proof.
  induction 1 as [|e tl He _ IH]; [reflexivity|].
  unfold arrivals in *. simpl. rewrite IH. destruct e; try discriminate; reflexivity.
Qed.
Lemma displayed_toolkit tl :
  Forall (fun x => toolkit_event x = true) tl -> displayed tl = [].
Proof.
  induction 1 as [|e tl He _ IH]; [reflexivity|].
  unfold displayed in *. simpl. rewrite IH. destruct e; try discriminate; reflexivity.
Qed.

Lemma Quit_world w :
  dialogs (final (Quit w)) = dialogs w /\
  ShowingError (final (Quit w)) = ShowingError w /\
  displayed (trace (final (Quit w))) = displayed (trace w) /\
  dismissals (trace (final (Quit w))) = dismissals (trace w).
Proof.
  unfold Quit. destruct (Mopidy w) as [m|]; [|auto].
  destruct (Cmd m) as [c|]; [|auto].
  destruct (Process c); simpl;
    rewrite ?displayed_app, ?dismissals_app; simpl; rewrite ?app_nil_r; auto.
Qed.

(** One toolkit event keeps the dialogs in order; if it clears
    [ShowingError] it is the dismissal of the dialog on screen. *)
Lemma dispatch_dialogs_ok e w :
  dialogs_ok w ->
  dialogs_ok (final (dispatch e w)) /\
  (ShowingError w = true -> ShowingError (final (dispatch e w)) = false ->
   length (dismissals (trace (final (dispatch e w)))) =
     S (length (dismissals (trace w)))) /\
  (ShowingError w = false -> ShowingError (final (dispatch e w)) = false) /\
  length (dismissals (trace w)) <=
    length (dismissals (trace (final (dispatch e w)))).
Proof.
  intros [Hd Hc]. destruct e as [d'|widget signal upd]; simpl.
  - destruct Hd as [Hd|(d & e & Hd & Hs)].
    + rewrite Hd. simpl. repeat split; auto; try congruence.
    + rewrite Hd. unfold find_dialog. simpl.
      destruct (Nat.eqb d d') eqn:E; simpl.
      * apply Nat.eqb_eq in E. subst d'.
        unfold respond, bind, destroy_dialog, act, remove_dialog. simpl.
        rewrite Hd. simpl. rewrite Nat.eqb_refl. simpl.
        unfold dialogs_ok. simpl.
        rewrite !displayed_app, !dismissals_app, !length_app. simpl.
        rewrite ?app_nil_r. rewrite Hd in Hc. simpl in Hc.
        repeat split; auto; try lia; try congruence.
      * repeat split; auto; try congruence. right. eauto.
  - destruct (connected w); [|simpl; repeat split; auto; congruence].
    destruct (callback_of widget signal) as [[]|];
      try (simpl; repeat split; auto; congruence).
    destruct (Quit_world w) as (Qd & Qs & Qp & Qm).
    unfold dialogs_ok. rewrite Qd, Qs, Qp, Qm.
    repeat split; auto; congruence.
Qed.

Lemma MainIteration_dialogs_ok batch : forall w,
  dialogs_ok w ->
  dialogs_ok (final (MainIteration batch w)) /\
  (ShowingError w = true -> ShowingError (final (MainIteration batch w)) = false ->
   length (dismissals (trace w)) <
     length (dismissals (trace (final (MainIteration batch w))))) /\
  (ShowingError w = false -> ShowingError (final (MainIteration batch w)) = false) /\
  length (dismissals (trace w)) <=
    length (dismissals (trace (final (MainIteration batch w)))).
Proof.
  induction batch as [|e batch IH]; intros w Hok; simpl.
  - split; [exact Hok|]. split; [intros; congruence|]. split; [auto|lia].
  - unfold bind. destruct (dispatch_dialogs_ok e w Hok) as (H1 & H2 & H3 & H4).
    destruct (dispatch e w) as [[] w'|c w'|w'|w'] eqn:Hd; simpl in *;
      try (split; [exact H1|]; split; [|split; [exact H3|exact H4]];
           intros Ht Hf; rewrite (H2 Ht Hf); lia).
    destruct (IH w' H1) as (I1 & I2 & I3 & I4).
    split; [exact I1|]. split; [|split; [auto|lia]].
    intros Ht Hf. destruct (ShowingError w') eqn:E.
    + specialize (I2 eq_refl Hf). lia.
    + specialize (H2 Ht eq_refl). lia.
Qed.

(** A step that shows and destroys no dialog, sends and takes no error
    and leaves [ShowingError] alone keeps the invariant. *)
Lemma ErrInv_quiet s s' tl :
  trace (world s') = trace (world s) ++ tl ->
  displayed tl = [] -> dismissals tl = [] -> arrivals tl = [] ->
  dialogs (world s') = dialogs (world s) ->
  ShowingError (world s') = ShowingError (world s) ->
  Errors s' = Errors s ->
  in_flight (mainpc s') = in_flight (mainpc s) ->
  (forall e, mainpc s' = PErrors \/ mainpc s' = PSetShowing e ->
             ShowingError (world s) = false) ->
  (forall e, mainpc s' = PNonFatal e -> mainpc s = PNonFatal e) ->
  ErrInv s -> ErrInv s'.
Proof.
  intros Htr Hd Hm Ha Hdl Hs He Hf Hg Hb [[I1 I1'] I2 I3 I4].
  constructor.
  - split.
    + rewrite Hdl, Hs. exact I1.
    + rewrite Htr, displayed_app, dismissals_app, Hd, Hm, !app_nil_r, Hdl.
      exact I1'.
  - intros e H. rewrite Hs. apply (Hg e H).
  - intros e H. rewrite Hdl, Hs. apply (I3 e), Hb, H.
  - rewrite Htr, arrivals_app, displayed_app, Ha, Hd, !app_nil_r, Hf, He.
    exact I4.
Qed.

Lemma ErrInv_init progs st : ErrInv (init progs st).
Proof.
  constructor; simpl.
  - split; [left; reflexivity|reflexivity].
  - reflexivity.
  - intros e H. discriminate.
  - reflexivity.
Qed.

Ltac quiet_tac s ev Hpc :=
  apply (ErrInv_quiet s _ [ev]); simpl; rewrite ?Hpc; try reflexivity;
  try assumption;
  try (intros ? [?|?]; discriminate); try (intros ? ?; discriminate).

Lemma ErrInv_main_step batch s s' :
  main_step batch s = Some s' -> ErrInv s -> ErrInv s'.
Proof.
  unfold main_step, Do_wrapper_f, Do_wrapper_done. intros Hstep Hinv.
  destruct (halt s); [discriminate|].
  destruct (mainpc s) as [| | |w|c| | |e|e| |] eqn:Hpc.
  - destruct (Running (world s)); injection Hstep as <-.
    + quiet_tac s (EvLoopTest true) Hpc.
    + quiet_tac s (EvLoopTest false) Hpc.
  - destruct (lift_fields _ _ _ _ Hstep) as (Hw & _ & HE & _ & _ & _ & Hm).
    assert (Hm' : mainpc s' = PWork \/ mainpc s' = PIter).
    { destruct Hm as [(-> & _)|(-> & _)]; auto. }
    destruct (MainIteration_trace batch (emit (EvIteration batch) (world s)))
      as (tl & Htl & Ftl).
    destruct Hinv as [[I1 I1'] I2 I3 I4].
    destruct (MainIteration_dialogs_ok batch (emit (EvIteration batch) (world s)))
      as (Hok & _).
    { split; [exact I1|]. simpl.
      rewrite displayed_app, dismissals_app. simpl. rewrite !app_nil_r.
      exact I1'. }
    constructor.
    + rewrite Hw. exact Hok.
    + intros e [H|H]; destruct Hm'; congruence.
    + intros e H. destruct Hm'; congruence.
    + rewrite Hw, Htl, HE, arrivals_app, displayed_app.
      rewrite (arrivals_toolkit _ Ftl), (displayed_toolkit _ Ftl), !app_nil_r.
      simpl. rewrite arrivals_app, displayed_app. simpl. rewrite !app_nil_r.
      rewrite I4, Hpc. destruct Hm' as [-> | ->]; reflexivity.
  - destruct (Work s) as [|[t w] q]; injection Hstep as <-.
    + quiet_tac s EvWorkNone Hpc.
    + destruct (resume_fields t (set_Work q (set_mainpc (PWrapF w) s)))
        as (Rw & _ & RE & _ & _ & RM & _).
      apply (ErrInv_quiet s _ [EvWorkRecv (done w)]); simpl;
        rewrite ?Rw, ?RE, ?RM, ?Hpc; try reflexivity; try exact Hinv;
        try (intros ? [?|?]; discriminate); try (intros ? ?; discriminate).
  - injection Hstep as <-. quiet_tac s (EvRunF MainThread (done w) (body w)) Hpc.
  - destruct (chans s !! c) as [buf|]; [|discriminate].
    destruct (Nat.ltb (length buf) 1); [|discriminate].
    injection Hstep as <-. quiet_tac s (EvSignal c) Hpc.
  - destruct (ShowingError (world s)) eqn:Hsh; injection Hstep as <-.
    + quiet_tac s (EvShowingTest true) Hpc.
    + quiet_tac s (EvShowingTest false) Hpc. intros _ _. exact Hsh.
  - destruct Hinv as [[I1 I1'] I2 I3 I4].
    destruct (Errors s) as [|[t e] q] eqn:HE; injection Hstep as <-.
    + apply (ErrInv_quiet s _ [EvErrNone]); simpl; rewrite ?Hpc, ?HE;
        try reflexivity; try (intros ? [?|?]; discriminate);
        try (intros ? ?; discriminate).
      constructor; [split|..]; rewrite ?HE; assumption.
    + destruct (resume_fields t (set_Errors q (set_mainpc (PSetShowing e) s)))
        as (Rw & _ & RE & _ & _ & RM & _).
      constructor; simpl; rewrite ?Rw, ?RE, ?RM; simpl.
      * split; [exact I1|]. simpl. rewrite displayed_app, dismissals_app.
        simpl. rewrite !app_nil_r. exact I1'.
      * intros e' _. apply (I2 e). left. exact Hpc.
      * intros e' H. discriminate.
      * rewrite arrivals_app, displayed_app. simpl. rewrite !app_nil_r.
        rewrite I4, Hpc. reflexivity.
  - destruct Hinv as [[I1 I1'] I2 I3 I4]. injection Hstep as <-.
    assert (Hsh : ShowingError (world s) = false).
    { apply (I2 e). right. exact Hpc. }
    assert (Hnil : dialogs (world s) = []).
    { destruct I1 as [H|(d & x & _ & H)]; [exact H|congruence]. }
    constructor; simpl.
    + split; [left; exact Hnil|]. simpl. rewrite displayed_app, dismissals_app.
      simpl. rewrite !app_nil_r. exact I1'.
    + intros e' [H|H]; discriminate.
    + intros e' _. auto.
    + rewrite arrivals_app, displayed_app. simpl. rewrite !app_nil_r.
      rewrite I4, Hpc. reflexivity.
  - destruct Hinv as [[I1 I1'] I2 I3 I4]. simpl in Hstep.
    injection Hstep as <-. destruct (I3 e Hpc) as [Hnil Hsh].
    constructor; simpl.
    + split.
      * right. simpl. rewrite Hnil. simpl. eauto.
      * simpl. rewrite displayed_app, dismissals_app, !length_app. simpl.
        unfold error in *. lia.
    + intros e' [H|H]; discriminate.
    + intros e' H. discriminate.
    + rewrite arrivals_app, displayed_app. simpl. rewrite !app_nil_r.
      rewrite I4, Hpc. simpl. rewrite <- app_assoc. reflexivity.
  - injection Hstep as <-. quiet_tac s EvDisable Hpc.
  - discriminate.
Qed.

Lemma ErrInv_bg_step t s s' : bg_step t s = Some s' -> ErrInv s -> ErrInv s'.
Proof.
  unfold bg_step, Do_send, Do_receive. intros Hstep Hinv.
  destruct (halt s); [discriminate|].
  destruct (threads s !! t) as [th|]; [|discriminate].
  destruct (tpc th) as [|c|c|]; try discriminate.
  - destruct (prog th) as [|[f|e|name upd] rest]; [discriminate|..];
      injection Hstep as <-.
    + apply (ErrInv_quiet s _ [EvWorkSend t (length (chans s)) f]); simpl;
        try reflexivity; try exact Hinv; [apply (err_guard _ Hinv)|auto].
    + destruct Hinv as [[I1 I1'] I2 I3 I4]. constructor; simpl.
      * split; [exact I1|]. simpl. rewrite displayed_app, dismissals_app.
        simpl. rewrite !app_nil_r. exact I1'.
      * exact I2.
      * exact I3.
      * rewrite arrivals_app, displayed_app, map_app. simpl.
        rewrite app_nil_r, I4, <- !app_assoc. reflexivity.
    + apply (ErrInv_quiet s _ [EvCall (Goroutine t) name]); simpl;
        try reflexivity; try exact Hinv; [apply (err_guard _ Hinv)|auto].
  - destruct (chans s !! c) as [[|b buf]|]; try discriminate.
    injection Hstep as <-.
    apply (ErrInv_quiet s _ [EvDoReturn t c]); simpl;
      try reflexivity; try exact Hinv; [apply (err_guard _ Hinv)|auto].
Qed.

Lemma ErrInv_reachable progs st s : reachable (init progs st) s -> ErrInv s.
Proof.
  induction 1 as [|s s' _ IH Hstep]; [apply ErrInv_init|].
  destruct Hstep as [batch s s' H|t s s' H].
  - apply (ErrInv_main_step _ _ _ H IH).
  - apply (ErrInv_bg_step _ _ _ H IH).
Qed.



(** ** The loop body *)

Lemma loop_trace_app tr tl : loop_trace (tr ++ tl) = loop_trace tr ++ loop_trace tl.
Proof. apply List.filter_app. Qed.

Lemma loop_trace_toolkit tl :
  Forall (fun x => toolkit_event x = true) tl -> loop_trace tl = [].
Proof.
  induction 1 as [|e tl He _ IH]; [reflexivity|].
  unfold loop_trace in *. simpl. rewrite IH.
  destruct e; try discriminate; try reflexivity.
  match goal with b : bool |- _ => destruct b end; [discriminate|reflexivity].
Qed.

Lemma shaped_extend s s' past cur ev :
  loop_trace (trace (world s)) = past ++ cur ->
  iterations past ->
  loop_trace (trace (world s')) = loop_trace (trace (world s)) ++ ev ->
  upto (halt s') (mainpc s') (cur ++ ev) ->
  shaped s'.
Proof.
  intros Hl Hp Hl' Hu. exists past, (cur ++ ev). split; [|auto].
  rewrite Hl', Hl, app_assoc. reflexivity.
Qed.

Lemma shaped_finish s s' past cur ev :
  loop_trace (trace (world s)) = past ++ cur ->
  iterations past ->
  loop_trace (trace (world s')) = loop_trace (trace (world s)) ++ ev ->
  iteration (cur ++ ev) -> halt s' = None -> mainpc s' = PLoop ->
  shaped s'.
Proof.
  intros Hl Hp Hl' Hi Hh Hm. exists (past ++ (cur ++ ev)), []. split; [|split].
  - rewrite Hl', Hl, app_nil_r, app_assoc. reflexivity.
  - apply iterations_snoc; assumption.
  - rewrite Hh, Hm. constructor.
Qed.

Lemma shaped_init progs st : shaped (init progs st).
Proof. exists [], []. repeat split; constructor. Qed.

Lemma shaped_same s s' :
  loop_trace (trace (world s')) = loop_trace (trace (world s)) ->
  halt s' = halt s -> mainpc s' = mainpc s -> shaped s -> shaped s'.
Proof.
  intros Hl Hh Hm (past & cur & H1 & H2 & H3). exists past, cur.
  rewrite Hl, Hh, Hm. auto.
Qed.

Ltac shape_step Hh Hl Hp ev :=
  eapply (shaped_extend _ _ _ _ ev Hl Hp);
  [ simpl; rewrite ?loop_trace_app; reflexivity
  | simpl; rewrite ?Hh, <- ?app_assoc; simpl; constructor; try assumption ].

Ltac shape_done Hh Hl Hp ev :=
  eapply (shaped_finish _ _ _ _ ev Hl Hp);
  [ simpl; rewrite ?loop_trace_app; reflexivity
  | simpl; rewrite <- ?app_assoc; simpl;
    apply iteration_intro; [assumption|constructor]
  | exact Hh | reflexivity ].

Lemma shaped_main_step batch s s' :
  main_step batch s = Some s' -> shaped s -> shaped s'.
Proof.
  unfold main_step, Do_wrapper_f, Do_wrapper_done.
  intros Hstep (past & cur & Hl & Hp & Hu).
  destruct (halt s) eqn:Hh; [discriminate|].
  destruct (mainpc s) as [| | |w|c| | |e|e| |] eqn:Hpc; inversion Hu; subst.
  - destruct (Running (world s)); injection Hstep as <-.
    + shape_step Hh Hl Hp [EvLoopTest true].
    + eapply (shaped_extend _ _ _ _ [EvLoopTest false] Hl Hp);
        [simpl; rewrite loop_trace_app; reflexivity|simpl; constructor].
  - destruct (lift_fields _ _ _ _ Hstep) as (Hw & _ & _ & _ & _ & _ & Hm).
    destruct (MainIteration_trace batch (emit (EvIteration batch) (world s)))
      as (tl & Htl & Ftl).
    eapply (shaped_extend _ _ _ _ [EvIteration batch] Hl Hp).
    + rewrite Hw, Htl, loop_trace_app, (loop_trace_toolkit _ Ftl), app_nil_r.
      simpl. rewrite loop_trace_app. reflexivity.
    + destruct Hm as [(-> & -> & _)|(-> & Hne)].
      * rewrite Hh. constructor.
      * rewrite Hpc. destruct (halt s') as [h|]; [constructor|congruence].
  - destruct (Work s) as [|[t w] q]; injection Hstep as <-.
    + eapply (shaped_extend _ _ _ _ [EvWorkNone] Hl Hp);
        [simpl; rewrite loop_trace_app; reflexivity|].
      simpl. rewrite Hh. apply (at_showing _ _ work_none).
    + destruct (resume_fields t (set_Work q (set_mainpc (PWrapF w) s)))
        as (Rw & _ & _ & _ & _ & RM & RH).
      eapply (shaped_extend _ _ _ _ [EvWorkRecv (done w)] Hl Hp).
      * simpl. rewrite Rw. simpl. rewrite loop_trace_app. reflexivity.
      * simpl. rewrite RH, RM. simpl. rewrite Hh. constructor.
  - injection Hstep as <-.
    shape_step Hh Hl Hp [EvRunF MainThread (done w) (body w)].
  - destruct (chans s !! c) as [buf|]; [|discriminate].
    destruct (Nat.ltb (length buf) 1); [|discriminate].
    injection Hstep as <-.
    eapply (shaped_extend _ _ _ _ [EvSignal c] Hl Hp);
      [simpl; rewrite loop_trace_app; reflexivity|].
    simpl. rewrite Hh. apply (at_showing _ _ (work_one c f)).
  - destruct (ShowingError (world s)); injection Hstep as <-.
    + shape_done Hh Hl Hp [EvShowingTest true].
    + shape_step Hh Hl Hp [EvShowingTest false].
  - destruct (Errors s) as [|[t e] q]; injection Hstep as <-.
    + shape_done Hh Hl Hp [EvErrNone].
    + destruct (resume_fields t (set_Errors q (set_mainpc (PSetShowing e) s)))
        as (Rw & _ & _ & _ & _ & RM & RH).
      eapply (shaped_extend _ _ _ _ [EvErrRecv e] Hl Hp).
      * simpl. rewrite Rw. simpl. rewrite loop_trace_app. reflexivity.
      * simpl. rewrite RH, RM. simpl. rewrite Hh, <- app_assoc. simpl.
        constructor. assumption.
  - injection Hstep as <-. shape_step Hh Hl Hp [EvShowing true].
  - simpl in Hstep. injection Hstep as <-.
    shape_step Hh Hl Hp [EvDialogShow (next_dialog (world s)) e OnNonFatal].
  - injection Hstep as <-. shape_done Hh Hl Hp [EvDisable].
Qed.

Lemma shaped_bg_step t s s' : bg_step t s = Some s' -> shaped s -> shaped s'.
Proof.
  unfold bg_step, Do_send, Do_receive. intros Hstep Hs.
  destruct (halt s); [discriminate|].
  destruct (threads s !! t) as [th|]; [|discriminate].
  destruct (tpc th) as [|c|c|]; try discriminate.
  - destruct (prog th) as [|[f|e|name upd] rest]; [discriminate|..];
      injection Hstep as <-; apply (shaped_same s); try reflexivity;
      try exact Hs; simpl; rewrite loop_trace_app; apply app_nil_r.
  - destruct (chans s !! c) as [[|b buf]|]; try discriminate.
    injection Hstep as <-. apply (shaped_same s); try reflexivity;
      try exact Hs. simpl. rewrite loop_trace_app. apply app_nil_r.
Qed.

Lemma shaped_reachable progs st s : reachable (init progs st) s -> shaped s.
Proof.
  induction 1 as [|s s' _ IH Hstep]; [apply shaped_init|].
  destruct Hstep as [batch s s' H|t s s' H].
  - apply (shaped_main_step _ _ _ H IH).
  - apply (shaped_bg_step _ _ _ H IH).
Qed.

(** C3. The loop events recorded so far are a sequence of complete
    passes followed by the pass in progress, and each pass is: the loop
    test with [Running] true, one batch of toolkit events, then no work
    item or one (received, run by the main thread, signalled), then the
    test of [ShowingError] and, only if it read false, no error or one
    (received, [ShowingError] set, NonFatal, Disable).  Step by step:
    the loop test goes on while [Running] is true and leaves otherwise;
    line 84 handles the batch and nothing else; the select of line 87
    takes the oldest parked wrapper, if there is one, and the main
    thread then runs its [f] on the store, there and then, and signals
    its [done]; the test of line 96 skips the error channel while
    [ShowingError] is true; the select of line 97 takes the oldest
    parked error, if there is one, after which [ShowingError] is set,
    NonFatal puts the dialog up and Disable is called. *)
Theorem loop_iteration_order
    (progs : list (list Stmt)) (st : Store) (s : State) :
  reachable (init progs st) s ->
  (exists past cur,
     loop_trace (trace (world s)) = past ++ cur /\
     iterations past /\ upto (halt s) (mainpc s) cur) /\
  (mainpc s = PLoop -> iterations (loop_trace (trace (world s)))) /\
  (forall batch s', main_step batch s = Some s' ->
     (mainpc s = PLoop ->
      if Running (world s)
      then mainpc s' = PIter /\ halt s' = None
      else mainpc s' = PExit /\ halt s' = Some (HExit 0)) /\
     (mainpc s = PIter ->
      world s' =
        final (MainIteration batch (emit (EvIteration batch) (world s))) /\
      Work s' = Work s /\ Errors s' = Errors s /\ store s' = store s /\
      (halt s' = None -> mainpc s' = PWork)) /\
     (mainpc s = PWork ->
      match Work s with
      | [] => s' = log EvWorkNone (set_mainpc PShowing s)
      | (t, w) :: q =>
          mainpc s' = PWrapF w /\ Work s' = q /\ store s' = store s /\
          trace (world s') = trace (world s) ++ [EvWorkRecv (done w)]
      end) /\
     (forall w, mainpc s = PWrapF w ->
        store s' = body w (store s) /\ mainpc s' = PWrapDone (done w) /\
        Work s' = Work s /\
        trace (world s') =
          trace (world s) ++ [EvRunF MainThread (done w) (body w)]) /\
     (forall c, mainpc s = PWrapDone c ->
        chans s' !! c = Some [true] /\ mainpc s' = PShowing /\
        store s' = store s /\ Work s' = Work s /\
        trace (world s') = trace (world s) ++ [EvSignal c]) /\
     (mainpc s = PShowing ->
      Errors s' = Errors s /\
      if ShowingError (world s) then mainpc s' = PLoop
      else mainpc s' = PErrors) /\
     (mainpc s = PErrors ->
      match Errors s with
      | [] => s' = log EvErrNone (set_mainpc PLoop s)
      | (t, e) :: q =>
          mainpc s' = PSetShowing e /\ Errors s' = q /\
          trace (world s') = trace (world s) ++ [EvErrRecv e]
      end) /\
     (forall e, mainpc s = PSetShowing e ->
        ShowingError (world s') = true /\ mainpc s' = PNonFatal e) /\
     (forall e, mainpc s = PNonFatal e ->
        world s' = shown e OnNonFatal (world s) /\ mainpc s' = PDisable) /\
     (mainpc s = PDisable -> s' = log EvDisable (set_mainpc PLoop s))).
Proof.
  intros Hr. pose proof (shaped_reachable _ _ _ Hr) as Hs.
  split; [exact Hs|]. split.
  - intros Hpc. destruct Hs as (past & cur & Hl & Hp & Hu).
    rewrite Hpc in Hu. inversion Hu; subst. rewrite Hl, app_nil_r. exact Hp.
  - intros batch s' Hstep. unfold main_step, Do_wrapper_f, Do_wrapper_done in Hstep.
    destruct (halt s) eqn:Hh; [discriminate|].
    split; [|split; [|split; [|split; [|split; [|split; [|split; [|split;
      [|split]]]]]]]].
    + intros Hpc. rewrite Hpc in Hstep.
      destruct (Running (world s)); injection Hstep as <-; simpl; auto.
    + intros Hpc. rewrite Hpc in Hstep.
      destruct (lift_fields _ _ _ _ Hstep) as (Hw & HW & HE & _ & Hst & _ & Hm).
      repeat (split; [assumption|]).
      intros Hn. destruct Hm as [(Hp & _)|(_ & Hne)]; [exact Hp|contradiction].
    + intros Hpc. rewrite Hpc in Hstep.
      destruct (Work s) as [|[t w] q]; injection Hstep as <-; [reflexivity|].
      destruct (resume_fields t (set_Work q (set_mainpc (PWrapF w) s)))
        as (Rw & RW & _ & _ & Rs & RM & _).
      simpl. rewrite Rw, RW, Rs, RM. auto.
    + intros w Hpc. rewrite Hpc in Hstep. injection Hstep as <-. simpl. auto.
    + intros c Hpc. rewrite Hpc in Hstep.
      destruct (chans s !! c) as [buf|] eqn:Hb; [|discriminate].
      destruct (Nat.ltb (length buf) 1) eqn:Hlen; [|discriminate].
      injection Hstep as <-. simpl.
      apply Nat.ltb_lt in Hlen. destruct buf as [|b buf]; [|simpl in Hlen; lia].
      split; [|auto]. apply list_lookup_insert_eq.
      apply lookup_lt_Some in Hb. exact Hb.
    + intros Hpc. rewrite Hpc in Hstep.
      destruct (ShowingError (world s)); injection Hstep as <-; simpl; auto.
    + intros Hpc. rewrite Hpc in Hstep.
      destruct (Errors s) as [|[t e] q]; injection Hstep as <-; [reflexivity|].
      destruct (resume_fields t (set_Errors q (set_mainpc (PSetShowing e) s)))
        as (Rw & _ & RE & _ & _ & RM & _).
      simpl. rewrite Rw, RE, RM. auto.
    + intros e Hpc. rewrite Hpc in Hstep. injection Hstep as <-. simpl. auto.
    + intros e Hpc. rewrite Hpc in Hstep. simpl in Hstep.
      injection Hstep as <-. simpl. auto.
    + intros Hpc. rewrite Hpc in Hstep. injection Hstep as <-. reflexivity.
Qed.

(** ** The loop does not wait *)

Lemma MainIteration_not_waiting batch : forall w w',
  MainIteration batch w <> Waiting w'.
Proof.
  induction batch as [|e batch IH]; intros w w'; simpl; [discriminate|].
  unfold bind.
  destruct (dispatch_cases e w) as [(w1 & H)|[(w1 & H)|(w1 & H & _)]];
    rewrite H; [apply IH|discriminate|discriminate].
Qed.

Lemma main_step_enabled progs st s batch :
  reachable (init progs st) s -> halt s = None ->
  exists s', main_step batch s = Some s'.
Proof.
  intros Hr Hh. pose proof (DoInv_reachable _ _ _ Hr) as Hinv.
  pose proof (shaped_reachable _ _ _ Hr) as (past & cur & _ & _ & Hu).
  unfold main_step, Do_wrapper_f, Do_wrapper_done. rewrite Hh.
  destruct (mainpc s) as [| | |w|c| | |e|e| |] eqn:Hpc.
  - destruct (Running (world s)); eauto.
  - destruct (MainIteration batch (emit (EvIteration batch) (world s)))
      as [[] w|c w|w|w] eqn:E; simpl; eauto.
    destruct (MainIteration_not_waiting _ _ _ E).
  - destruct (Work s) as [|[t w] q]; eauto.
  - eauto.
  - destruct (inv_main _ Hinv c) as [t Ht]; [rewrite Hpc; reflexivity|].
    destruct (inv_recv _ Hinv _ _ Ht) as (f & H). rewrite Hpc in H. simpl in H.
    rewrite Nat.eqb_refl in H. destruct H as [Hb _]. rewrite Hb. simpl. eauto.
  - destruct (ShowingError (world s)); eauto.
  - destruct (Errors s) as [|[t e] q]; eauto.
  - eauto.
  - simpl. eauto.
  - eauto.
  - rewrite Hh in Hu. inversion Hu.
Qed.

Lemma main_step_rank batch s s' :
  main_step batch s = Some s' ->
  halt s' <> None \/ mainpc s' = PLoop \/
  (0 < rank (mainpc s') /\ rank (mainpc s') < rank (mainpc s)).
Proof.
  unfold main_step, Do_wrapper_f, Do_wrapper_done.
  destruct (halt s) eqn:Hh; [discriminate|].
  destruct (mainpc s) as [| | |w|c| | |e|e| |] eqn:Hpc; intros Hstep.
  - destruct (Running (world s)); injection Hstep as <-; simpl.
    + right. right. lia.
    + left. discriminate.
  - destruct (lift_fields _ _ _ _ Hstep) as (_ & _ & _ & _ & _ & _ & Hm).
    destruct Hm as [(-> & _)|(_ & Hne)]; [right; right; simpl; lia|auto].
  - destruct (Work s) as [|[t w] q]; injection Hstep as <-.
    + right. right. simpl. lia.
    + destruct (resume_fields t (set_Work q (set_mainpc (PWrapF w) s)))
        as (_ & _ & _ & _ & _ & RM & _).
      right. right. simpl. rewrite RM. simpl. lia.
  - injection Hstep as <-. right. right. simpl. lia.
  - destruct (chans s !! c) as [buf|]; [|discriminate].
    destruct (Nat.ltb (length buf) 1); [|discriminate].
    injection Hstep as <-. right. right. simpl. lia.
  - destruct (ShowingError (world s)); injection Hstep as <-; simpl; auto.
    right. right. lia.
  - destruct (Errors s) as [|[t e] q]; injection Hstep as <-; simpl; auto.
    destruct (resume_fields t (set_Errors q (set_mainpc (PSetShowing e) s)))
      as (_ & _ & _ & _ & _ & RM & _).
    right. right. rewrite RM. simpl. lia.
  - injection Hstep as <-. right. right. simpl. lia.
  - simpl in Hstep. injection Hstep as <-. right. right. simpl. lia.
  - injection Hstep as <-. simpl. auto.
  - discriminate.
Qed.

Lemma iteration_completes batch progs st : forall n s,
  reachable (init progs st) s -> halt s = None ->
  rank (mainpc s) <= S n ->
  exists k s', k <= n /\
    run (repeat (inl batch) (S k)) s = Some s' /\
    (mainpc s' = PLoop \/ halt s' <> None).
Proof.
  induction n as [|n IH]; intros s Hr Hh Hrk;
    destruct (main_step_enabled _ _ _ batch Hr Hh) as [s1 H1];
    destruct (main_step_rank _ _ _ H1) as [Hd|[Hd|[Hpos Hlt]]];
    try (exists 0, s1; simpl; rewrite H1; auto with arith; fail).
  - lia.
  - assert (Hr1 : reachable (init progs st) s1).
    { apply (reach_step _ s); [exact Hr|apply (step_main batch), H1]. }
    destruct (halt s1) eqn:Hh1.
    + exists 0, s1. simpl. rewrite H1. split; [lia|]. split; [reflexivity|].
      right. congruence.
    + destruct (IH s1 Hr1 Hh1) as (k & s' & Hk & Hrun & Hend); [lia|].
      exists (S k), s'. split; [lia|]. split; [|exact Hend].
      change (repeat (inl batch) (S (S k)))
        with (@inl (list UiEvent) nat batch :: repeat (inl batch) (S k)).
      simpl run. rewrite H1. exact Hrun.
Qed.

(** C8. The main thread never waits on the two queues: in every
    reachable state that has not left the process its next step exists
    whatever the goroutines do (for the call of line 84: whatever batch
    the toolkit handles in it); at the select on [app.Work] and at the
    select on [app.Errors] an empty queue sends it on through the
    default branch with nothing else changed; and from any place in the
    loop body at most ten steps of the main thread alone bring it back
    to the loop test (or out of the process). *)
Theorem main_loop_never_waits
    (progs : list (list Stmt)) (st : Store) (s : State) (batch : list UiEvent) :
  reachable (init progs st) s -> halt s = None ->
  (exists s', main_step batch s = Some s') /\
  (mainpc s = PWork -> Work s = [] ->
   main_step batch s = Some (log EvWorkNone (set_mainpc PShowing s))) /\
  (mainpc s = PErrors -> Errors s = [] ->
   main_step batch s = Some (log EvErrNone (set_mainpc PLoop s))) /\
  (exists k s', k <= 9 /\
     run (repeat (inl batch) (S k)) s = Some s' /\
     (mainpc s' = PLoop \/ halt s' <> None)).
Proof.
  intros Hr Hh. split; [|split; [|split]].
  - apply (main_step_enabled _ _ _ _ Hr Hh).
  - intros Hpc HW. unfold main_step, Do_wrapper_f, Do_wrapper_done.
    rewrite Hh, Hpc, HW. reflexivity.
  - intros Hpc HE. unfold main_step, Do_wrapper_f, Do_wrapper_done.
    rewrite Hh, Hpc, HE. reflexivity.
  - apply (iteration_completes batch progs st 9 s Hr Hh).
    destruct (mainpc s); simpl; lia.
Qed.

(** ** Quit and the loop *)

Lemma dispatch_Running e w :
  Running w = false -> Running (final (dispatch e w)) = false.
Proof.
  intros H. destruct e as [d|widget signal upd]; simpl.
  - destruct (find_dialog d (dialogs w)) as [dlg|]; [|exact H].
    unfold respond. destruct (handler dlg); exact H.
  - destruct (connected w); [|exact H].
    destruct (callback_of widget signal) as [[]|]; try exact H.
    unfold Quit. destruct (Mopidy w) as [m|]; [|exact H].
    destruct (Cmd m) as [c|]; [|exact H]. reflexivity.
Qed.

Lemma MainIteration_Running batch : forall w,
  Running w = false -> Running (final (MainIteration batch w)) = false.
Proof.
  induction batch as [|e batch IH]; intros w H; simpl; [exact H|].
  unfold bind. pose proof (dispatch_Running e w H) as He.
  destruct (dispatch e w) as [[] w'|c w'|w'|w']; simpl in *; auto.
Qed.

(** Nothing sets [Running] again once it is false. *)
Lemma Running_stays_false s s' :
  step s s' -> Running (world s) = false -> Running (world s') = false.
Proof.
  intros [batch s0 s1 Hstep|t s0 s1 Hstep] H.
  - unfold main_step, Do_wrapper_f, Do_wrapper_done in Hstep.
    destruct (halt s0); [discriminate|].
    destruct (mainpc s0) as [| | |w|c| | |e|e| |].
    + destruct (Running (world s0)) eqn:E; [discriminate H|].
      injection Hstep as <-. exact E.
    + destruct (lift_fields _ _ _ _ Hstep) as (Hw & _). rewrite Hw.
      apply MainIteration_Running. exact H.
    + destruct (Work s0) as [|[t w] q]; injection Hstep as <-; [exact H|].
      destruct (resume_fields t (set_Work q (set_mainpc (PWrapF w) s0)))
        as (Rw & _).
      simpl. rewrite Rw. exact H.
    + injection Hstep as <-. exact H.
    + destruct (chans s0 !! c) as [buf|]; [|discriminate].
      destruct (Nat.ltb (length buf) 1); [|discriminate].
      injection Hstep as <-. exact H.
    + destruct (ShowingError (world s0)); injection Hstep as <-; exact H.
    + destruct (Errors s0) as [|[t e] q]; injection Hstep as <-; [exact H|].
      destruct (resume_fields t (set_Errors q (set_mainpc (PSetShowing e) s0)))
        as (Rw & _).
      simpl. rewrite Rw. exact H.
    + injection Hstep as <-. exact H.
    + simpl in Hstep. injection Hstep as <-. exact H.
    + injection Hstep as <-. exact H.
    + discriminate.
  - unfold bg_step, Do_send, Do_receive in Hstep.
    destruct (halt s0); [discriminate|].
    destruct (threads s0 !! t) as [th|]; [|discriminate].
    destruct (tpc th) as [|c|c|]; try discriminate.
    + destruct (prog th) as [|[f|e|name upd] rest]; [discriminate|..];
        injection Hstep as <-; exact H.
    + destruct (chans s0 !! c) as [[|b buf]|]; try discriminate.
      injection Hstep as <-. exact H.
Qed.

Lemma reachable_trans s0 s1 s2 :
  reachable s0 s1 -> reachable s1 s2 -> reachable s0 s2.
Proof.
  intros H01 H12. induction H12 as [|s2 s3 _ IH H23]; [exact H01|].
  apply (reach_step _ s2); assumption.
Qed.

Lemma reachable_Running_false s s' :
  reachable s s' -> Running (world s) = false -> Running (world s') = false.
Proof.
  induction 1 as [|s1 s2 _ IH Hstep]; [auto|].
  intros H. apply (Running_stays_false _ _ Hstep), IH, H.
Qed.

Lemma run_app l1 : forall l2 s,
  run (l1 ++ l2) s =
  match run l1 s with Some s' => run l2 s' | None => None end.
Proof.
  induction l1 as [|[b|t] l1 IH]; intros l2 s; simpl; [reflexivity|..].
  - destruct (main_step b s); [apply IH|reflexivity].
  - destruct (bg_step t s); [apply IH|reflexivity].
Qed.

(** With [Running] false the main thread, on its own, is out of the
    loop after at most eleven steps. *)
Lemma loop_exits batch progs st s :
  reachable (init progs st) s -> halt s = None ->
  Running (world s) = false ->
  exists k s', k <= 10 /\
    run (repeat (inl batch) (S k)) s = Some s' /\ halt s' <> None.
Proof.
  intros Hr Hh Hrun.
  destruct (iteration_completes batch progs st 9 s Hr Hh)
    as (k & s1 & Hk & Hrun1 & Hend); [destruct (mainpc s); simpl; lia|].
  destruct (halt s1) eqn:Hh1.
  - exists k, s1. split; [lia|]. split; [exact Hrun1|congruence].
  - destruct Hend as [Hpc|Hne]; [|congruence].
    pose proof (run_reachable _ _ _ Hrun1) as Hr1.
    pose proof (reachable_Running_false _ _ Hr1 Hrun) as Hf.
    exists (S k). eexists. split; [lia|]. split.
    + change (repeat (inl batch) (S (S k)))
        with (@inl (list UiEvent) nat batch :: repeat (inl batch) (S k)).
      rewrite repeat_cons, run_app, Hrun1. simpl.
      unfold main_step. rewrite Hh1, Hpc, Hf. reflexivity.
    + discriminate.
Qed.

(** C6. With a record behind [app.Mopidy] and a [Cmd] in it, Quit
    returns: it has killed the process if there was one and done
    nothing to it otherwise, and has cleared [Running] after that and
    not before, leaving the record as it was.  The only other outcome
    is the panic on a nil record, in which nothing was done and
    [Running] is as it was.  Once [Running] is false nothing sets it
    again, the loop test of line 83 leaves the loop, and the main
    thread gets there on its own in at most eleven steps. *)
Theorem Quit_kills_then_stops (w : World) :
  (forall m c, Mopidy w = Some m -> Cmd m = Some c ->
     exists w',
       Quit w = Ret tt w' /\ Running w' = false /\ Mopidy w' = Mopidy w /\
       trace w' = trace w ++
                  match Process c with Some p => [EvKill p] | None => [] end ++
                  [EvRunning false]) /\
  match Quit w with
  | Ret _ w' =>
      exists m c,
        Mopidy w = Some m /\ Cmd m = Some c /\
        Running w' = false /\
        trace w' = trace w ++
                   match Process c with Some p => [EvKill p] | None => [] end ++
                   [EvRunning false]
  | Panicked w' =>
      w' = w /\
      (Mopidy w = None \/ exists m, Mopidy w = Some m /\ Cmd m = None)
  | _ => False
  end /\
  (forall s s', step s s' -> Running (world s) = false ->
     Running (world s') = false) /\
  (forall batch s, Running (world s) = false -> mainpc s = PLoop ->
     halt s = None ->
     exists s', main_step batch s = Some s' /\
                mainpc s' = PExit /\ halt s' = Some (HExit 0)) /\
  (forall batch progs st s,
     reachable (init progs st) s -> halt s = None ->
     Running (world s) = false ->
     exists k s', k <= 10 /\
       run (repeat (inl batch) (S k)) s = Some s' /\ halt s' <> None).
Proof.
  split; [|split; [|split; [|split]]].
  - intros m c Hm Hc. unfold Quit. rewrite Hm, Hc.
    eexists. split; [reflexivity|]. split; [reflexivity|]. split.
    + destruct (Process c); simpl; exact Hm.
    + destruct (Process c); simpl; rewrite <- ?app_assoc; reflexivity.
  - unfold Quit. destruct (Mopidy w) as [m|]; [|auto].
    destruct (Cmd m) as [c|] eqn:Hc; [|eauto].
    exists m, c. split; [reflexivity|]. split; [exact Hc|].
    split; [reflexivity|].
    destruct (Process c); simpl; rewrite <- ?app_assoc; reflexivity.
  - apply Running_stays_false.
  - intros batch s Hrun Hpc Hh. unfold main_step. rewrite Hh, Hpc, Hrun.
    eexists. split; [reflexivity|]. split; reflexivity.
  - intros batch progs st s. apply loop_exits.
Qed.

Lemma Quit_kills_then_stops_witness :
  let record := Some {| Cmd := Some {| Process := Some {| pid := 42 |} |};
                        Status := MopidyConnected |} in
  (exists w',
     Quit (set_Mopidy record loop_world) = Ret tt w' /\
     Running w' = false /\
     trace w' = [EvKill {| pid := 42 |}; EvRunning false]) /\
  (exists s k s',
     run [inr 0; inl []; inl [Signal "menu-quit" "activate" id]]
         (init [[SCall "InitMopidy" (fun _ => record)]] ∅) = Some s /\
     Running (world s) = false /\ halt s = None /\
     In (EvKill {| pid := 42 |}) (trace (world s)) /\
     k <= 10 /\
     run (repeat (inl []) (S k)) s = Some s' /\ halt s' <> None).
Proof.
  intros record. split.
  - destruct (proj1 (Quit_kills_then_stops (set_Mopidy record loop_world))
                _ _ eq_refl eq_refl) as (w' & Hq & Hr & _ & Htr).
    exists w'. split; [exact Hq|]. split; [exact Hr|exact Htr].
  - destruct (run [inr 0; inl []; inl [Signal "menu-quit" "activate" id]]
                  (init [[SCall "InitMopidy" (fun _ => record)]] ∅))
      as [s|] eqn:Hrun; [|vm_compute in Hrun; discriminate].
    assert (Hs : Running (world s) = false /\ halt s = None /\
                 In (EvKill {| pid := 42 |}) (trace (world s))).
    { vm_compute in Hrun. injection Hrun as <-. simpl. tauto. }
    destruct Hs as (Hf & Hh & Hk).
    destruct (proj2 (proj2 (proj2 (proj2 (Quit_kills_then_stops loop_world))))
                [] _ _ s (run_reachable _ _ _ Hrun) Hh Hf)
      as (k & s' & Hle & Hrun' & Hne).
    exists s, k, s'. auto 10.
Defined.

(** ** The start-up goroutine *)











(** ** SetStatus *)

(** One call, alone: the lock is taken first and released last, the
    status is written in between and, for the statuses the switch
    covers, so is the display. *)
Lemma SetStatus_alone status w m :
  Mopidy w = Some m -> StatusLock w = false ->
  exists w',
    SetStatus status w = Ret tt w' /\
    StatusLock w' = false /\
    Mopidy w' = Some {| Cmd := Cmd m; Status := status |} /\
    trace w' = trace w ++ [EvLock; EvStatus status] ++
               match presentation status with
               | Some (icon, text) => [EvGuiStatus icon text]
               | None => []
               end ++ [EvUnlock] /\
    label w' = match presentation status with
               | Some l => l
               | None => label w
               end.
Proof.
  intros Hm Hl. unfold SetStatus, bind, deferred, status_lock. rewrite Hl.
  unfold bind, write_status. simpl. rewrite Hm.
  destruct status; simpl; eexists; (split; [reflexivity|]); simpl;
    rewrite <- ?app_assoc; auto.
Qed.

Lemma StatusInv_init w todos :
  StatusLock w = false -> paired w -> Forall observed_ok (trace w) ->
  StatusInv (status_init w todos).
Proof.
  intros Hl Hp Ho. split; [exact Ho|]. right. left. simpl.
  split; [exact Hl|]. split; [|exact Hp].
  apply Forall_forall. intros c Hc. apply list_elem_of_In in Hc.
  apply in_map_iff in Hc as (l & <- & _). reflexivity.
Qed.

Lemma observed_ok_snoc tr e :
  Forall observed_ok tr -> observed_ok e -> Forall observed_ok (tr ++ [e]).
Proof. intros H He. apply Forall_app. split; [exact H|]. repeat constructor. exact He. Qed.

Lemma StatusInv_step t s s' :
  status_step t s = Some s' -> StatusInv s -> StatusInv s'.
Proof.
  unfold status_step. destruct (crashed s) eqn:Hc; [discriminate|].
  destruct (callers s !! t) as [c|] eqn:Hlook; [|discriminate].
  assert (Hlt : t < length (callers s))
    by (apply lookup_lt_Some in Hlook; exact Hlook).
  intros Hstep
    [Hobs [Hcr|[(Hfree & Hidle & Hp)|(Hheld & t0 & c0 & H0 & Hoth & Hph)]]];
    [congruence| |].
  - (* the lock is free: [t] is outside and takes it *)
    assert (Hc_idle : idle c) by (rewrite Forall_lookup in Hidle; eauto).
    unfold idle in Hc_idle. rewrite Hc_idle in Hstep.
    destruct (todo c) as [|r rest]; [discriminate|].
    unfold status_lock in Hstep. rewrite Hfree in Hstep.
    injection Hstep as <-. split.
    { simpl. apply observed_ok_snoc; [exact Hobs|exact I]. }
    right. right. simpl. split; [reflexivity|].
    eexists t, _. split; [apply list_lookup_insert_eq, Hlt|]. split.
    + intros t' c' Hn Hl'. rewrite list_lookup_insert_ne in Hl' by congruence.
      rewrite Forall_lookup in Hidle. eauto.
    + simpl. destruct r; exact Hp.
  - (* the lock is held by [t0] *)
    destruct (decide (t = t0)) as [->|Hn].
    + assert (c0 = c) by congruence. subst c0.
      assert (Hothers : forall c1 (t' : nat) c',
                t' <> t0 -> <[t0 := c1]> (callers s) !! t' = Some c' ->
                idle c').
      { intros c1 t' c' Hn Hl'.
        rewrite list_lookup_insert_ne in Hl' by congruence. eauto. }
      destruct (cpc c) as [|status|status| |] eqn:Hpc; [destruct Hph|..].
      * unfold write_status in Hstep.
        destruct (Mopidy (sworld s)) as [m|] eqn:Hm; simpl in Hstep;
          injection Hstep as <-.
        -- split; [simpl; apply observed_ok_snoc; [exact Hobs|exact I]|].
           right. right. simpl. split; [exact Hheld|].
           eexists t0, _. split; [apply list_lookup_insert_eq, Hlt|].
           split; [apply Hothers|]. simpl. eauto.
        -- split; [simpl; apply observed_ok_snoc; [exact Hobs|exact I]|].
           left. reflexivity.
      * destruct Hph as (m & Hm & Hst).
        assert (Hsw : exists w, status_switch status (sworld s) = Ret tt w /\
                  StatusLock w = StatusLock (sworld s) /\
                  Mopidy w = Mopidy (sworld s) /\
                  Forall observed_ok (trace w) /\
                  forall l, presentation status = Some l -> label w = l).
        { destruct status; simpl; eexists;
            (split; [reflexivity|]); simpl;
            (split; [reflexivity|]); (split; [reflexivity|]);
            (split; [first [exact Hobs
                           |apply observed_ok_snoc; [exact Hobs|exact I]]|]);
            intros l; (intros [= <-] || discriminate); reflexivity. }
        destruct Hsw as (w & Hsw & Hlk & Hmo & Hob & Hlab).
        rewrite Hsw in Hstep. injection Hstep as <-.
        split; [exact Hob|]. right. right. simpl.
        split; [rewrite Hlk; exact Hheld|].
        eexists t0, _. split; [apply list_lookup_insert_eq, Hlt|].
        split; [apply Hothers|]. simpl.
        intros m' l Hm' Hl. rewrite Hmo, Hm in Hm'. injection Hm' as <-.
        apply Hlab. rewrite <- Hst. exact Hl.
      * unfold observe in Hstep.
        destruct (Mopidy (sworld s)) as [m|] eqn:Hm; simpl in Hstep;
          injection Hstep as <-.
        -- split.
           { simpl. apply observed_ok_snoc; [exact Hobs|]. simpl.
             intros l Hl. rewrite <- (Hph m l Hm Hl).
             destruct (label (sworld s)); reflexivity. }
           right. right. simpl. split; [exact Hheld|].
           eexists t0, _. split; [apply list_lookup_insert_eq, Hlt|].
           split; [apply Hothers|]. simpl.
           intros m' l Hm' Hl. apply (Hph m' l); assumption.
        -- split; [exact Hobs|]. right. right. simpl. split; [exact Hheld|].
           eexists t0, _. split; [apply list_lookup_insert_eq, Hlt|].
           split; [apply Hothers|]. simpl. exact Hph.
      * simpl in Hstep. injection Hstep as <-.
        split; [simpl; apply observed_ok_snoc; [exact Hobs|exact I]|].
        right. left. simpl.
        split; [reflexivity|]. split; [|exact Hph].
        rewrite Forall_lookup. intros t' c' Hl'.
        destruct (decide (t' = t0)) as [->|Hn].
        -- rewrite list_lookup_insert_eq in Hl' by exact Hlt.
           injection Hl' as <-. reflexivity.
        -- rewrite list_lookup_insert_ne in Hl' by congruence. eauto.
    + (* another caller: it is outside and the lock is taken *)
      assert (Hc_idle : idle c) by eauto. unfold idle in Hc_idle.
      rewrite Hc_idle in Hstep.
      destruct (todo c) as [|r rest]; [discriminate|].
      unfold status_lock in Hstep. rewrite Hheld in Hstep. discriminate.
Qed.

Lemma status_run_reachable sched : forall s s',
  status_run sched s = Some s' ->
  forall s0, status_reachable s0 s -> status_reachable s0 s'.
Proof.
  induction sched as [|t sched IH]; simpl; intros s s' Hrun s0 Hr.
  - injection Hrun as <-. exact Hr.
  - destruct (status_step t s) as [s1|] eqn:Hstep; [|discriminate].
    apply (IH _ _ Hrun). apply (sreach_step _ _ _ _ Hr Hstep).
Qed.

Lemma StatusInv_reachable w todos s :
  StatusLock w = false -> paired w -> Forall observed_ok (trace w) ->
  status_reachable (status_init w todos) s -> StatusInv s.
Proof.
  intros Hl Hp Ho. induction 1 as [|t s s' _ IH Hstep].
  - apply StatusInv_init; assumption.
  - apply (StatusInv_step _ _ _ Hstep IH).
Qed.

(** What SetStatus keeps of the pairing of status and display.
    SetStatus takes the lock first and releases it last, and writes the
    status in between.  For Connecting,
    Connected and Failed the matching icon and text are put on the
    display inside the same critical section; for NotStarted the switch
    has no case and the display is left as it was.  With any number of
    goroutines calling SetStatus and any number of readers that take
    the lock to look, started from a paired state: whoever is inside
    holds the lock; whenever the lock is free the display shows what
    goes with the stored status; and whatever a reader saw under the
    lock went together -- each of these for every status that has a
    presentation. *)
Theorem SetStatus_pairs_status_and_display :
  (forall status w m, Mopidy w = Some m -> StatusLock w = false ->
     exists w',
       SetStatus status w = Ret tt w' /\
       StatusLock w' = false /\
       Mopidy w' = Some {| Cmd := Cmd m; Status := status |} /\
       trace w' = trace w ++ [EvLock; EvStatus status] ++
                  match presentation status with
                  | Some (icon, text) => [EvGuiStatus icon text]
                  | None => []
                  end ++ [EvUnlock] /\
       label w' = match presentation status with
                  | Some l => l
                  | None => label w
                  end) /\
  (forall status, status <> MopidyNotStarted ->
     exists l, presentation status = Some l) /\
  presentation MopidyNotStarted = None /\
  (forall w todos s,
     StatusLock w = false -> paired w -> Forall observed_ok (trace w) ->
     status_reachable (status_init w todos) s ->
     Forall observed_ok (trace (sworld s)) /\
     (crashed s = false ->
      (forall t c, callers s !! t = Some c -> cpc c <> QIdle ->
         StatusLock (sworld s) = true) /\
      (forall t t' c c', callers s !! t = Some c -> callers s !! t' = Some c' ->
         cpc c <> QIdle -> cpc c' <> QIdle -> t = t') /\
      (StatusLock (sworld s) = false -> paired (sworld s)))).
Proof.
  split; [|split; [|split]].
  - intros status w m. apply SetStatus_alone.
  - intros [] H; [congruence|eauto..].
  - reflexivity.
  - intros w todos s Hl Hp Ho Hr.
    destruct (StatusInv_reachable _ _ _ Hl Hp Ho Hr) as [Hobs Hinv].
    split; [exact Hobs|]. intros Hc.
    destruct Hinv as [Hcr|[(Hfree & Hidle & Hpair)|(Hheld & Hin)]];
      [congruence| |].
    + rewrite Forall_lookup in Hidle. split; [|split; [|auto]].
      * intros t c Hlook Hpc. destruct Hpc. apply (Hidle t c Hlook).
      * intros t t' c c' Hlook _ Hpc _. destruct Hpc. apply (Hidle t c Hlook).
    + destruct Hin as (t0 & c0 & _ & Hoth & _).
      split; [auto|split; [|congruence]].
      intros t t' c c' Hlook Hlook' Hpc Hpc'.
      destruct (decide (t = t0)) as [->|Hn];
        [|destruct Hpc; apply (Hoth t c Hn Hlook)].
      destruct (decide (t' = t0)) as [->|Hn'];
        [reflexivity|destruct Hpc'; apply (Hoth t' c' Hn' Hlook')].
Qed.

Lemma SetStatus_pairs_status_and_display_witness :
  let w := set_Mopidy (Some {| Cmd := None; Status := MopidyNotStarted |})
                      loop_world in
  (exists w',
     SetStatus MopidyConnected w = Ret tt w' /\
     label w' = (STOCK_CONNECT, "Connected to Mopidy.")) /\
  (exists s,
     status_run [0; 0; 0; 0; 1; 1; 1; 0; 0; 0; 0; 1; 1; 1]
       (status_init w [[SetTo MopidyConnected; SetTo MopidyFailed];
                       [Observe; Observe]]) = Some s /\
     crashed s = false /\
     StatusLock (sworld s) = false /\
     paired (sworld s) /\
     Forall observed_ok (trace (sworld s)) /\
     In (EvObserved MopidyConnected STOCK_CONNECT "Connected to Mopidy.")
        (trace (sworld s))).
Proof.
  intros w. split.
  - destruct (proj1 SetStatus_pairs_status_and_display MopidyConnected w
                _ eq_refl eq_refl) as (w' & H1 & _ & _ & _ & H5).
    exists w'. split; [exact H1|exact H5].
  - destruct (status_run [0; 0; 0; 0; 1; 1; 1; 0; 0; 0; 0; 1; 1; 1]
                (status_init w [[SetTo MopidyConnected; SetTo MopidyFailed];
                                [Observe; Observe]]))
      as [s|] eqn:Hrun; [|vm_compute in Hrun; discriminate].
    exists s. split; [reflexivity|].
    assert (Hpaired : paired w) by (intros m l [= <-]; discriminate).
    destruct (proj2 (proj2 (proj2 SetStatus_pairs_status_and_display))
                w _ s eq_refl Hpaired (Forall_nil_2 _)
                (status_run_reachable _ _ _ Hrun _ (sreach_init _)))
      as (Hobs & Hrest).
    assert (Hc : crashed s = false)
      by (vm_compute in Hrun; injection Hrun as <-; reflexivity).
    assert (Hl : StatusLock (sworld s) = false)
      by (vm_compute in Hrun; injection Hrun as <-; reflexivity).
    destruct (Hrest Hc) as (_ & _ & Hp).
    split; [exact Hc|]. split; [exact Hl|]. split; [exact (Hp Hl)|].
    split; [exact Hobs|].
    vm_compute in Hrun. injection Hrun as <-. simpl. tauto.
Defined.



Lemma loop_iteration_order_witness :
  exists s1 s2 s,
    run [inr 0; inr 1; inl []; inl []; inl []]
        (init [[SDo (insert "x" 1%Z)]; [SSendErr "no such file"]] ∅)
      = Some s1 /\
    mainpc s1 = PWrapF (wrapper (insert "x" 1%Z) 0) /\
    main_step [] s1 = Some s2 /\
    store s2 = <["x" := 1%Z]> (store s1) /\
    run [inr 0; inr 1; inl []; inl []; inl []; inl []; inl []; inl [];
         inl []; inl []; inl []; inl []]
        (init [[SDo (insert "x" 1%Z)]; [SSendErr "no such file"]] ∅)
      = Some s /\
    iterations (loop_trace (trace (world s))) /\
    loop_trace (trace (world s)) =
      [EvLoopTest true; EvIteration [];
       EvWorkRecv 0; EvRunF MainThread 0 (insert "x" 1%Z); EvSignal 0;
       EvShowingTest false; EvErrRecv "no such file"; EvShowing true;
       EvDialogShow 0 "no such file" OnNonFatal; EvDisable].
Proof.
  destruct (run [inr 0; inr 1; inl []; inl []; inl []]
                (init [[SDo (insert "x" 1%Z)]; [SSendErr "no such file"]] ∅))
    as [s1|] eqn:Hrun1; [|vm_compute in Hrun1; discriminate].
  assert (Hpc1 : mainpc s1 = PWrapF (wrapper (insert "x" 1%Z) 0))
    by (vm_compute in Hrun1; injection Hrun1 as <-; reflexivity).
  assert (Hh1 : halt s1 = None)
    by (vm_compute in Hrun1; injection Hrun1 as <-; reflexivity).
  destruct (main_step [] s1) as [s2|] eqn:Hstep;
    [|unfold main_step in Hstep; rewrite Hh1, Hpc1 in Hstep; discriminate].
  destruct (run [inr 0; inr 1; inl []; inl []; inl []; inl []; inl []; inl [];
                 inl []; inl []; inl []; inl []]
                (init [[SDo (insert "x" 1%Z)]; [SSendErr "no such file"]] ∅))
    as [s|] eqn:Hrun; [|vm_compute in Hrun; discriminate].
  exists s1, s2, s. split; [reflexivity|]. split; [exact Hpc1|].
  split; [exact Hstep|]. split.
  { destruct (loop_iteration_order _ _ s1 (run_reachable _ _ _ Hrun1))
      as (_ & _ & H).
    destruct (H [] s2 Hstep) as (_ & _ & _ & Hf & _).
    destruct (Hf _ Hpc1) as (Hst & _). exact Hst. }
  split; [reflexivity|]. split.
  { destruct (loop_iteration_order _ _ s (run_reachable _ _ _ Hrun))
      as (_ & H & _).
    apply H. vm_compute in Hrun. injection Hrun as <-. reflexivity. }
  vm_compute in Hrun. injection Hrun as <-. reflexivity.
Defined.

Lemma main_loop_never_waits_witness :
  exists sw se,
    (* at the select on [app.Work]: nothing sent on it, a sender parked
       on [app.Errors] *)
    run [inr 0; inl []; inl []]
        (init [[SSendErr "no such file"]; [SDo (insert "x" 1%Z)]] ∅)
      = Some sw /\
    mainpc sw = PWork /\ Work sw = [] /\
    main_step [] sw = Some (log EvWorkNone (set_mainpc PShowing sw)) /\
    (* at the select on [app.Errors]: nothing sent on it, a sender
       parked on [app.Work] *)
    run [inl []; inl []; inl []; inl []; inr 1]
        (init [[SSendErr "no such file"]; [SDo (insert "x" 1%Z)]] ∅)
      = Some se /\
    mainpc se = PErrors /\ Errors se = [] /\
    main_step [] se = Some (log EvErrNone (set_mainpc PLoop se)) /\
    exists k s', k <= 9 /\
      run (repeat (inl []) (S k)) sw = Some s' /\
      (mainpc s' = PLoop \/ halt s' <> None).
Proof.
  destruct (run [inr 0; inl []; inl []]
                (init [[SSendErr "no such file"]; [SDo (insert "x" 1%Z)]] ∅))
    as [sw|] eqn:Hw; [|vm_compute in Hw; discriminate].
  destruct (run [inl []; inl []; inl []; inl []; inr 1]
                (init [[SSendErr "no such file"]; [SDo (insert "x" 1%Z)]] ∅))
    as [se|] eqn:He; [|vm_compute in He; discriminate].
  assert (Hw1 : halt sw = None /\ mainpc sw = PWork /\ Work sw = [])
    by (vm_compute in Hw; injection Hw as <-; auto).
  assert (He1 : halt se = None /\ mainpc se = PErrors /\ Errors se = [])
    by (vm_compute in He; injection He as <-; auto).
  destruct Hw1 as (Hwh & Hwp & Hwq). destruct He1 as (Heh & Hep & Heq).
  destruct (main_loop_never_waits _ _ sw [] (run_reachable _ _ _ Hw) Hwh)
    as (_ & HW & _ & Hdone).
  destruct (main_loop_never_waits _ _ se [] (run_reachable _ _ _ He) Heh)
    as (_ & _ & HE & _).
  exists sw, se. split; [reflexivity|]. split; [exact Hwp|].
  split; [exact Hwq|]. split; [exact (HW Hwp Hwq)|].
  split; [reflexivity|]. split; [exact Hep|]. split; [exact Heq|].
  split; [exact (HE Hep Heq)|exact Hdone].
Defined.

(** * Further properties *)

(** ** Start-up *)

Lemma startup_Init_failure env evs p h e :
  LookPath env = Ok p -> Current env = Ok h ->
  Load env (userConfigPath h) = Ok tt -> Init env = Err e ->
  startup env evs new_world =
    if existsb (is_response 0) evs
    then Exited 1 (emit (EvExit 1) (emit EvMainQuit (failed_after 4 e)))
    else Waiting (failed_after 4 e).
Proof.
  intros Hp Hh Hl Hi.
  unfold startup, bind, act, Fatal, show_dialog, gtk_Main, bind, act, ret.
  rewrite Hp, Hh. simpl. rewrite Hl, Hi. simpl.
  rewrite (main_events_single (Build_Dialog 0 e OnFatal) evs) by reflexivity.
  simpl. destruct (existsb (is_response 0) evs); reflexivity.
Qed.

(** X1. Start-up gets to the loop exactly when the executable is found, the
    user is known, the configuration loads and the window is built.  It
    then returns the path of the executable, has made its five calls in
    order and none twice, has put up no dialog, and leaves the state the
    loop starts from with the callbacks connected; what the user does
    meanwhile plays no part. *)
Theorem startup_returns_iff_all_succeed
    (env : Env) (evs : list UiEvent) (p : string) (w : World) :
  startup env evs new_world = Ret p w <->
  StartupOk env p /\
  w = fold_left (fun w e => emit e w) startup_calls loop_world.
Proof.
  split.
  - intros H.
    destruct (LookPath env) as [p'|e1] eqn:Hp.
    2:{ destruct (startup_failure_outcome env _ evs (NoExecutable env e1 Hp))
          as (pre & _ & Ho).
        rewrite Ho in H. destruct (existsb _ evs); discriminate. }
    destruct (Current env) as [h|e2] eqn:Hh.
    2:{ destruct (startup_failure_outcome env _ evs (NoUser env p' e2 Hp Hh))
          as (pre & _ & Ho).
        rewrite Ho in H. destruct (existsb _ evs); discriminate. }
    destruct (Load env (userConfigPath h)) as [[]|e3] eqn:Hl.
    2:{ destruct (startup_failure_outcome env _ evs
                    (NoConfig env p' h e3 Hp Hh Hl)) as (pre & _ & Ho).
        rewrite Ho in H. destruct (existsb _ evs); discriminate. }
    destruct (Init env) as [[]|e4] eqn:Hi.
    2:{ rewrite (startup_Init_failure env evs p' h e4 Hp Hh Hl Hi) in H.
        destruct (existsb _ evs); discriminate. }
    unfold startup, bind, act, ret in H. rewrite Hp, Hh in H. simpl in H.
    rewrite Hl, Hi in H. simpl in H. injection H as <- <-.
    split; [apply (startup_ok env p' h); assumption|reflexivity].
  - intros [[h Hp Hh Hl Hi] ->].
    unfold startup, bind, act, ret. rewrite Hp, Hh. simpl.
    rewrite Hl, Hi. reflexivity.
Qed.

Lemma startup_returns_iff_all_succeed_witness :
  startup {| LookPath := Ok "/usr/bin/mopidy"; Current := Ok "/home/u/";
             Load := fun p =>
               if String.eqb p "/home/u/.config/wetsuit/mopidy.conf"
               then Ok tt else Err "no such file";
             Init := Ok tt |}
          [Respond 0] new_world =
    Ret "/usr/bin/mopidy"
        (fold_left (fun w e => emit e w) startup_calls loop_world) /\
  forall p w,
    startup {| LookPath := Ok "/usr/bin/mopidy"; Current := Ok "/";
               Load := fun p =>
                 if String.eqb p "/.config/wetsuit/mopidy.conf"
                 then Err "no such file" else Ok tt;
               Init := Ok tt |}
            [] new_world <> Ret p w.
Proof.
  split.
  - apply (proj2 (startup_returns_iff_all_succeed _ _ _ _)).
    split; [apply (startup_ok _ _ "/home/u/"); reflexivity|reflexivity].
  - intros p w H.
    apply (proj1 (startup_returns_iff_all_succeed _ _ _ _)) in H.
    destruct H as [[h Hp Hh Hl Hi] _]. simpl in Hh. injection Hh as <-.
    vm_compute in Hl. discriminate.
Defined.

(** X2. A failure of [gui.Init] (lines 66-69) is fatal like the three before
    it: after the four calls the Fatal dialog with the error of
    [gui.Init] is shown and [gtk.Main] entered; the process exits with
    status 1 when the dialog is dismissed and waits in that loop until
    then; [ShowAll] is never called and nothing goes to the error
    channel.  ([gui.Init] is taken to have connected no callback when
    it fails.) *)
Theorem gui_Init_failure_is_fatal
    (env : Env) (evs : list UiEvent) (p h : string) (e : error) :
  LookPath env = Ok p -> Current env = Ok h ->
  Load env (userConfigPath h) = Ok tt -> Init env = Err e ->
  let o := startup env evs new_world in
  (In (Respond 0) evs ->
   o = Exited 1 (emit (EvExit 1) (emit EvMainQuit (failed_after 4 e)))) /\
  (~ In (Respond 0) evs -> o = Waiting (failed_after 4 e)) /\
  dialogs (final o) = [Build_Dialog 0 e OnFatal] /\
  connected (final o) = false /\
  ~ In (EvCall MainThread "MainWindow.ShowAll") (trace (final o)) /\
  Forall (fun x => error_path x = false) (trace (final o)).
Proof.
  intros Hp Hh Hl Hi o. unfold o.
  rewrite (startup_Init_failure env evs p h e Hp Hh Hl Hi).
  destruct (existsb (is_response 0) evs) eqn:Hex.
  - split; [reflexivity|]. split.
    { intros Hn. apply existsb_is_response in Hex. contradiction. }
    split; [reflexivity|]. split; [reflexivity|]. split.
    + simpl. intros H. repeat (destruct H as [H|H]; [discriminate|]). exact H.
    + simpl. repeat constructor.
  - split.
    { intros Hin. apply existsb_is_response in Hin. congruence. }
    split; [reflexivity|]. split; [reflexivity|]. split; [reflexivity|]. split.
    + simpl. intros H. repeat (destruct H as [H|H]; [discriminate|]). exact H.
    + simpl. repeat constructor.
Qed.

Lemma gui_Init_failure_is_fatal_witness :
  exists w,
    startup {| LookPath := Ok "/usr/bin/mopidy"; Current := Ok "/";
               Load := fun p =>
                 if String.eqb p "/.config/wetsuit/mopidy.conf"
                 then Ok tt else Err "no such file";
               Init := Err "no display" |}
            [Signal "main-window" "destroy" id; Respond 0] new_world
      = Exited 1 w /\
    dialogs w = [Build_Dialog 0 "no display" OnFatal].
Proof.
  destruct (gui_Init_failure_is_fatal
              {| LookPath := Ok "/usr/bin/mopidy"; Current := Ok "/";
                 Load := fun p =>
                   if String.eqb p "/.config/wetsuit/mopidy.conf"
                   then Ok tt else Err "no such file";
                 Init := Err "no display" |}
              [Signal "main-window" "destroy" id; Respond 0]
              "/usr/bin/mopidy" "/" "no display"
              eq_refl eq_refl eq_refl eq_refl) as (H & _).
  eexists. split; [apply H; right; left; reflexivity|reflexivity].
Defined.

(** ** NonFatal and the dismissal of its dialog *)

Lemma remove_dialog_fresh d ds dlg :
  Forall (fun x => did x < d) ds -> did dlg = d ->
  remove_dialog d (ds ++ [dlg]) = ds.
Proof.
  intros Hlt Hd. unfold remove_dialog. rewrite List.filter_app. simpl.
  rewrite Hd, Nat.eqb_refl. simpl. rewrite app_nil_r.
  induction Hlt as [|x ds Hx _ IH]; [reflexivity|]. simpl.
  destruct (Nat.eqb_spec (did x) d) as [E|_]; [lia|]. simpl. rewrite IH.
  reflexivity.
Qed.

(** X3. NonFatal always returns: it adds one dialog, behind those already on
    screen, and touches neither [ShowingError] nor [Running] nor the
    main level.  Dismissing that dialog undoes it: the dialogs are those
    from before, the dialogs shown earlier keep their place, and
    [ShowingError] is false afterwards whatever it was. *)
Theorem NonFatal_then_dismissal (err : error) (w : World) :
  wf_world w ->
  let d := next_dialog w in
  exists w1 w2,
    NonFatal err w = Ret tt w1 /\
    dialogs w1 = dialogs w ++ [Build_Dialog d err OnNonFatal] /\
    ShowingError w1 = ShowingError w /\ Running w1 = Running w /\
    level w1 = level w /\
    dispatch (Respond d) w1 = Ret tt w2 /\
    dialogs w2 = dialogs w /\ ShowingError w2 = false /\
    Running w2 = Running w /\ level w2 = level w /\
    trace w2 = trace w ++ [EvDialogShow d err OnNonFatal; EvDialogDestroy d;
                           EvShowing false].
Proof.
  intros Hwf d. subst d. eexists _, _. split; [reflexivity|]. simpl.
  rewrite (find_dialog_app_fresh (next_dialog w) (dialogs w)
             (Build_Dialog (next_dialog w) err OnNonFatal) Hwf eq_refl).
  unfold respond, bind, destroy_dialog, act. simpl.
  rewrite (remove_dialog_fresh (next_dialog w) (dialogs w)
             (Build_Dialog (next_dialog w) err OnNonFatal) Hwf eq_refl).
  repeat split; simpl; rewrite <- ?app_assoc; reflexivity.
Qed.

Lemma NonFatal_then_dismissal_witness :
  exists w1 w2,
    NonFatal "second" (shown "first" OnNonFatal loop_world) = Ret tt w1 /\
    dispatch (Respond 1) w1 = Ret tt w2 /\
    dialogs w2 = [Build_Dialog 0 "first" OnNonFatal].
Proof.
  destruct (NonFatal_then_dismissal "second" (shown "first" OnNonFatal loop_world))
    as (w1 & w2 & H1 & _ & _ & _ & _ & H2 & H3 & _).
  - repeat constructor.
  - exists w1, w2. split; [exact H1|]. split; [exact H2|exact H3].
Defined.

(** ** SetStatus on a missing record and on a held lock *)

(** X4. SetStatus before there is a record behind [app.Mopidy] panics at the
    write of line 148; the deferred Unlock still runs, so the lock is
    free afterwards, and nothing was written or displayed.  Called while
    the lock is held it waits at line 145 and has done nothing. *)
Theorem SetStatus_without_record (status : MopidyStatus) (w : World) :
  (Mopidy w = None -> StatusLock w = false ->
   exists w',
     SetStatus status w = Panicked w' /\
     StatusLock w' = false /\ Mopidy w' = None /\ label w' = label w /\
     trace w' = trace w ++ [EvLock; EvUnlock]) /\
  (StatusLock w = true -> SetStatus status w = Waiting w).
Proof.
  split.
  - intros Hm Hl. unfold SetStatus, bind, status_lock, deferred, write_status.
    rewrite Hl. simpl. rewrite Hm. simpl. eexists. split; [reflexivity|].
    simpl. rewrite <- app_assoc. auto.
  - intros Hl. unfold SetStatus, bind, status_lock. rewrite Hl. reflexivity.
Qed.

Lemma SetStatus_without_record_witness :
  (exists w', SetStatus MopidyConnecting loop_world = Panicked w' /\
              StatusLock w' = false) /\
  SetStatus MopidyFailed (set_StatusLock true loop_world)
    = Waiting (set_StatusLock true loop_world).
Proof.
  split.
  - destruct (proj1 (SetStatus_without_record MopidyConnecting loop_world)
                eq_refl eq_refl) as (w' & H & Hl & _).
    exists w'. split; [exact H|exact Hl].
  - apply (proj2 (SetStatus_without_record MopidyFailed
                    (set_StatusLock true loop_world))). reflexivity.
Defined.

(** ** Quit, repeated *)

(** X5. Quit does not look at [Running] and leaves the record as it is: once
    it has returned it returns again when called again, sends the Kill
    again if there is a process, and [Running] stays false.  It changes
    nothing but [Running] and the record of effects. *)
Theorem Quit_again (w w1 : World) :
  Quit w = Ret tt w1 ->
  Mopidy w1 = Mopidy w /\ dialogs w1 = dialogs w /\ level w1 = level w /\
  ShowingError w1 = ShowingError w /\ StatusLock w1 = StatusLock w /\
  label w1 = label w /\
  exists w2 tl,
    Quit w1 = Ret tt w2 /\ Running w2 = false /\
    trace w1 = trace w ++ tl /\ trace w2 = trace w1 ++ tl /\
    Mopidy w2 = Mopidy w.
Proof.
  unfold Quit. destruct (Mopidy w) as [m|] eqn:Hm; [|discriminate].
  destruct (Cmd m) as [c|] eqn:Hc; [|discriminate].
  intros [= <-].
  destruct (Process c) as [p|] eqn:Hp; simpl; rewrite Hm, Hc; simpl;
    rewrite Hp; (repeat (split; [reflexivity|])); eexists _, _;
    (split; [reflexivity|]); simpl; rewrite <- ?app_assoc; simpl;
    repeat split; first [reflexivity|exact Hm].
Qed.

Lemma Quit_again_witness :
  let w := set_Mopidy
             (Some {| Cmd := Some {| Process := Some {| pid := 7 |} |};
                      Status := MopidyConnected |}) loop_world in
  exists w1 w2,
    Quit w = Ret tt w1 /\ Quit w1 = Ret tt w2 /\
    trace w2 = [EvKill {| pid := 7 |}; EvRunning false;
                EvKill {| pid := 7 |}; EvRunning false].
Proof.
  intros w. exists (final (Quit w)).
  destruct (Quit_again w (final (Quit w)) eq_refl)
    as (_ & _ & _ & _ & _ & _ & w2 & tl & H2 & _ & H3 & H4 & _).
  exists w2. split; [reflexivity|]. split; [exact H2|].
  rewrite H4. simpl in H3. rewrite <- H3. reflexivity.
Defined.

(** ** The table of callbacks *)

Lemma callback_of_registered widget signal cb :
  callback_of widget signal = Some cb <-> In (widget, signal, cb) registered.
Proof.
  unfold callback_of, Callbacks, registered. cbv zeta.
  repeat (rewrite lookup_insert; case_decide;
          [subst widget; rewrite lookup_singleton_Some; simpl; split;
           [intros [<- <-]; tauto
           |intros Hin;
            repeat (destruct Hin as [Hin|Hin];
                    [first [discriminate Hin
                           |injection Hin as <- <-; split; reflexivity]|]);
            destruct Hin]
          |]).
  rewrite lookup_empty. simpl. split; [discriminate|].
  intros Hin.
  repeat (destruct Hin as [Hin|Hin]; [injection Hin as <- _ _; congruence|]).
  destruct Hin.
Qed.

(** X6. [Callbacks] registers eight widgets, none twice and each with one
    signal; the window's "destroy" and the quit item's "activate" are
    the two signals, and the only two, that go to [QuitCallback]; a
    widget or a signal that is not in the table has no callback (the
    output window has one for "delete-event" and none for "destroy"). *)
Theorem Callbacks_table (widget signal : string) :
  (callback_of widget signal = Some QuitCallback <->
   (widget = "main-window" /\ signal = "destroy") \/
   (widget = "menu-quit" /\ signal = "activate")) /\
  (forall cb signal' cb',
     callback_of widget signal = Some cb ->
     callback_of widget signal' = Some cb' -> signal' = signal /\ cb' = cb) /\
  (callback_of widget signal = None <->
   forall cb, ~ In (widget, signal, cb) registered) /\
  size Callbacks = 8 /\
  callback_of "output-window" "destroy" = None.
Proof.
  split; [|split; [|split; [|split]]].
  - rewrite callback_of_registered. simpl. split.
    + intros H.
      repeat (destruct H as [H|H];
              [first [discriminate H|injection H as <- <-; tauto]|]).
      destruct H.
    + intros [[-> ->]|[-> ->]]; tauto.
  - intros cb signal' cb'. rewrite !callback_of_registered. simpl.
    intros H H'.
    repeat (destruct H as [H|H];
            [injection H as <- <- <-;
             repeat (destruct H' as [H'|H'];
                     [first [discriminate H'
                            |injection H' as <- <-; split; reflexivity]|]);
             destruct H'|]).
    destruct H.
  - split.
    + intros H cb Hin. apply callback_of_registered in Hin. congruence.
    + intros H. destruct (callback_of widget signal) as [cb|] eqn:E;
        [|reflexivity].
      apply callback_of_registered in E. destruct (H cb E).
  - vm_compute. reflexivity.
  - vm_compute. reflexivity.
Qed.

Lemma Callbacks_table_witness :
  callback_of "menu-quit" "activate" = Some QuitCallback /\
  callback_of "menu-quit" "destroy" = None.
Proof.
  split.
  - apply (proj1 (Callbacks_table "menu-quit" "activate")). right.
    split; reflexivity.
  - apply (proj1 (proj2 (proj2 (Callbacks_table "menu-quit" "destroy")))).
    intros cb H. simpl in H.
    repeat (destruct H as [H|H]; [discriminate H|]). destruct H.
Defined.

(** ** The order in which work is served *)

Lemma sent_app tr tl : sent (tr ++ tl) = sent tr ++ sent tl.
Proof. apply flat_map_app. Qed.
Lemma served_app tr tl : served (tr ++ tl) = served tr ++ served tl.
Proof. apply flat_map_app. Qed.

Lemma sent_toolkit tl :
  Forall (fun x => toolkit_event x = true) tl -> sent tl = [].
Proof.
  induction 1 as [|e tl He _ IH]; [reflexivity|].
  unfold sent in *. simpl. rewrite IH. destruct e; try discriminate; reflexivity.
Qed.
Lemma served_toolkit tl :
  Forall (fun x => toolkit_event x = true) tl -> served tl = [].
Proof.
  induction 1 as [|e tl He _ IH]; [reflexivity|].
  unfold served in *. simpl. rewrite IH.
  destruct e; try discriminate; reflexivity.
Qed.

Lemma ran_served tr : ran tr = map body (served tr).
Proof.
  induction tr as [|e tr IH]; [reflexivity|].
  unfold ran, served in *. simpl. rewrite map_app, IH.
  destruct e; reflexivity.
Qed.

Lemma WorkInv_quiet s s' tl :
  trace (world s') = trace (world s) ++ tl ->
  sent tl = [] -> served tl = [] ->
  Work s' = Work s -> length (chans s') = length (chans s) ->
  in_hand (mainpc s') = in_hand (mainpc s) ->
  WorkInv s -> WorkInv s'.
Proof.
  intros Htr Hs Hv HW Hc Hh [I1 I2]. unfold WorkInv.
  rewrite Htr, sent_app, served_app, Hs, Hv, !app_nil_r, HW, Hc, Hh. auto.
Qed.

Lemma WorkInv_main_step batch s s' :
  main_step batch s = Some s' -> WorkInv s -> WorkInv s'.
Proof.
  unfold main_step, Do_wrapper_f, Do_wrapper_done. intros Hstep Hinv.
  destruct (halt s); [discriminate|].
  destruct (mainpc s) as [| | |w|c| | |e|e| |] eqn:Hpc.
  - destruct (Running (world s)); injection Hstep as <-.
    + apply (WorkInv_quiet s _ [EvLoopTest true]); simpl; rewrite ?Hpc; auto.
    + apply (WorkInv_quiet s _ [EvLoopTest false]); simpl; rewrite ?Hpc; auto.
  - destruct (lift_fields _ _ _ _ Hstep) as (Hw & HW & _ & Hc & _ & _ & Hm).
    destruct (MainIteration_trace batch (emit (EvIteration batch) (world s)))
      as (tl & Htl & Ftl).
    apply (WorkInv_quiet s _ (EvIteration batch :: tl)); auto.
    + rewrite Hw, Htl. simpl. rewrite <- app_assoc. reflexivity.
    + simpl. apply (sent_toolkit _ Ftl).
    + simpl. apply (served_toolkit _ Ftl).
    + rewrite Hc. reflexivity.
    + destruct Hm as [(-> & _)|(-> & _)]; rewrite ?Hpc; reflexivity.
  - destruct (Work s) as [|[t w] q] eqn:HW; injection Hstep as <-.
    + apply (WorkInv_quiet s _ [EvWorkNone]); simpl; rewrite ?Hpc, ?HW; auto.
    + destruct (resume_fields t (set_Work q (set_mainpc (PWrapF w) s)))
        as (Rw & RW & _ & Rc & _ & RM & _).
      destruct Hinv as [I1 I2]. unfold WorkInv. simpl.
      rewrite Rw, RW, Rc, RM. simpl.
      rewrite sent_app, served_app. simpl. rewrite !app_nil_r.
      rewrite I1, Hpc, HW. simpl. rewrite <- I2, I1, Hpc, HW. auto.
  - injection Hstep as <-. destruct Hinv as [I1 I2]. unfold WorkInv. simpl.
    rewrite sent_app, served_app. simpl. rewrite !app_nil_r.
    rewrite I1, Hpc. simpl. rewrite <- I2, I1, Hpc. simpl.
    rewrite <- app_assoc. destruct w; auto.
  - destruct (chans s !! c) as [buf|]; [|discriminate].
    destruct (Nat.ltb (length buf) 1); [|discriminate].
    injection Hstep as <-.
    apply (WorkInv_quiet s _ [EvSignal c]); simpl; rewrite ?Hpc; auto.
    apply length_insert.
  - destruct (ShowingError (world s)); injection Hstep as <-.
    + apply (WorkInv_quiet s _ [EvShowingTest true]); simpl; rewrite ?Hpc; auto.
    + apply (WorkInv_quiet s _ [EvShowingTest false]); simpl; rewrite ?Hpc; auto.
  - destruct (Errors s) as [|[t e] q]; injection Hstep as <-.
    + apply (WorkInv_quiet s _ [EvErrNone]); simpl; rewrite ?Hpc; auto.
    + destruct (resume_fields t (set_Errors q (set_mainpc (PSetShowing e) s)))
        as (Rw & RW & _ & Rc & _ & RM & _).
      apply (WorkInv_quiet s _ [EvErrRecv e]); simpl;
        rewrite ?Rw, ?RW, ?Rc, ?RM, ?Hpc; auto.
  - injection Hstep as <-.
    apply (WorkInv_quiet s _ [EvShowing true]); simpl; rewrite ?Hpc; auto.
  - simpl in Hstep. injection Hstep as <-.
    apply (WorkInv_quiet s _ [EvDialogShow (next_dialog (world s)) e OnNonFatal]);
      simpl; rewrite ?Hpc; auto.
  - injection Hstep as <-.
    apply (WorkInv_quiet s _ [EvDisable]); simpl; rewrite ?Hpc; auto.
  - discriminate.
Qed.

Lemma WorkInv_bg_step t s s' : bg_step t s = Some s' -> WorkInv s -> WorkInv s'.
Proof.
  unfold bg_step, Do_send, Do_receive. intros Hstep Hinv.
  destruct (halt s); [discriminate|].
  destruct (threads s !! t) as [th|]; [|discriminate].
  destruct (tpc th) as [|c|c|]; try discriminate.
  - destruct (prog th) as [|[f|e|name upd] rest]; [discriminate|..];
      injection Hstep as <-.
    + destruct Hinv as [I1 I2]. split; simpl.
      * rewrite sent_app, served_app, map_app. simpl.
        rewrite !app_nil_r, I1, <- !app_assoc. reflexivity.
      * rewrite sent_app, map_app, length_app, I2, List.seq_app. reflexivity.
    + apply (WorkInv_quiet s _ [EvErrSend t e]); simpl; auto.
    + apply (WorkInv_quiet s _ [EvCall (Goroutine t) name]); simpl; auto.
  - destruct (chans s !! c) as [[|b buf]|]; try discriminate.
    injection Hstep as <-.
    apply (WorkInv_quiet s _ [EvDoReturn t c]); simpl; auto.
    apply length_insert.
Qed.

Lemma WorkInv_reachable progs st s : reachable (init progs st) s -> WorkInv s.
Proof.
  induction 1 as [|s s' _ IH Hstep]; [split; reflexivity|].
  destruct Hstep as [batch s s' H|t s s' H].
  - apply (WorkInv_main_step _ _ _ H IH).
  - apply (WorkInv_bg_step _ _ _ H IH).
Qed.

(** X7. Work is served first come, first served, and nothing is lost: the
    wrappers sent on [app.Work] so far, in the order their senders
    parked, are those the main thread has run, in the order it ran
    them, then the one it has received and not yet run, then those
    still parked.  Every call of [Do] has a [done] channel of its own,
    numbered in the order of the sends, and the store is what the
    functions of the wrappers run so far, applied in that order, make
    of the first store. *)
Theorem work_is_served_in_order
    (progs : list (list Stmt)) (st : Store) (s : State) :
  reachable (init progs st) s ->
  sent (trace (world s)) =
    served (trace (world s)) ++ in_hand (mainpc s) ++ map snd (Work s) /\
  map done (sent (trace (world s))) = seq 0 (length (chans s)) /\
  NoDup (map done (sent (trace (world s)))) /\
  store s = apply_all (map body (served (trace (world s)))) st.
Proof.
  intros Hr. destruct (WorkInv_reachable _ _ _ Hr) as [I1 I2].
  split; [exact I1|]. split; [exact I2|]. split.
  - rewrite I2. apply NoDup_ListNoDup, List.seq_NoDup.
  - rewrite <- ran_served. apply (store_ok_reachable _ _ _ Hr).
Qed.

(** ** Progress of the loop *)

(** One step of the main thread with [Running] true, place by place;
    at line 84 [gtk.MainIteration] returns without having run a
    callback. *)
Lemma quiet_main_step progs st s :
  reachable (init progs st) s -> halt s = None ->
  Running (world s) = true ->
  exists s',
    main_step [] s = Some s' /\ halt s' = None /\
    Running (world s') = true /\
    match mainpc s with
    | PLoop => mainpc s' = PIter /\ unchanged s s'
    | PIter => mainpc s' = PWork /\ unchanged s s'
    | PWork =>
        match Work s with
        | [] => mainpc s' = PShowing /\ unchanged s s'
        | (t, w) :: q =>
            mainpc s' = PWrapF w /\ Work s' = q /\ Errors s' = Errors s /\
            pc_of s' t = Some (TDoRecv (done w)) /\
            (forall t', t' <> t -> pc_of s' t' = pc_of s t') /\
            same_dialogs s s'
        end
    | PWrapF w => mainpc s' = PWrapDone (done w) /\ unchanged s s'
    | PWrapDone c => mainpc s' = PShowing /\ unchanged s s'
    | PShowing =>
        mainpc s' = (if ShowingError (world s) then PLoop else PErrors) /\
        unchanged s s'
    | PErrors =>
        match Errors s with
        | [] => mainpc s' = PLoop /\ unchanged s s'
        | (t, e) :: q =>
            mainpc s' = PSetShowing e /\ Errors s' = q /\ Work s' = Work s /\
            pc_of s' t = Some TReady /\
            (forall t', t' <> t -> pc_of s' t' = pc_of s t') /\
            same_dialogs s s'
        end
    | PSetShowing e =>
        mainpc s' = PNonFatal e /\ Work s' = Work s /\ Errors s' = Errors s /\
        threads s' = threads s /\ ShowingError (world s') = true /\
        dialogs (world s') = dialogs (world s) /\
        next_dialog (world s') = next_dialog (world s)
    | PNonFatal e =>
        mainpc s' = PDisable /\ Work s' = Work s /\ Errors s' = Errors s /\
        threads s' = threads s /\ world s' = shown e OnNonFatal (world s)
    | PDisable => mainpc s' = PLoop /\ unchanged s s'
    | PExit => False
    end.
Proof.
  intros Hr Hh Hrun. pose proof (DoInv_reachable _ _ _ Hr) as Hinv.
  pose proof (shaped_reachable _ _ _ Hr) as (past & cur & _ & _ & Hu).
  unfold main_step, Do_wrapper_f, Do_wrapper_done, unchanged, same_dialogs.
  rewrite Hh.
  destruct (mainpc s) as [| | |w|c| | |e|e| |] eqn:Hpc.
  - rewrite Hrun. eexists. split; [reflexivity|]. simpl. repeat split; auto.
  - eexists. split; [reflexivity|]. simpl. repeat split; auto.
  - destruct (Work s) as [|[t w] q] eqn:HW.
    + eexists. split; [reflexivity|]. simpl. repeat split; auto.
    + eexists. split; [reflexivity|].
      destruct (resume_fields t (set_Work q (set_mainpc (PWrapF w) s)))
        as (Rw & RW & RE & _ & _ & RM & Rh).
      assert (Hpk : pc_of s t = Some (TDoParked (done w))).
      { apply (inv_work _ Hinv). rewrite HW. left. reflexivity. }
      apply pc_of_Some in Hpk as (th & Hth & Htpc).
      simpl. rewrite Rw, RW, RE, RM, Rh. simpl.
      split; [exact Hh|]. split; [exact Hrun|].
      split; [reflexivity|]. split; [reflexivity|]. split; [reflexivity|].
      split; [|split; [|auto]].
      * change (pc_of (resume t (set_Work q (set_mainpc (PWrapF w) s))) t
                = Some (TDoRecv (done w))).
        rewrite (pc_of_resume_eq (set_Work q (set_mainpc (PWrapF w) s))
                   t th Hth).
        unfold resumed. rewrite Htpc.
        reflexivity.
      * intros t' Hne.
        change (pc_of (resume t (set_Work q (set_mainpc (PWrapF w) s))) t'
                = pc_of s t').
        rewrite pc_of_resume_ne by congruence. reflexivity.
  - eexists. split; [reflexivity|]. simpl. repeat split; auto.
  - destruct (inv_main _ Hinv c) as [t Ht]; [rewrite Hpc; reflexivity|].
    destruct (inv_recv _ Hinv _ _ Ht) as (f & H). rewrite Hpc in H. simpl in H.
    rewrite Nat.eqb_refl in H. destruct H as [Hb _]. rewrite Hb. simpl.
    eexists. split; [reflexivity|]. simpl. repeat split; auto.
  - destruct (ShowingError (world s)) eqn:Hs; eexists; (split; [reflexivity|]);
      simpl; repeat split; auto.
  - destruct (Errors s) as [|[t e] q] eqn:HE.
    + eexists. split; [reflexivity|]. simpl. repeat split; auto.
    + eexists. split; [reflexivity|].
      destruct (resume_fields t (set_Errors q (set_mainpc (PSetShowing e) s)))
        as (Rw & RW & RE & _ & _ & RM & Rh).
      assert (Hpk : pc_of s t = Some TErrParked).
      { apply (inv_errors _ Hinv _ e). rewrite HE. left. reflexivity. }
      apply pc_of_Some in Hpk as (th & Hth & Htpc).
      simpl. rewrite Rw, RW, RE, RM, Rh. simpl.
      split; [exact Hh|]. split; [exact Hrun|].
      split; [reflexivity|]. split; [reflexivity|]. split; [reflexivity|].
      split; [|split; [|auto]].
      * change (pc_of (resume t (set_Errors q (set_mainpc (PSetShowing e) s))) t
                = Some TReady).
        rewrite (pc_of_resume_eq (set_Errors q (set_mainpc (PSetShowing e) s))
                   t th Hth). unfold resumed. rewrite Htpc.
        reflexivity.
      * intros t' Hne.
        change (pc_of (resume t (set_Errors q (set_mainpc (PSetShowing e) s))) t'
                = pc_of s t').
        rewrite pc_of_resume_ne by congruence. reflexivity.
  - eexists. split; [reflexivity|]. simpl. repeat split; auto.
  - eexists. split; [reflexivity|]. simpl. repeat split; auto.
  - eexists. split; [reflexivity|]. simpl. repeat split; auto.
  - rewrite Hh in Hu. inversion Hu.
Qed.

Lemma run_idle_S m s :
  run (repeat (inl []) (S m)) s =
  match main_step [] s with
  | Some s' => run (repeat (inl []) m) s'
  | None => None
  end.
Proof. reflexivity. Qed.

(** The main thread, with every [gtk.MainIteration] returning without
    a callback, gets to the wrapper of the [k]-th parked sender. *)
Lemma reaches_wrapper progs st : forall n s k t w,
  10 * k + to_work (mainpc s) <= n ->
  reachable (init progs st) s -> halt s = None ->
  Running (world s) = true ->
  Work s !! k = Some (t, w) ->
  exists m s',
    m <= S n /\ run (repeat (inl []) m) s = Some s' /\
    halt s' = None /\ mainpc s' = PWrapF w /\
    pc_of s' t = Some (TDoRecv (done w)).
Proof.
  induction n as [|n IH]; intros s k t w Hn Hr Hh Hrun Hk;
    destruct (quiet_main_step _ _ _ Hr Hh Hrun) as (s1 & H1 & Hh1 & Hrun1 & Hc);
    assert (Hr1 : reachable (init progs st) s1)
      by (apply (reach_step _ s); [exact Hr|apply (step_main []), H1]).
  - destruct (mainpc s) eqn:Hpc; simpl in Hn; try lia.
    destruct k; [|lia]. destruct (Work s) as [|[t0 w0] q]; [discriminate|].
    injection Hk as -> ->. destruct Hc as (Hp1 & _ & _ & Ht & _).
    exists 1, s1. rewrite run_idle_S, H1. auto.
  - assert (Hgo : forall k',
              10 * k' + to_work (mainpc s1) <= n -> Work s1 !! k' = Some (t, w) ->
              exists m s', m <= S (S n) /\ run (repeat (inl []) m) s = Some s' /\
                halt s' = None /\ mainpc s' = PWrapF w /\
                pc_of s' t = Some (TDoRecv (done w))).
    { intros k' Hn' Hk'.
      destruct (IH s1 k' t w Hn' Hr1 Hh1 Hrun1 Hk')
        as (m & s' & Hm & Hrun' & Hrest).
      exists (S m), s'. split; [lia|]. rewrite run_idle_S, H1. auto. }
    destruct (mainpc s) eqn:Hpc; simpl in Hn.
    + destruct Hc as (Hp1 & HW & _).
      apply (Hgo k); rewrite ?Hp1, ?HW; simpl; auto; lia.
    + destruct Hc as (Hp1 & HW & _).
      apply (Hgo k); rewrite ?Hp1, ?HW; simpl; auto; lia.
    + destruct (Work s) as [|[t0 w0] q]; [discriminate|].
      destruct Hc as (Hp1 & HW & _ & Ht & _).
      destruct k as [|k].
      * injection Hk as -> ->. exists 1, s1. rewrite run_idle_S, H1.
        split; [lia|]. auto.
      * apply (Hgo k); rewrite ?Hp1, ?HW; simpl; auto; lia.
    + destruct Hc as (Hp1 & HW & _).
      apply (Hgo k); rewrite ?Hp1, ?HW; simpl; auto; lia.
    + destruct Hc as (Hp1 & HW & _).
      apply (Hgo k); rewrite ?Hp1, ?HW; simpl; auto; lia.
    + destruct Hc as (Hp1 & HW & _). apply (Hgo k); rewrite ?Hp1, ?HW; auto.
      destruct (ShowingError (world s)); simpl; lia.
    + destruct (Errors s) as [|[t0 e0] q].
      * destruct Hc as (Hp1 & HW & _).
        apply (Hgo k); rewrite ?Hp1, ?HW; simpl; auto; lia.
      * destruct Hc as (Hp1 & _ & HW & _).
        apply (Hgo k); rewrite ?Hp1, ?HW; simpl; auto; lia.
    + destruct Hc as (Hp1 & HW & _).
      apply (Hgo k); rewrite ?Hp1, ?HW; simpl; auto; lia.
    + destruct Hc as (Hp1 & HW & _).
      apply (Hgo k); rewrite ?Hp1, ?HW; simpl; auto; lia.
    + destruct Hc as (Hp1 & HW & _).
      apply (Hgo k); rewrite ?Hp1, ?HW; simpl; auto; lia.
    + destruct Hc.
Qed.

(** From the wrapper to the return of [Do]: the main thread runs [f]
    and signals, the caller takes the signal. *)
Lemma wrapper_completes progs st s t w :
  reachable (init progs st) s -> halt s = None ->
  mainpc s = PWrapF w -> pc_of s t = Some (TDoRecv (done w)) ->
  exists s',
    run [inl []; inl []; inr t] s = Some s' /\
    halt s' = None /\ pc_of s' t = Some TReady /\
    store s' = body w (store s) /\
    trace (world s') =
      trace (world s) ++ [EvRunF MainThread (done w) (body w);
                          EvSignal (done w); EvDoReturn t (done w)].
Proof.
  intros Hr Hh Hpc Ht.
  assert (H1 : main_step [] s = Some (Do_wrapper_f w s)).
  { unfold main_step. rewrite Hh, Hpc. reflexivity. }
  assert (Hr1 : reachable (init progs st) (Do_wrapper_f w s)).
  { apply (reach_step _ s); [exact Hr|apply (step_main []), H1]. }
  pose proof (DoInv_reachable _ _ _ Hr1) as Hinv1.
  destruct (inv_recv _ Hinv1 t (done w) Ht) as (f & Hf).
  simpl in Hf. rewrite Nat.eqb_refl in Hf. destruct Hf as [Hb _].
  simpl in Hb.
  apply pc_of_Some in Ht as (th & Hth & Htpc).
  assert (Hlt : t < length (threads s)) by (apply lookup_lt_Some in Hth; exact Hth).
  assert (Hc : done w < length (chans s)) by (apply lookup_lt_Some in Hb; exact Hb).
  eexists. split.
  - simpl. rewrite H1. unfold main_step, Do_wrapper_f, Do_wrapper_done. simpl.
    rewrite Hh, Hb. simpl. unfold bg_step, Do_receive. simpl.
    rewrite Hh, Hth, Htpc. rewrite list_lookup_insert_eq by exact Hc.
    reflexivity.
  - simpl. split; [exact Hh|]. split.
    + unfold pc_of. simpl. rewrite list_lookup_insert_eq by exact Hlt.
      reflexivity.
    + split; [reflexivity|]. rewrite <- !app_assoc. reflexivity.
Qed.

(** X8. [Do] returns: whenever a caller is parked in the send of line 136,
    at whatever place [k] in the queue and wherever the main thread is,
    with [Running] true and every call of [gtk.MainIteration] returning
    without having run a callback, the main thread alone gets to the
    caller's wrapper within [10 * k + 10] steps, runs [f] and signals;
    the caller then takes the signal and is past [Do], with the effect
    of [f] in the store. *)
Theorem Do_returns
    (progs : list (list Stmt)) (st : Store) (s : State) (k t : nat) (w : Closure) :
  reachable (init progs st) s -> halt s = None ->
  Running (world s) = true ->
  Work s !! k = Some (t, w) ->
  exists m s1 s',
    m <= 10 * k + 10 /\
    run (repeat (inl []) m) s = Some s1 /\ mainpc s1 = PWrapF w /\
    run [inl []; inl []; inr t] s1 = Some s' /\
    run (repeat (inl []) m ++ [inl []; inl []; inr t]) s = Some s' /\
    halt s' = None /\ pc_of s' t = Some TReady /\
    store s' = body w (store s1) /\
    trace (world s') =
      trace (world s1) ++ [EvRunF MainThread (done w) (body w);
                           EvSignal (done w); EvDoReturn t (done w)].
Proof.
  intros Hr Hh Hrun Hk.
  destruct (reaches_wrapper progs st (10 * k + to_work (mainpc s)) s k t w
              (le_n _) Hr Hh Hrun Hk) as (m & s1 & Hm & Hrun1 & Hh1 & Hpc1 & Ht1).
  assert (Hr1 : reachable (init progs st) s1).
  { apply (reachable_trans _ s); [exact Hr|apply (run_reachable _ _ _ Hrun1)]. }
  destruct (wrapper_completes _ _ _ _ _ Hr1 Hh1 Hpc1 Ht1)
    as (s' & Hrun' & Hh' & Ht' & Hst & Htr).
  exists m, s1, s'. split.
  { assert (to_work (mainpc s) <= 9); [|lia].
    destruct (mainpc s) eqn:Hpc; simpl; try lia.
    pose proof (shaped_reachable _ _ _ Hr) as (past & cur & _ & _ & Hu).
    rewrite Hh, Hpc in Hu. inversion Hu. }
  split; [exact Hrun1|]. split; [exact Hpc1|]. split; [exact Hrun'|].
  split; [rewrite run_app, Hrun1; exact Hrun'|]. auto.
Qed.

Lemma Do_returns_witness :
  exists m s',
    m <= 20 /\
    run (repeat (inl []) m ++ [inl []; inl []; inr 0])
        (Do_send 0 (insert "y" 2%Z) []
           (Do_send 1 (insert "x" 1%Z) []
              (init [[SDo (insert "y" 2%Z)]; [SDo (insert "x" 1%Z)]] ∅)))
      = Some s' /\
    pc_of s' 0 = Some TReady.
Proof.
  pose (s0 := init [[SDo (insert "y" 2%Z)]; [SDo (insert "x" 1%Z)]]
                   (∅ : Store)).
  assert (Hr : reachable s0 (Do_send 0 (insert "y" 2%Z) []
                               (Do_send 1 (insert "x" 1%Z) [] s0))).
  { apply (run_reachable [inr 1; inr 0]). reflexivity. }
  destruct (Do_returns _ _ _ 1 0 (wrapper (insert "y" 2%Z) 1)
              Hr eq_refl eq_refl eq_refl)
    as (m & s1 & s' & Hm & _ & _ & _ & Hrun' & _ & Ht & _).
  exists m, s'. split; [exact Hm|]. split; [exact Hrun'|exact Ht].
Defined.

(** ** Errors: who waits for whom *)




(** X10. A sender parked on [app.Errors] stays parked until the main thread
    takes its error at line 98, which it only does with no error
    showing and no dialog on screen, and with that sender first in
    line: no other step lets it go on. *)
Theorem error_sender_waits_for_the_loop
    (progs : list (list Stmt)) (st : Store) (s s' : State) (t : nat) :
  reachable (init progs st) s -> step s s' ->
  pc_of s t = Some TErrParked -> pc_of s' t <> Some TErrParked ->
  mainpc s = PErrors /\ ShowingError (world s) = false /\
  dialogs (world s) = [] /\
  exists e q,
    Errors s = (t, e) :: q /\ Errors s' = q /\
    mainpc s' = PSetShowing e /\ pc_of s' t = Some TReady.
Proof.
  intros Hr Hstep Ht Hn.
  pose proof (DoInv_reachable _ _ _ Hr) as Hinv.
  pose proof (ErrInv_reachable _ _ _ Hr) as Herr.
  destruct Hstep as [batch s s' Hstep|t' s s' Hstep].
  - unfold main_step, Do_wrapper_f, Do_wrapper_done in Hstep.
    destruct (halt s); [discriminate|].
    destruct (mainpc s) as [| | |w|c| | |e|e| |] eqn:Hpc;
      try (destruct (lift_fields _ _ _ _ Hstep) as (_ & _ & _ & _ & _ & HT & _);
           unfold pc_of in *; rewrite HT in Hn; contradiction).
    + destruct (Running (world s)); injection Hstep as <-; contradiction.
    + destruct (Work s) as [|[t0 w] q] eqn:HW; injection Hstep as <-;
        [contradiction|].
      assert (Hpk : pc_of s t0 = Some (TDoParked (done w))).
      { apply (inv_work _ Hinv). rewrite HW. left. reflexivity. }
      destruct Hn.
      change (pc_of (resume t0 (set_Work q (set_mainpc (PWrapF w) s))) t
              = Some TErrParked).
      rewrite pc_of_resume_ne by congruence. exact Ht.
    + injection Hstep as <-. contradiction.
    + destruct (chans s !! c) as [buf|]; [|discriminate].
      destruct (Nat.ltb (length buf) 1); [|discriminate].
      injection Hstep as <-. contradiction.
    + destruct (ShowingError (world s)); injection Hstep as <-; contradiction.
    + destruct (Errors s) as [|[t0 e] q] eqn:HE; injection Hstep as <-;
        [contradiction|].
      destruct (decide (t0 = t)) as [->|Hne].
      * assert (Hs : ShowingError (world s) = false).
        { apply (err_guard _ Herr e). left. exact Hpc. }
        split; [reflexivity|]. split; [exact Hs|]. split.
        { destruct (err_dialogs _ Herr) as [[H|(d & x & _ & H)] _];
            [exact H|congruence]. }
        exists e, q.
        destruct (resume_fields t (set_Errors q (set_mainpc (PSetShowing e) s)))
          as (_ & _ & RE & _ & _ & RM & _).
        split; [reflexivity|]. split; [exact RE|]. split; [exact RM|].
        apply pc_of_Some in Ht as (th & Hth & Htpc).
        change (pc_of (resume t (set_Errors q (set_mainpc (PSetShowing e) s))) t
                = Some TReady).
        rewrite (pc_of_resume_eq (set_Errors q (set_mainpc (PSetShowing e) s))
                   t th Hth).
        unfold resumed. rewrite Htpc. reflexivity.
      * destruct Hn.
        change (pc_of (resume t0 (set_Errors q (set_mainpc (PSetShowing e) s))) t
                = Some TErrParked).
        rewrite pc_of_resume_ne by congruence. exact Ht.
    + injection Hstep as <-. contradiction.
    + injection Hstep as <-. contradiction.
    + discriminate.
  - unfold bg_step, Do_send, Do_receive in Hstep.
    destruct (halt s); [discriminate|].
    destruct (threads s !! t') as [th|] eqn:Hth; [|discriminate].
    assert (Hne : t' <> t).
    { intros ->. unfold pc_of in Ht. rewrite Hth in Ht. simpl in Ht.
      injection Ht as Ht. rewrite Ht in Hstep. discriminate. }
    destruct Hn.
    destruct (tpc th) as [|c|c|]; try discriminate.
    + destruct (prog th) as [|[f|e|name upd] rest]; [discriminate|..];
        injection Hstep as <-; unfold pc_of in *; simpl;
        rewrite list_lookup_insert_ne by exact Hne; exact Ht.
    + destruct (chans s !! c) as [[|b buf]|]; try discriminate.
      injection Hstep as <-. unfold pc_of in *. simpl.
      rewrite list_lookup_insert_ne by exact Hne. exact Ht.
Qed.

(** ** How the loop ends *)















(** ** The done channel *)

(** X12. The buffer of a [done] channel holds nothing or the one [true] of
    line 138, and it holds that value exactly while its caller is at
    the receive of line 140 with [f] run and the signal sent: whenever
    the caller is at that receive and the main thread is not inside the
    caller's wrapper, the value is there.  The main thread finds the
    buffer empty whenever it is about to signal, so the send of line
    138 never waits. *)
Theorem done_holds_at_most_one
    (progs : list (list Stmt)) (st : Store) (s : State) (c : nat)
    (buf : list bool) :
  reachable (init progs st) s ->
  chans s !! c = Some buf ->
  (buf = [] \/ buf = [true]) /\
  (buf = [true] <->
   exists t f,
     pc_of s t = Some (TDoRecv c) /\
     proj c (trace (world s)) = take 4 (canon t c f)) /\
  (buf = [true] <->
   exists t,
     pc_of s t = Some (TDoRecv c) /\ main_call (mainpc s) <> Some c) /\
  (main_call (mainpc s) = Some c -> buf = []).
Proof.
  intros Hr Hb. pose proof (DoInv_reachable _ _ _ Hr) as Hinv.
  assert (Hlt : c < length (chans s)) by (apply lookup_lt_Some in Hb; exact Hb).
  assert (Hphase : main_call (mainpc s) <> Some c ->
                   main_phase (mainpc s) c = 0).
  { destruct (mainpc s) as [| | |w|c'| | |e|e| |]; simpl; try reflexivity.
    - destruct (Nat.eqb_spec (done w) c) as [->|_]; [congruence|reflexivity].
    - destruct (Nat.eqb_spec c' c) as [->|_]; [congruence|reflexivity]. }
  (* what a caller at the receive implies, by the place of the main thread *)
  assert (Hrecv : forall t, pc_of s t = Some (TDoRecv c) ->
            (main_call (mainpc s) <> Some c /\ buf = [true] /\
             exists f, proj c (trace (world s)) = take 4 (canon t c f)) \/
            (main_call (mainpc s) = Some c /\ buf = [] /\
             exists f k, k < 4 /\
               proj c (trace (world s)) = take k (canon t c f))).
  { intros t Ht. destruct (inv_recv _ Hinv _ _ Ht) as (f & H).
    destruct (main_phase (mainpc s) c) as [|[|[|n]]] eqn:Hph.
    - destruct H as (Hn & Hq). left.
      split; [intros Hm; apply main_call_phase in Hm; lia|].
      split; [congruence|eauto].
    - destruct H as (Hn & Hq & _). right.
      assert (Hm : main_call (mainpc s) = Some c).
      { destruct (decide (main_call (mainpc s) = Some c)) as [E|E];
          [exact E|].
        discriminate (Hphase E). }
      split; [exact Hm|]. split; [congruence|]. exists f, 2. auto.
    - destruct H as (Hn & Hq). right.
      assert (Hm : main_call (mainpc s) = Some c).
      { destruct (decide (main_call (mainpc s) = Some c)) as [E|E];
          [exact E|].
        discriminate (Hphase E). }
      split; [exact Hm|]. split; [congruence|]. exists f, 3. auto.
    - destruct H as (Hn & Hq). left.
      split; [intros Hm; apply main_call_phase in Hm; lia|].
      split; [congruence|eauto]. }
  (* without a caller at the receive the buffer is empty *)
  assert (Hnone : buf = [true] -> exists t, pc_of s t = Some (TDoRecv c)).
  { intros ->.
    destruct (inv_done _ Hinv c Hlt) as [[t [Ht|Ht]]|(t & f & Hq & Hn)];
      [|eauto|congruence].
    destruct (inv_parked _ Hinv _ _ Ht) as (f & Hn & _). congruence. }
  assert (Hshape : buf = [] \/ buf = [true]).
  { destruct (inv_done _ Hinv c Hlt) as [[t [Ht|Ht]]|(t & f & Hq & Hn)].
    - destruct (inv_parked _ Hinv _ _ Ht) as (f & Hn & _). left. congruence.
    - destruct (Hrecv t Ht) as [(_ & H & _)|(_ & H & _)]; auto.
    - left. congruence. }
  split; [exact Hshape|]. split; [|split].
  - split.
    + intros Ht. destruct (Hnone Ht) as (t & Hpc).
      destruct (Hrecv t Hpc) as [(_ & _ & f & Hq)|(_ & Hn & _)];
        [eauto|congruence].
    + intros (t & f & Hpc & Hq).
      destruct (Hrecv t Hpc) as [(_ & H & _)|(_ & _ & f' & k & Hk & Hq')];
        [exact H|].
      rewrite Hq in Hq'. apply (f_equal (@length Event)) in Hq'.
      simpl in Hq'. do 4 (destruct k as [|k]; [discriminate|]). lia.
  - split.
    + intros Ht. destruct (Hnone Ht) as (t & Hpc). exists t.
      split; [exact Hpc|].
      destruct (Hrecv t Hpc) as [(H & _)|(_ & Hn & _)]; [exact H|congruence].
    + intros (t & Hpc & Hm).
      destruct (Hrecv t Hpc) as [(_ & H & _)|(H & _)]; [exact H|contradiction].
  - intros Hm. destruct Hshape as [H|H]; [exact H|].
    destruct (Hnone H) as (t & Hpc).
    destruct (Hrecv t Hpc) as [(Hn & _)|(_ & Hn & _)]; [contradiction|exact Hn].
Qed.

Lemma done_holds_at_most_one_witness :
  exists s,
    run [inr 0; inl []; inl []; inl []; inl []; inl []]
        (init [[SDo (insert "x" 1%Z)]] ∅) = Some s /\
    chans s !! 0 = Some [true] /\
    pc_of s 0 = Some (TDoRecv 0).
Proof.
  destruct (run [inr 0; inl []; inl []; inl []; inl []; inl []]
                (init [[SDo (insert "x" 1%Z)]] ∅))
    as [s|] eqn:Hrun; [|vm_compute in Hrun; discriminate].
  exists s. split; [reflexivity|].
  assert (Hb : chans s !! 0 = Some [true])
    by (vm_compute in Hrun; injection Hrun as <-; reflexivity).
  split; [exact Hb|].
  destruct (done_holds_at_most_one _ _ _ 0 [true] (run_reachable _ _ _ Hrun) Hb)
    as (_ & H & _).
  destruct (proj1 H eq_refl) as (t & f & Ht & _).
  assert (Ht0 : t = 0).
  { vm_compute in Hrun. injection Hrun as <-. unfold pc_of in Ht. simpl in Ht.
    destruct t as [|t]; [reflexivity|]. destruct t; discriminate. }
  subst t. exact Ht.
Defined.

Lemma work_is_served_in_order_witness :
  exists s,
    run [inr 1; inr 0; inl []; inl []; inl []; inl []; inl []; inl []; inl [];
         inl []; inl []; inl []; inl []]
        (init [[SDo (insert "x" 1%Z)]; [SDo (insert "x" 2%Z)]] ∅) = Some s /\
    map done (served (trace (world s))) = [0; 1] /\
    store s = apply_all (map body (served (trace (world s)))) ∅ /\
    store s !! "x" = Some 1%Z.
Proof.
  destruct (run [inr 1; inr 0; inl []; inl []; inl []; inl []; inl []; inl [];
                 inl []; inl []; inl []; inl []; inl []]
                (init [[SDo (insert "x" 1%Z)]; [SDo (insert "x" 2%Z)]] ∅))
    as [s|] eqn:Hrun; [|vm_compute in Hrun; discriminate].
  exists s. split; [reflexivity|].
  destruct (work_is_served_in_order _ _ _ (run_reachable _ _ _ Hrun))
    as (_ & _ & _ & Hst).
  split; [|split; [exact Hst|]];
    vm_compute in Hrun; injection Hrun as <-; reflexivity.
Defined.

Lemma error_sender_waits_for_the_loop_witness :
  exists s s',
    run [inr 0; inl []; inl []; inl []; inl []]
        (init [[SSendErr "no such file"]] ∅) = Some s /\
    main_step [] s = Some s' /\
    mainpc s = PErrors /\ ShowingError (world s) = false /\
    pc_of s' 0 = Some TReady.
Proof.
  destruct (run [inr 0; inl []; inl []; inl []; inl []]
                (init [[SSendErr "no such file"]] ∅))
    as [s|] eqn:Hrun; [|vm_compute in Hrun; discriminate].
  destruct (main_step [] s) as [s'|] eqn:Hstep;
    [|vm_compute in Hrun; injection Hrun as <-; vm_compute in Hstep;
      discriminate].
  exists s, s'. split; [reflexivity|]. split; [exact Hstep|].
  destruct (error_sender_waits_for_the_loop _ _ s s' 0
              (run_reachable _ _ _ Hrun) (step_main _ _ _ Hstep))
    as (Hpc & Hs & _ & e & q & _ & _ & _ & Ht).
  - vm_compute in Hrun. injection Hrun as <-. reflexivity.
  - vm_compute in Hrun. injection Hrun as <-.
    vm_compute in Hstep. injection Hstep as <-. discriminate.
  - auto.
Defined.

(** ** The start-up goroutine and the error it reports *)

Lemma not_in_snoc {A} (x e : A) l : ~ In x l -> x <> e -> ~ In x (l ++ [e]).
Proof.
  intros Hn Hne H. apply in_app_or in H as [H|[H|[]]]; [auto|congruence].
Qed.

Lemma not_in_toolkit t tr tl :
  ~ In (start_call t) tr -> Forall (fun x => toolkit_event x = true) tl ->
  ~ In (start_call t) (tr ++ tl).
Proof.
  intros Hn Htl H. apply in_app_or in H as [H|H]; [auto|].
  rewrite List.Forall_forall in Htl. apply Htl in H. discriminate.
Qed.

(** A step that leaves goroutine [t] and the error queue alone and
    records one event, not the call of line 79. *)
Lemma Reported_plain t err sm s s' e :
  trace (world s') = trace (world s) ++ [e] -> e <> start_call t ->
  threads s' !! t = threads s !! t ->
  (forall x, In x (Errors s) -> In x (Errors s')) ->
  Reported t err sm s -> Reported t err sm s'.
Proof.
  intros Htr He Hth HE [th H1 H2 H3 H4|th H1 H2 H3 H4|l1 l2 H1 H2].
  - apply (rep_before _ _ _ _ th); try assumption; [congruence|].
    rewrite Htr. apply not_in_snoc; [exact H4|congruence].
  - apply (rep_parked _ _ _ _ th); try assumption; [congruence|auto|].
    rewrite Htr. apply not_in_snoc; [exact H4|congruence].
  - apply (rep_taken _ _ _ _ l1 (l2 ++ [e])); [|exact H2].
    rewrite Htr, H1, <- app_assoc. reflexivity.
Qed.

Lemma resume_other t0 t s th :
  threads s !! t = Some th -> tpc th = TReady \/ t0 <> t ->
  threads (resume t0 s) !! t = Some th.
Proof.
  intros Hth Hc. unfold resume.
  destruct (threads s !! t0) as [th0|] eqn:H0; [|exact Hth]. simpl.
  destruct (decide (t0 = t)) as [->|Hne].
  - destruct Hc as [Hc|Hc]; [|contradiction].
    assert (th0 = th) by congruence. subst th0.
    rewrite list_lookup_insert_eq by (apply lookup_lt_Some in Hth; exact Hth).
    unfold resumed. rewrite Hc. reflexivity.
  - rewrite list_lookup_insert_ne by exact Hne. exact Hth.
Qed.

Ltac rep_plain s ev :=
  apply (Reported_plain _ _ _ s _ ev); simpl;
  [reflexivity|discriminate|reflexivity|auto|assumption].

Lemma Reported_main_step t err sm batch s s' :
  DoInv s -> main_step batch s = Some s' ->
  Reported t err sm s -> Reported t err sm s'.
Proof.
  unfold main_step, Do_wrapper_f, Do_wrapper_done. intros Hinv Hstep Hrep.
  destruct (halt s); [discriminate|].
  destruct (mainpc s) as [| | |w|c| | |e|e| |] eqn:Hpc.
  - destruct (Running (world s)); injection Hstep as <-.
    + rep_plain s (EvLoopTest true).
    + rep_plain s (EvLoopTest false).
  - destruct (lift_fields _ _ _ _ Hstep) as (Hw & _ & HE & _ & _ & HT & _).
    destruct (MainIteration_trace batch (emit (EvIteration batch) (world s)))
      as (tl & Htl & Ftl).
    simpl in Htl.
    destruct Hrep as [th H1 H2 H3 H4|th H1 H2 H3 H4|l1 l2 H1 H2].
    + apply (rep_before _ _ _ _ th); try assumption; [congruence|].
      rewrite Hw, Htl. apply not_in_toolkit; [|exact Ftl].
      apply not_in_snoc; [exact H4|discriminate].
    + apply (rep_parked _ _ _ _ th); try assumption; [congruence|congruence|].
      rewrite Hw, Htl. apply not_in_toolkit; [|exact Ftl].
      apply not_in_snoc; [exact H4|discriminate].
    + apply (rep_taken _ _ _ _ l1 (l2 ++ [EvIteration batch] ++ tl)); [|exact H2].
      rewrite Hw, Htl, H1, <- !app_assoc. reflexivity.
  - destruct (Work s) as [|[t0 w] q] eqn:HW; injection Hstep as <-.
    + rep_plain s EvWorkNone.
    + assert (Hpk : pc_of s t0 = Some (TDoParked (done w))).
      { apply (inv_work _ Hinv). rewrite HW. left. reflexivity. }
      apply pc_of_Some in Hpk as (th0 & Hth0 & Htpc0).
      destruct (resume_fields t0 (set_Work q (set_mainpc (PWrapF w) s)))
        as (Rw & _ & RE & _).
      destruct Hrep as [th H1 H2 H3 H4|th H1 H2 H3 H4|l1 l2 H1 H2].
      * apply (rep_before _ _ _ _ th); try assumption.
        -- apply (resume_other t0 t (set_Work q (set_mainpc (PWrapF w) s)) th);
             [exact H1|left; exact H2].
        -- simpl. rewrite Rw. simpl. apply not_in_snoc; [exact H4|discriminate].
      * apply (rep_parked _ _ _ _ th); try assumption.
        -- apply (resume_other t0 t (set_Work q (set_mainpc (PWrapF w) s)) th);
             [exact H1|right; congruence].
        -- simpl. rewrite RE. exact H3.
        -- simpl. rewrite Rw. simpl. apply not_in_snoc; [exact H4|discriminate].
      * apply (rep_taken _ _ _ _ l1 (l2 ++ [EvWorkRecv (done w)])); [|exact H2].
        simpl. rewrite Rw. simpl. rewrite H1, <- app_assoc. reflexivity.
  - injection Hstep as <-. rep_plain s (EvRunF MainThread (done w) (body w)).
  - destruct (chans s !! c) as [buf|]; [|discriminate].
    destruct (Nat.ltb (length buf) 1); [|discriminate].
    injection Hstep as <-. rep_plain s (EvSignal c).
  - destruct (ShowingError (world s)); injection Hstep as <-.
    + rep_plain s (EvShowingTest true).
    + rep_plain s (EvShowingTest false).
  - destruct (Errors s) as [|[t0 e] q] eqn:HE; injection Hstep as <-.
    + rep_plain s EvErrNone.
    + assert (Hpk : pc_of s t0 = Some TErrParked).
      { apply (inv_errors _ Hinv _ e). rewrite HE. left. reflexivity. }
      apply pc_of_Some in Hpk as (th0 & Hth0 & Htpc0).
      destruct (resume_fields t0 (set_Errors q (set_mainpc (PSetShowing e) s)))
        as (Rw & _ & RE & _).
      destruct Hrep as [th H1 H2 H3 H4|th H1 H2 H3 H4|l1 l2 H1 H2].
      * apply (rep_before _ _ _ _ th); try assumption.
        -- apply (resume_other t0 t (set_Errors q (set_mainpc (PSetShowing e) s)) th);
             [exact H1|left; exact H2].
        -- simpl. rewrite Rw. simpl. apply not_in_snoc; [exact H4|discriminate].
      * destruct (decide (t0 = t)) as [->|Hne].
        -- assert (e = err).
           { apply (nodup_fst_functional (Errors s) t);
               [apply (inv_errors_nodup _ Hinv)|rewrite HE; left; reflexivity
               |exact H3]. }
           subst e.
           apply (rep_taken _ _ _ _ (trace (world s)) []); [|exact H4].
           simpl. rewrite Rw. reflexivity.
        -- apply (rep_parked _ _ _ _ th); try assumption.
           ++ apply (resume_other t0 t
                       (set_Errors q (set_mainpc (PSetShowing e) s)) th);
                [exact H1|right; exact Hne].
           ++ simpl. rewrite RE. simpl. rewrite HE in H3.
              destruct H3 as [H3|H3]; [congruence|exact H3].
           ++ simpl. rewrite Rw. simpl.
              apply not_in_snoc; [exact H4|discriminate].
      * apply (rep_taken _ _ _ _ l1 (l2 ++ [EvErrRecv e])); [|exact H2].
        simpl. rewrite Rw. simpl. rewrite H1, <- app_assoc. reflexivity.
  - injection Hstep as <-. rep_plain s (EvShowing true).
  - simpl in Hstep. injection Hstep as <-.
    rep_plain s (EvDialogShow (next_dialog (world s)) e OnNonFatal).
  - injection Hstep as <-. rep_plain s EvDisable.
  - discriminate.
Qed.

Lemma Reported_bg_step t err sm t' s s' :
  bg_step t' s = Some s' -> Reported t err sm s -> Reported t err sm s'.
Proof.
  unfold bg_step, Do_send, Do_receive. intros Hstep Hrep.
  destruct (halt s); [discriminate|].
  destruct (threads s !! t') as [th'|] eqn:Hth'; [|discriminate].
  destruct (decide (t' = t)) as [->|Hne].
  - (* the goroutine itself *)
    assert (Hlt : t < length (threads s))
      by (apply lookup_lt_Some in Hth'; exact Hth').
    destruct Hrep as [th H1 H2 H3 H4|th H1 H2 H3 H4|l1 l2 H1 H2].
    + assert (th' = th) by congruence. subst th'. rewrite H2 in Hstep.
      destruct H3 as [[i H3]|H3]; rewrite H3 in Hstep; simpl in Hstep;
        injection Hstep as <-.
      * apply (rep_before _ _ _ _ {| tpc := TReady;
                                     prog := [SSendErr err;
                                              SCall "StartMopidy" sm] |});
          simpl; [apply list_lookup_insert_eq, Hlt|reflexivity|auto|].
        apply not_in_snoc; [exact H4|discriminate].
      * apply (rep_parked _ _ _ _ {| tpc := TErrParked;
                                     prog := [SCall "StartMopidy" sm] |});
          simpl; [apply list_lookup_insert_eq, Hlt|reflexivity| |].
        -- apply in_or_app. right. left. reflexivity.
        -- apply not_in_snoc; [exact H4|discriminate].
    + assert (th' = th) by congruence. subst th'. rewrite H2 in Hstep.
      discriminate.
    + destruct (tpc th') as [|c|c|]; try discriminate.
      * destruct (prog th') as [|[f|e|name upd] rest]; [discriminate|..];
          injection Hstep as <-;
          (eapply (rep_taken _ _ _ _ l1); [|exact H2]);
          simpl; rewrite H1, <- app_assoc; reflexivity.
      * destruct (chans s !! c) as [[|b buf]|]; try discriminate.
        injection Hstep as <-.
        eapply (rep_taken _ _ _ _ l1); [|exact H2].
        simpl. rewrite H1, <- app_assoc. reflexivity.
  - (* another goroutine *)
    assert (Hcall : forall name, EvCall (Goroutine t') name <> start_call t).
    { intros name H. injection H as H _. contradiction. }
    destruct (tpc th') as [|c|c|]; try discriminate.
    + destruct (prog th') as [|[f|e|name upd] rest]; [discriminate|..];
        injection Hstep as <-.
      * apply (Reported_plain _ _ _ s _ (EvWorkSend t' (length (chans s)) f));
          simpl; [reflexivity|discriminate| |auto|assumption].
        apply list_lookup_insert_ne. exact Hne.
      * apply (Reported_plain _ _ _ s _ (EvErrSend t' e));
          simpl; [reflexivity|discriminate| | |assumption].
        -- apply list_lookup_insert_ne. exact Hne.
        -- intros x Hx. apply in_or_app. left. exact Hx.
      * apply (Reported_plain _ _ _ s _ (EvCall (Goroutine t') name));
          simpl; [reflexivity|apply Hcall| |auto|assumption].
        apply list_lookup_insert_ne. exact Hne.
    + destruct (chans s !! c) as [[|b buf]|]; try discriminate.
      injection Hstep as <-.
      apply (Reported_plain _ _ _ s _ (EvDoReturn t' c));
        simpl; [reflexivity|discriminate| |auto|assumption].
      apply list_lookup_insert_ne. exact Hne.
Qed.

Lemma Reported_reachable progs st t err i sm s :
  progs !! t = Some (goroutine (Some err) i sm) ->
  reachable (init progs st) s -> Reported t err sm s.
Proof.
  intros Hp. induction 1 as [|s s' Hr IH Hstep].
  - apply (rep_before _ _ _ _ {| tpc := TReady;
                                 prog := goroutine (Some err) i sm |}).
    + simpl. rewrite list_lookup_fmap, Hp. reflexivity.
    + reflexivity.
    + left. exists i. reflexivity.
    + intros [].
  - destruct Hstep as [batch s s' H|t' s s' H].
    + apply (Reported_main_step _ _ _ _ _ _ (DoInv_reachable _ _ _ Hr) H IH).
    + apply (Reported_bg_step _ _ _ _ _ _ H IH).
Qed.

Lemma split_before {A} (x y : A) : forall a b l1 l2,
  a ++ x :: b = l1 ++ y :: l2 -> ~ In y a -> x <> y -> In x l1.
Proof.
  induction a as [|a0 a IH]; intros b l1 l2 H Hn Hne; simpl in H.
  - destruct l1 as [|z l1]; simpl in H; [congruence|].
    injection H as -> _. left. reflexivity.
  - destruct l1 as [|z l1]; simpl in H.
    + injection H as -> _. destruct Hn. left. reflexivity.
    + injection H as -> H. right. apply (IH _ _ _ H); [|exact Hne].
      intros Hin. apply Hn. right. exact Hin.
Qed.

(** X13. When [InitMopidy] has failed, the goroutine of lines 73-80 does not
    get to [StartMopidy] before the main thread has taken its error off
    the channel: in every trace the call of line 79 comes after a
    receive of that error at line 98.  (The channel has no buffer, so
    the send of line 76 only returns when the loop receives.) *)
Theorem StartMopidy_waits_for_the_receive
    (progs : list (list Stmt)) (st : Store) (t : nat) (err : error)
    (i sm : option MopidyProc -> option MopidyProc) (s : State) :
  progs !! t = Some (goroutine (Some err) i sm) ->
  reachable (init progs st) s ->
  forall l1 l2,
    trace (world s) = l1 ++ start_call t :: l2 ->
    In (EvErrRecv err) l1.
Proof.
  intros Hp Hr l1 l2 Htr.
  assert (Hin : In (start_call t) (trace (world s))).
  { rewrite Htr. apply in_or_app. right. left. reflexivity. }
  destruct (Reported_reachable _ _ _ _ _ _ _ Hp Hr)
    as [th _ _ _ H4|th _ _ _ H4|a b H1 H2]; try contradiction.
  rewrite H1 in Htr. apply (split_before _ _ _ _ _ _ Htr H2). discriminate.
Qed.

Lemma StartMopidy_waits_for_the_receive_witness :
  exists s l1 l2,
    run [inr 0; inr 0; inl []; inl []; inl []; inl []; inl []; inr 0]
        (init [goroutine (Some "no such file") id id] ∅) = Some s /\
    trace (world s) = l1 ++ start_call 0 :: l2 /\
    In (EvErrRecv "no such file") l1.
Proof.
  destruct (run [inr 0; inr 0; inl []; inl []; inl []; inl []; inl []; inr 0]
                (init [goroutine (Some "no such file") id id] ∅))
    as [s|] eqn:Hrun; [|vm_compute in Hrun; discriminate].
  exists s.
  assert (Htr : exists l1, trace (world s) = l1 ++ start_call 0 :: []).
  { vm_compute in Hrun. injection Hrun as <-. eexists.
    cbn [trace world]. 
    match goal with |- ?l = _ => 
      change l with (removelast l ++ [start_call 0]) end.
    reflexivity. }
  destruct Htr as [l1 Htr]. exists l1, []. split; [reflexivity|].
  split; [exact Htr|].
  apply (StartMopidy_waits_for_the_receive
           [goroutine (Some "no such file") id id] ∅ 0 "no such file" id id s
           eq_refl (run_reachable _ _ _ Hrun) l1 [] Htr).
Defined.

(** ** The lock of SetStatus is released *)

(** The last statement of SetStatus and of a reader: the Unlock. *)
Lemma unlock_step t s c :
  crashed s = false -> callers s !! t = Some c -> cpc c = QSwitched ->
  exists s', status_step t s = Some s' /\ StatusLock (sworld s') = false /\
             crashed s' = false.
Proof.
  intros Hc Hl Hpc. unfold status_step. rewrite Hc, Hl, Hpc.
  eexists. split; [reflexivity|]. split; reflexivity.
Qed.

Lemma status_switch_returns status w :
  exists w', status_switch status w = Ret tt w' /\
             StatusLock w' = StatusLock w.
Proof. destruct status; eexists; split; reflexivity. Qed.

(** X14. Whoever holds the lock lets go of it: from any state in which the
    lock is held, its holder, running on its own, has released it
    after three statements at most; this is so too when the write of
    line 148 panics on a missing record, through the deferred Unlock. *)
Theorem StatusLock_is_released
    (w : World) (todos : list (list Request)) (s : StatusState) :
  StatusLock w = false -> paired w -> Forall observed_ok (trace w) ->
  status_reachable (status_init w todos) s ->
  crashed s = false -> StatusLock (sworld s) = true ->
  exists t n s',
    0 < n <= 3 /\ status_run (repeat t n) s = Some s' /\
    StatusLock (sworld s') = false /\
    (crashed s' = true -> Mopidy (sworld s') = None).
Proof.
  intros Hl Hp Ho Hr Hc Hheld.
  destruct (StatusInv_reachable _ _ _ Hl Hp Ho Hr)
    as [_ [Hcr|[(Hfree & _)|(_ & t & c & Hlook & _ & Hph)]]];
    [congruence|congruence|].
  assert (Hlt : t < length (callers s))
    by (apply lookup_lt_Some in Hlook; exact Hlook).
  exists t.
  assert (Hlast : forall s1 c1,
            crashed s1 = false -> callers s1 !! t = Some c1 ->
            cpc c1 = QSwitched ->
            exists s', status_run [t] s1 = Some s' /\
                       StatusLock (sworld s') = false /\
                       (crashed s' = true -> Mopidy (sworld s') = None)).
  { intros s1 c1 H1 H2 H3.
    destruct (unlock_step t s1 c1 H1 H2 H3) as (s' & Hs & Hf & Hcf).
    exists s'. simpl. rewrite Hs. split; [reflexivity|].
    split; [exact Hf|congruence]. }
  assert (Hswitch : forall s1 c1 status,
            crashed s1 = false -> callers s1 !! t = Some c1 ->
            cpc c1 = QWritten status ->
            exists s', status_run [t; t] s1 = Some s' /\
                       StatusLock (sworld s') = false /\
                       (crashed s' = true -> Mopidy (sworld s') = None)).
  { intros s1 c1 status H1 H2 H3.
    destruct (status_switch_returns status (sworld s1)) as (w' & Hw & _).
    assert (Hlt1 : t < length (callers s1))
      by (apply lookup_lt_Some in H2; exact H2).
    destruct (Hlast (mkStatus w' (<[t := {| cpc := QSwitched; todo := todo c1 |}]>
                                    (callers s1)) false)
                    {| cpc := QSwitched; todo := todo c1 |} eq_refl)
      as (s' & Hs & Hrest); [apply list_lookup_insert_eq, Hlt1|reflexivity|].
    exists s'. split; [|exact Hrest].
    simpl. unfold status_step at 1. rewrite H1, H2, H3, Hw. simpl.
    simpl in Hs. exact Hs. }
  destruct (cpc c) as [|status|status| |] eqn:Hpc; [destruct Hph|..].
  - destruct (Mopidy (sworld s)) as [m|] eqn:Hm.
    + destruct (Hswitch
                  (mkStatus (emit (EvStatus status)
                               (set_Mopidy (Some {| Cmd := Cmd m;
                                                    Status := status |})
                                  (sworld s)))
                     (<[t := {| cpc := QWritten status; todo := todo c |}]>
                        (callers s)) false)
                  {| cpc := QWritten status; todo := todo c |} status eq_refl)
        as (s' & Hs & Hrest); [apply list_lookup_insert_eq, Hlt|reflexivity|].
      exists 3, s'. split; [lia|]. split; [|exact Hrest].
      simpl. unfold status_step at 1. rewrite Hc, Hlook, Hpc.
      unfold write_status. rewrite Hm. simpl. simpl in Hs. exact Hs.
    + exists 1. eexists. split; [lia|]. split.
      * simpl. unfold status_step. rewrite Hc, Hlook, Hpc.
        unfold write_status. rewrite Hm. simpl. reflexivity.
      * simpl. split; [reflexivity|]. intros _. exact Hm.
  - destruct (Hswitch s c status Hc Hlook Hpc) as (s' & Hs & Hrest).
    exists 2, s'. split; [lia|]. split; [exact Hs|exact Hrest].
  - assert (Hobs : exists w', observe (sworld s) = Ret tt w').
    { unfold observe. destruct (Mopidy (sworld s)); eauto. }
    destruct Hobs as (w' & Hw).
    destruct (Hlast (mkStatus w' (<[t := {| cpc := QSwitched; todo := todo c |}]>
                                    (callers s)) false)
                    {| cpc := QSwitched; todo := todo c |} eq_refl)
      as (s' & Hs & Hrest); [apply list_lookup_insert_eq, Hlt|reflexivity|].
    exists 2, s'. split; [lia|]. split; [|exact Hrest].
    simpl. unfold status_step at 1. rewrite Hc, Hlook, Hpc, Hw. simpl.
    simpl in Hs. exact Hs.
  - destruct (Hlast s c Hc Hlook Hpc) as (s' & Hs & Hrest).
    exists 1, s'. split; [lia|]. split; [exact Hs|exact Hrest].
Qed.

Lemma StatusLock_is_released_witness :
  let w := set_Mopidy (Some {| Cmd := None; Status := MopidyNotStarted |})
                      loop_world in
  exists s0 t n s',
    status_run [1] (status_init w [[SetTo MopidyFailed];
                                   [SetTo MopidyConnected]]) = Some s0 /\
    status_step 0 s0 = None /\
    n <= 3 /\ status_run (repeat t n) s0 = Some s' /\
    StatusLock (sworld s') = false.
Proof.
  intros w.
  destruct (status_run [1] (status_init w [[SetTo MopidyFailed];
                                           [SetTo MopidyConnected]]))
    as [s0|] eqn:Hrun; [|vm_compute in Hrun; discriminate].
  assert (Hpaired : paired w) by (intros m l [= <-]; discriminate).
  destruct (StatusLock_is_released w _ s0 eq_refl Hpaired (Forall_nil_2 _)
              (status_run_reachable _ _ _ Hrun _ (sreach_init _)))
    as (t & n & s' & Hn & Hs & Hf & _);
    try (vm_compute in Hrun; injection Hrun as <-; reflexivity).
  exists s0, t, n, s'. split; [reflexivity|]. split.
  - vm_compute in Hrun. injection Hrun as <-. reflexivity.
  - split; [lia|]. split; [exact Hs|exact Hf].
Defined.
